(** * A skip list over an explicit heap

    Shallow embedding of [skiplist.c]: nodes live in a finite heap indexed by
    addresses, forward pointers are either the static sentinel or the address
    of a heap cell, and every C function becomes a function on
    (container fields, heap) in the option monad, where [None] stands for
    "no defined result" (a dereference of a freed or out-of-range location,
    an exhausted loop budget). *)

From Stdlib Require Import ZArith Lia.
From stdpp Require Import base option list sorting gmap.

Local Open Scope Z_scope.

(** ** Pointers and nodes *)

(** A [void *] payload reference: NULL, the address of the static sentinel
    (stored in the head's key and value fields), or a caller object. *)
Inductive voidp := NULL | SENTINEL_REF | Obj (a : Z).

(** A [struct skiplist_node *]: the static [SENTINEL] or an allocated cell. *)
Inductive node_ptr := SENTINEL | Ptr (a : nat).

Global Instance voidp_eq_dec : EqDecision voidp.
Proof. solve_decision. Defined.

Global Instance node_ptr_eq_dec : EqDecision node_ptr.
Proof. solve_decision. Defined.

(** [struct skiplist_node]: the flexible array [next] is a list whose length
    is the height the node was allocated with. *)
Record skiplist_node := mk_node {
  node_h : nat;
  node_k : voidp;
  node_v : voidp;
  node_next : list node_ptr
}.

(** [struct skiplist], without the two callbacks: the comparator is a section
    variable, the allocator is an oracle argument of each allocating call. *)
Record skiplist := mk_skiplist {
  count : Z;
  head : node_ptr
}.

Abbreviation heap := (gmap nat skiplist_node).

(** [static struct skiplist_node SENTINEL = { 0, NULL, NULL }] *)
Definition SENTINEL_node : skiplist_node := mk_node 0 NULL NULL [].

Definition IS_SENTINEL (n : node_ptr) : bool :=
  match n with SENTINEL => true | Ptr _ => false end.

(** Reading through a node pointer. The sentinel's scalar fields can be read;
    it has no forward slots. *)
Definition deref (m : heap) (p : node_ptr) : option skiplist_node :=
  match p with
  | SENTINEL => Some SENTINEL_node
  | Ptr a => m !! a
  end.

(** [p->next[i]] *)
Definition get_next (m : heap) (p : node_ptr) (i : nat) : option node_ptr :=
  n ← deref m p; node_next n !! i.

(** [p->next[i] = q] *)
Definition set_next (m : heap) (p : node_ptr) (i : nat) (q : node_ptr)
  : option heap :=
  match p with
  | SENTINEL => None
  | Ptr a =>
      n ← m !! a;
      if decide (i < length (node_next n))%nat
      then Some (<[a := mk_node (node_h n) (node_k n) (node_v n)
                                (<[i := q]> (node_next n))]> m)
      else None
  end.

(** [p->v = x] *)
Definition set_v (m : heap) (p : node_ptr) (x : voidp) : option heap :=
  match p with
  | SENTINEL => None
  | Ptr a =>
      n ← m !! a;
      Some (<[a := mk_node (node_h n) (node_k n) x (node_next n)]> m)
  end.

(** [if (out) { *out = x; }] for an out-parameter: [None] is a NULL
    out-pointer, [Some c] a cell currently holding [c]. *)
Definition store_out (out : option voidp) (x : voidp) : option voidp :=
  match out with
  | None => None
  | Some _ => Some x
  end.

(** [size_t] arithmetic. *)
Definition SIZE_MAX1 : Z := 2 ^ 64.
Definition size_t (z : Z) : Z := z mod SIZE_MAX1.

(** The [DO(n, body)] macro: [for (int i = 0; i < n; i++) { body; }] *)
Fixpoint DO_from {St : Type} (i n : nat) (body : nat → St → option St)
    (s : St) : option St :=
  match n with
  | O => Some s
  | S n' => s' ← body i s; DO_from (S i) n' body s'
  end.

Definition DO {St : Type} (n : nat) (body : nat → St → option St) (s : St)
  : option St := DO_from 0 n body s.

(** [enum skiplist_iter_res] *)
Inductive skiplist_iter_res := SKIPLIST_ITER_CONTINUE | SKIPLIST_ITER_HALT.

(** Callback types: disposal [(key, value, udata)] and visit
    [(key, value, udata) -> continue/stop]; [udata] is threaded as state. *)
Definition skiplist_free_cb (U : Type) := voidp → voidp → U → U.
Definition skiplist_iter_cb (U : Type) :=
  voidp → voidp → U → skiplist_iter_res * U.

(** ** Node store *)

(** [node_alloc]: [res] is what [sl->alloc(NULL, 0, size, udata)] returns
    (None for NULL). Forward pointers are initialised to the sentinel. *)
Definition node_alloc (res : option nat) (m : heap) (height : nat)
    (key value : voidp) : option node_ptr * heap :=
  match res with
  | None => (None, m)
  | Some a =>
      (Some (Ptr a),
       <[a := mk_node height key value (replicate height SENTINEL)]> m)
  end.

(** [node_free]: reads [n->h] for the size, then releases the cell. *)
Definition node_free (m : heap) (n : node_ptr) : option heap :=
  match n with
  | SENTINEL => None
  | Ptr a => _ ← m !! a; Some (delete a m)
  end.

(** [skiplist_new]: [cmp_null] says whether the comparator argument is NULL,
    [sl_res] whether the container allocation succeeds, [head_res] is the
    result of the head allocation. [None] is the NULL result. *)
Definition skiplist_new (cmp_null : bool) (sl_res : bool)
    (head_res : option nat) : option (skiplist * heap) :=
  if cmp_null then None
  else if sl_res then
    match node_alloc head_res ∅ 1 SENTINEL_REF SENTINEL_REF with
    | (None, _) => None
    | (Some hd, m) => Some (mk_skiplist 0 hd, m)
    end
  else None.

Section Skiplist.

(** The comparator callback and the configured maximum height
    ([skiplist_config.h]). *)
Variable cmp : voidp → voidp → Z.
Variable SKIPLIST_MAX_HEIGHT : nat.

(** ** Height generator *)

(** [for (bit = 0; r & (1 << bit); bit++) h++;] on a draw of [random()],
    which lies in [0, 2^31): the scan stops at bit 31 at the latest. *)
Fixpoint gen_height_loop (n : nat) (r : Z) (bit : Z) (h : nat) : nat :=
  match n with
  | O => h
  | S n' =>
      if Z.testbit r bit then gen_height_loop n' r (bit + 1) (S h) else h
  end.

Definition SKIPLIST_GEN_HEIGHT (r : Z) : nat :=
  let h := gen_height_loop 32 r 0 1 in
  if decide (SKIPLIST_MAX_HEIGHT < h)%nat then SKIPLIST_MAX_HEIGHT else h.

(** ** Predecessor locator *)

(** [IS_SENTINEL(next) ? dflt : sl->cmp(next->k, key)] *)
Definition cmp_next (m : heap) (dflt : Z) (nxt : node_ptr) (key : voidp)
  : option Z :=
  if IS_SENTINEL nxt then Some dflt
  else n ← deref m nxt; Some (cmp (node_k n) key).

(** The do-while loop of [init_prevs]; one unit of [fuel] per iteration. *)
Fixpoint init_prevs_loop (fuel : nat) (m : heap) (key : voidp)
    (cur : node_ptr) (lvl : nat) (prevs : list node_ptr)
  : option (list node_ptr) :=
  match fuel with
  | O => None
  | S fuel' =>
      nxt ← get_next m cur lvl;
      res ← cmp_next m 1 nxt key;
      if decide (res < 0) then init_prevs_loop fuel' m key nxt lvl prevs
      else
        let prevs' := <[lvl := cur]> prevs in
        match lvl with
        | O => Some prevs'
        | S lvl' => init_prevs_loop fuel' m key cur lvl' prevs'
        end
  end.

(** [init_prevs(sl, key, head, height, prevs)]. The caller's array has
    [height] slots, all of which the loop writes. Every iteration either
    moves to another cell or goes down a level, so [size m + height]
    iterations are enough on any acyclic heap. *)
Definition init_prevs (m : heap) (key : voidp) (hd : node_ptr)
    (height : nat) : option (list node_ptr) :=
  match height with
  | O => None
  | S lvl =>
      init_prevs_loop (size m + height) m key hd lvl
        (replicate height SENTINEL)
  end.

(** ** Mutation engine *)

Definition grow_head (hd_res : option nat) (sl : skiplist) (m : heap)
    (nn : node_ptr) : option (bool * skiplist * heap) :=
  let old_head := head sl in
  oh ← deref m old_head;
  nnode ← deref m nn;
  match node_alloc hd_res m (node_h nnode) SENTINEL_REF SENTINEL_REF with
  | (None, _) => Some (false, sl, m)
  | (Some new_head, m) =>
      m ← DO (node_h oh)
            (λ i m, x ← get_next m old_head i; set_next m new_head i x) m;
      nh ← deref m new_head;
      m ← DO_from (node_h oh) (node_h nh - node_h oh)
            (λ i m, set_next m new_head i nn) m;
      let sl := mk_skiplist (count sl) new_head in
      m ← node_free m old_head;
      Some (true, sl, m)
  end.

Definition add_or_set (sl : skiplist) (m : heap) (try_replace : bool)
    (key value : voidp) (old : option voidp)
    (r : Z) (nn_res hd_res : option nat)
  : option (bool * skiplist * heap * option voidp) :=
  let hd := head sl in
  hn ← deref m hd;
  let cur_height := node_h hn in
  prevs ← init_prevs m key hd cur_height;
  '(replaced, m, old) ←
    (if try_replace then
       p0 ← prevs !! 0%nat;
       nxt ← get_next m p0 0;
       if IS_SENTINEL nxt then Some (false, m, old)
       else
         n ← deref m nxt;
         if decide (cmp (node_k n) key = 0) then
           m' ← set_v m nxt value;
           Some (true, m', store_out old (node_v n))
         else Some (false, m, store_out old NULL)
     else Some (false, m, old));
  if (replaced : bool) then Some (true, sl, m, old)
  else
    let new_height := SKIPLIST_GEN_HEIGHT r in
    match node_alloc nn_res m new_height key value with
    | (None, _) => Some (false, sl, m, old)
    | (Some nn, m) =>
        '(ok, sl, m, prevs) ←
          (if decide (cur_height < new_height)%nat then
             '(ok, sl', m') ← grow_head hd_res sl m nn;
             if (ok : bool) then
               prevs' ← DO cur_height
                 (λ i ps, p ← ps !! i;
                          Some (if decide (p = hd)
                                then <[i := head sl']> ps else ps)) prevs;
               Some (true, sl', m', prevs')
             else Some (false, sl', m', prevs)
           else Some (true, sl, m, prevs));
        if (ok : bool) then
          nnode ← deref m nn;
          let minH := if decide (node_h nnode < cur_height)%nat
                      then node_h nnode else cur_height in
          m ← DO minH
                (λ i m, p ← prevs !! i;
                        x ← get_next m p i;
                        m1 ← set_next m nn i x;
                        set_next m1 p i nn) m;
          Some (true, mk_skiplist (size_t (count sl + 1)) (head sl), m, old)
        else Some (false, sl, m, old)
    end.

Definition skiplist_add (sl : skiplist) (m : heap) (key value : voidp)
    (r : Z) (nn_res hd_res : option nat) : option (bool * skiplist * heap) :=
  '(b, sl, m, _) ← add_or_set sl m false key value None r nn_res hd_res;
  Some (b, sl, m).

Definition skiplist_set (sl : skiplist) (m : heap) (key value : voidp)
    (old : option voidp) (r : Z) (nn_res hd_res : option nat)
  : option (bool * skiplist * heap * option voidp) :=
  add_or_set sl m true key value old r nn_res hd_res.

(** The do-while loop of the delete-all branch. *)
Fixpoint delete_all_loop {U : Type} (fuel : nat) (sl : skiplist) (m : heap)
    (key : voidp) (cb : skiplist_free_cb U) (udata : U)
    (doomed : node_ptr) (tdh : nat) (nexts : list node_ptr)
  : option (skiplist * heap * U * nat * list node_ptr) :=
  match fuel with
  | O => None
  | S fuel' =>
      nxt ← get_next m doomed 0;
      dn ← deref m doomed;
      let tdh := if decide (node_h dn < tdh)%nat then tdh else node_h dn in
      nexts ← DO (node_h dn)
                (λ i ns, x ← get_next m doomed i;
                         if decide (i < length ns)%nat
                         then Some (<[i := x]> ns) else None) nexts;
      let udata := cb key (node_v dn) udata in
      let sl := mk_skiplist (size_t (count sl - 1)) (head sl) in
      m ← node_free m doomed;
      res ← cmp_next m (-1) nxt key;
      if decide (res = 0)
      then delete_all_loop fuel' sl m key cb udata nxt tdh nexts
      else Some (sl, m, udata, tdh, nexts)
  end.

Definition delete_one_or_all {U : Type} (sl : skiplist) (m : heap)
    (key : voidp) (cb : option (skiplist_free_cb U)) (udata : U)
    (old : option voidp)
  : option (bool * skiplist * heap * U * option voidp) :=
  let hd := head sl in
  hn ← deref m hd;
  let cur_height := node_h hn in
  prevs ← init_prevs m key hd cur_height;
  p0 ← prevs !! 0%nat;
  doomed ← get_next m p0 0;
  res ← cmp_next m 1 doomed key;
  if decide (res ≠ 0) then Some (false, sl, m, udata, old)
  else
    match cb with
    | None =>
        dn ← deref m doomed;
        m ← DO (node_h dn)
              (λ i m, p ← prevs !! i;
                      x ← get_next m doomed i;
                      set_next m p i x) m;
        dn ← deref m doomed;
        let old := store_out old (node_v dn) in
        m ← node_free m doomed;
        Some (true, mk_skiplist (size_t (count sl - 1)) (head sl), m,
              udata, old)
    | Some cb =>
        let nexts := replicate cur_height SENTINEL in
        '(sl, m, udata, tdh, nexts) ←
          delete_all_loop (size m) sl m key cb udata doomed 0 nexts;
        m ← DO tdh
              (λ i m, p ← prevs !! i;
                      x ← nexts !! i;
                      set_next m p i x) m;
        Some (false, sl, m, udata, old)
    end.

Definition skiplist_delete (sl : skiplist) (m : heap) (key : voidp)
    (value : option voidp) : option (bool * skiplist * heap * option voidp) :=
  '(b, sl, m, _, value) ← delete_one_or_all sl m key None () value;
  Some (b, sl, m, value).

Definition skiplist_delete_all {U : Type} (sl : skiplist) (m : heap)
    (key : voidp) (cb : skiplist_free_cb U) (udata : U)
  : option (skiplist * heap * U) :=
  '(_, sl, m, udata, _) ← delete_one_or_all sl m key (Some cb) udata None;
  Some (sl, m, udata).

(** ** Traversal / extremal engine *)

(** The loop of [get_first_eq_node]; the inner option is the node or NULL. *)
Fixpoint get_first_eq_node_loop (fuel : nat) (m : heap) (key : voidp)
    (cur : node_ptr) (lvl : nat) : option (option node_ptr) :=
  match fuel with
  | O => None
  | S fuel' =>
      nxt ← get_next m cur lvl;
      res ← cmp_next m 1 nxt key;
      if decide (res < 0) then get_first_eq_node_loop fuel' m key nxt lvl
      else
        match lvl with
        | O => Some (if decide (res = 0) then Some nxt else None)
        | S lvl' => get_first_eq_node_loop fuel' m key cur lvl'
        end
  end.

Definition get_first_eq_node (sl : skiplist) (m : heap) (key : voidp)
  : option (option node_ptr) :=
  hn ← deref m (head sl);
  match node_h hn with
  | O => None
  | S lvl =>
      get_first_eq_node_loop (size m + node_h hn) m key (head sl) lvl
  end.

Definition skiplist_get (sl : skiplist) (m : heap) (key : voidp)
    (value : option voidp) : option (bool * option voidp) :=
  n ← get_first_eq_node sl m key;
  match n with
  | Some p => pn ← deref m p; Some (true, store_out value (node_v pn))
  | None => Some (false, value)
  end.

Definition skiplist_member (sl : skiplist) (m : heap) (key : voidp)
  : option bool :=
  fst <$> skiplist_get sl m key None.

Definition skiplist_first (sl : skiplist) (m : heap)
    (key value : option voidp) : option (bool * option voidp * option voidp) :=
  first ← get_next m (head sl) 0;
  if IS_SENTINEL first then Some (false, key, value)
  else
    fn ← deref m first;
    Some (true, store_out key (node_k fn), store_out value (node_v fn)).

Fixpoint skiplist_last_loop (fuel : nat) (m : heap) (cur : node_ptr)
    (lvl : nat) : option node_ptr :=
  match fuel with
  | O => None
  | S fuel' =>
      nxt ← get_next m cur lvl;
      if IS_SENTINEL nxt then
        match lvl with
        | O => Some cur
        | S lvl' => skiplist_last_loop fuel' m cur lvl'
        end
      else skiplist_last_loop fuel' m nxt lvl
  end.

Definition skiplist_last (sl : skiplist) (m : heap)
    (key value : option voidp) : option (bool * option voidp * option voidp) :=
  hn ← deref m (head sl);
  match node_h hn with
  | O => None
  | S lvl =>
      cur ← get_next m (head sl) lvl;
      if IS_SENTINEL cur then Some (false, key, value)
      else
        cur ← skiplist_last_loop (size m + node_h hn) m cur lvl;
        cn ← deref m cur;
        Some (true, store_out key (node_k cn), store_out value (node_v cn))
  end.

Definition skiplist_pop_first (sl : skiplist) (m : heap)
    (key value : option voidp)
  : option (bool * skiplist * heap * option voidp * option voidp) :=
  let hd := head sl in
  first ← get_next m hd 0;
  fn ← deref m first;
  let height := node_h fn in
  if IS_SENTINEL first then Some (false, sl, m, key, value)
  else
    let key := store_out key (node_k fn) in
    let value := store_out value (node_v fn) in
    let sl := mk_skiplist (size_t (count sl - 1)) (head sl) in
    m ← DO height (λ i m, x ← get_next m first i; set_next m hd i x) m;
    m ← node_free m first;
    Some (true, sl, m, key, value).

(** The do-while loop of [skiplist_pop_last]. *)
Fixpoint pop_last_loop (fuel : nat) (m : heap) (cur : node_ptr) (lvl : nat)
    (prevs : list node_ptr) : option (node_ptr * list node_ptr) :=
  match fuel with
  | O => None
  | S fuel' =>
      n1 ← get_next m cur lvl;
      stop ← (if IS_SENTINEL n1 then Some true
              else n2 ← get_next m n1 lvl; Some (IS_SENTINEL n2));
      if (stop : bool) then
        let prevs' := <[lvl := cur]> prevs in
        match lvl with
        | O => Some (cur, prevs')
        | S lvl' => pop_last_loop fuel' m cur lvl' prevs'
        end
      else pop_last_loop fuel' m n1 lvl prevs
  end.

Definition skiplist_pop_last (sl : skiplist) (m : heap)
    (key value : option voidp)
  : option (bool * skiplist * heap * option voidp * option voidp) :=
  let hd := head sl in
  hn ← deref m hd;
  match node_h hn with
  | O => None
  | S lvl =>
      if decide (count sl = 0) then Some (false, sl, m, key, value)
      else
        '(cur, prevs) ← pop_last_loop (size m + node_h hn) m hd lvl
                          (replicate (node_h hn) SENTINEL);
        cur ← get_next m cur 0;
        cn ← deref m cur;
        m ← DO (node_h cn)
              (λ i m, p ← prevs !! i; set_next m p i SENTINEL) m;
        cn ← deref m cur;
        let key := store_out key (node_k cn) in
        let value := store_out value (node_v cn) in
        let sl := mk_skiplist (size_t (count sl - 1)) (head sl) in
        m ← node_free m cur;
        Some (true, sl, m, key, value)
  end.

Definition skiplist_count (sl : skiplist) : Z := count sl.

Definition skiplist_empty (sl : skiplist) : bool :=
  bool_decide (skiplist_count sl = 0).

Fixpoint walk_and_apply {U : Type} (fuel : nat) (m : heap) (cur : node_ptr)
    (cb : skiplist_iter_cb U) (udata : U) : option U :=
  match fuel with
  | O => None
  | S fuel' =>
      if IS_SENTINEL cur then Some udata
      else
        cn ← deref m cur;
        let '(res, udata) := cb (node_k cn) (node_v cn) udata in
        match res with
        | SKIPLIST_ITER_CONTINUE =>
            nxt ← node_next cn !! 0%nat;
            walk_and_apply fuel' m nxt cb udata
        | SKIPLIST_ITER_HALT => Some udata
        end
  end.

Definition skiplist_iter {U : Type} (sl : skiplist) (m : heap)
    (cb : skiplist_iter_cb U) (udata : U) : option U :=
  first ← get_next m (head sl) 0;
  walk_and_apply (S (size m)) m first cb udata.

Definition skiplist_iter_from {U : Type} (sl : skiplist) (m : heap)
    (key : voidp) (cb : skiplist_iter_cb U) (udata : U) : option U :=
  cur ← get_first_eq_node sl m key;
  match cur with
  | None => Some udata
  | Some cur => walk_and_apply (S (size m)) m cur cb udata
  end.

(** The while loop of [skiplist_clear]. *)
Fixpoint clear_loop {U : Type} (fuel : nat) (m : heap) (cur : node_ptr)
    (cb : option (skiplist_free_cb U)) (udata : U) (ct : Z)
  : option (heap * U * Z) :=
  match fuel with
  | O => None
  | S fuel' =>
      if IS_SENTINEL cur then Some (m, udata, ct)
      else
        let doomed := cur in
        dn ← deref m doomed;
        let udata := match cb with
                     | Some cb => cb (node_k dn) (node_v dn) udata
                     | None => udata
                     end in
        cur ← get_next m doomed 0;
        m ← node_free m doomed;
        clear_loop fuel' m cur cb udata (size_t (ct + 1))
  end.

Definition skiplist_clear {U : Type} (sl : skiplist) (m : heap)
    (cb : option (skiplist_free_cb U)) (udata : U)
  : option (Z * skiplist * heap * U) :=
  cur ← get_next m (head sl) 0;
  '(m, udata, ct) ← clear_loop (S (size m)) m cur cb udata 0;
  hn ← deref m (head sl);
  m ← DO (node_h hn) (λ i m, set_next m (head sl) i SENTINEL) m;
  Some (ct, sl, m, udata).

(** [skiplist_free]: the container itself is released, only the heap and
    the callback state remain. *)
Definition skiplist_free {U : Type} (sl : skiplist) (m : heap)
    (cb : option (skiplist_free_cb U)) (udata : U)
  : option (Z * heap * U) :=
  '(ct, sl, m, udata) ← skiplist_clear sl m cb udata;
  m ← node_free m (head sl);
  Some (ct, m, udata).

(** ** Observations *)

(** The traversal of [skiplist_debug] at one level:
    [for (n = head->next[i]; n != &SENTINEL; n = n->next[i])]. *)
Fixpoint walk_level (fuel : nat) (m : heap) (n : node_ptr) (lvl : nat)
  : option (list node_ptr) :=
  match fuel with
  | O => None
  | S fuel' =>
      if IS_SENTINEL n then Some []
      else
        nxt ← get_next m n lvl;
        rest ← walk_level fuel' m nxt lvl;
        Some (n :: rest)
  end.

Definition level_list (sl : skiplist) (m : heap) (lvl : nat)
  : option (list node_ptr) :=
  first ← get_next m (head sl) lvl;
  walk_level (S (size m)) m first lvl.

(** The keys along one level. *)
Definition level_keys (sl : skiplist) (m : heap) (lvl : nat)
  : option (list voidp) :=
  ns ← level_list sl m lvl;
  mapM (λ n, node_k <$> deref m n) ns.

(** A visit callback that records every pair it is shown. *)
Definition collect_cb : skiplist_iter_cb (list (voidp * voidp)) :=
  λ key value acc, (SKIPLIST_ITER_CONTINUE, acc ++ [(key, value)]).

(** The (key, value) pairs in iteration order. *)
Definition entries (sl : skiplist) (m : heap)
  : option (list (voidp * voidp)) :=
  skiplist_iter sl m collect_cb [].

(** A disposal callback that records its arguments. *)
Definition log_cb : skiplist_free_cb (list (voidp * voidp)) :=
  λ key value acc, acc ++ [(key, value)].

(** ** Sequences of public operations *)

(** One call of the public interface together with what the environment
    answers: the random draw and the allocator results of an insertion. *)
Inductive op :=
| op_add (key value : voidp) (r : Z) (nn_res hd_res : option nat)
| op_set (key value : voidp) (old : option voidp) (r : Z)
         (nn_res hd_res : option nat)
| op_delete (key : voidp) (value : option voidp)
| op_delete_all (key : voidp)
| op_get (key : voidp) (value : option voidp)
| op_member (key : voidp)
| op_first (key value : option voidp)
| op_last (key value : option voidp)
| op_pop_first (key value : option voidp)
| op_pop_last (key value : option voidp)
| op_count
| op_empty
| op_iter
| op_iter_from (key : voidp)
| op_clear (with_cb : bool).

(** The allocator contract: a returned block is not one that is live, and
    the head block of a growing insertion is not the node block. *)
Definition fresh (m : heap) (res : option nat) : Prop :=
  match res with
  | None => True
  | Some a => m !! a = None
  end.

Definition allocs_ok (m : heap) (nn_res hd_res : option nat) : Prop :=
  fresh m nn_res ∧ fresh m hd_res ∧
  (nn_res = None ∨ nn_res ≠ hd_res).

Global Instance fresh_dec m res : Decision (fresh m res).
Proof. destruct res; simpl; apply _. Defined.

Global Instance allocs_ok_dec m a b : Decision (allocs_ok m a b).
Proof. unfold allocs_ok. apply _. Defined.

(** The container after one operation, when the operation returns. *)
Definition exec_op (o : op) (s : skiplist * heap) : option (skiplist * heap) :=
  let '(sl, m) := s in
  match o with
  | op_add key value r nn_res hd_res =>
      if decide (allocs_ok m nn_res hd_res) then
        '(_, sl, m) ← skiplist_add sl m key value r nn_res hd_res;
        Some (sl, m)
      else None
  | op_set key value old r nn_res hd_res =>
      if decide (allocs_ok m nn_res hd_res) then
        '(_, sl, m, _) ← skiplist_set sl m key value old r nn_res hd_res;
        Some (sl, m)
      else None
  | op_delete key value =>
      '(_, sl, m, _) ← skiplist_delete sl m key value; Some (sl, m)
  | op_delete_all key =>
      '(sl, m, _) ← skiplist_delete_all sl m key log_cb []; Some (sl, m)
  | op_get key value => _ ← skiplist_get sl m key value; Some (sl, m)
  | op_member key => _ ← skiplist_member sl m key; Some (sl, m)
  | op_first key value => _ ← skiplist_first sl m key value; Some (sl, m)
  | op_last key value => _ ← skiplist_last sl m key value; Some (sl, m)
  | op_pop_first key value =>
      '(_, sl, m, _, _) ← skiplist_pop_first sl m key value; Some (sl, m)
  | op_pop_last key value =>
      '(_, sl, m, _, _) ← skiplist_pop_last sl m key value; Some (sl, m)
  | op_count => Some (sl, m)
  | op_empty => Some (sl, m)
  | op_iter => _ ← skiplist_iter sl m collect_cb []; Some (sl, m)
  | op_iter_from key =>
      _ ← skiplist_iter_from sl m key collect_cb []; Some (sl, m)
  | op_clear with_cb =>
      '(_, sl, m, _) ←
        skiplist_clear sl m (if with_cb then Some log_cb else None) [];
      Some (sl, m)
  end.

Fixpoint run (ops : list op) (s : skiplist * heap)
  : option (skiplist * heap) :=
  match ops with
  | [] => Some s
  | o :: ops' => s' ← exec_op o s; run ops' s'
  end.

(** A container that some sequence of public calls produces from a fresh
    one. *)
Definition reachable (s : skiplist * heap) : Prop :=
  ∃ head_res ops s0,
    skiplist_new false true head_res = Some s0 ∧ run ops s0 = Some s.

End Skiplist.

(** ** A concrete client: integer keys *)

(** Caller objects are laid out so that the object at address [a] holds the
    integer [a / 10]; distinct addresses in one decade are distinct references
    to equal keys. *)
Definition key_of (p : voidp) : Z :=
  match p with
  | Obj a => a / 10
  | _ => 0
  end.

Definition cmp_int (a b : voidp) : Z := key_of a - key_of b.

Local Close Scope Z_scope.

(** * The list a heap represents *)

(** One stored pair as the proofs see it: where its cell is, how tall it is
    and what it holds. The forward pointers are not part of an entry: they
    are determined by the entries that follow it. *)
Record entry := mk_entry {
  e_addr : nat;
  e_h : nat;
  e_k : voidp;
  e_v : voidp
}.

Definition e_ptr (e : entry) : node_ptr := Ptr (e_addr e).

(** The first cell of [l] that takes part in level [L], or the sentinel. *)
Fixpoint first_at (L : nat) (l : list entry) : node_ptr :=
  match l with
  | [] => SENTINEL
  | e :: r => if decide (L < e_h e) then e_ptr e else first_at L r
  end.

(** The last cell of [l] that takes part in level [L], or [d]. *)
Fixpoint last_at (L : nat) (d : node_ptr) (l : list entry) : node_ptr :=
  match l with
  | [] => d
  | e :: r => last_at L (if decide (L < e_h e) then e_ptr e else d) r
  end.

(** The forward-pointer array of a cell of height [h] followed by [rest]. *)
Definition nexts_of (h : nat) (rest : list entry) : list node_ptr :=
  (λ L, first_at L rest) <$> seq 0 h.

Definition node_of (e : entry) (rest : list entry) : skiplist_node :=
  mk_node (e_h e) (e_k e) (e_v e) (nexts_of (e_h e) rest).

(** Every cell of [l] is in the heap with the pointers that the entries after
    it (in [l], then in [suf]) call for. *)
Definition nodes_ok (m : heap) (l suf : list entry) : Prop :=
  ∀ pre e r, l = pre ++ e :: r → m !! e_addr e = Some (node_of e (r ++ suf)).

Definition low (L : nat) (l : list entry) : Prop :=
  Forall (λ e, e_h e ≤ L) l.

Section ListFacts.

Implicit Types (l r pre : list entry) (e : entry) (L : nat).

Lemma first_at_low L l : low L l → first_at L l = SENTINEL.
Proof.
  induction 1 as [|e l He _ IH]; simpl; [done|].
  case_decide; [lia | done].
Qed.

Lemma first_at_app_low L l1 l2 :
  low L l1 → first_at L (l1 ++ l2) = first_at L l2.
Proof.
  induction 1 as [|e l He _ IH]; simpl; [done|].
  case_decide; [lia | done].
Qed.

Lemma first_at_hit L l1 e l2 :
  low L l1 → L < e_h e → first_at L (l1 ++ e :: l2) = e_ptr e.
Proof.
  intros Hl He. rewrite first_at_app_low by done. simpl.
  case_decide; [done | lia].
Qed.

Lemma first_at_cases L l :
  (low L l ∧ first_at L l = SENTINEL) ∨
  (∃ l1 e l2, l = l1 ++ e :: l2 ∧ low L l1 ∧ L < e_h e ∧
              first_at L l = e_ptr e).
Proof.
  induction l as [|e l IH]; simpl.
  - left. split; [constructor | done].
  - case_decide as He.
    + right. exists [], e, l. repeat split; [constructor | done].
    + destruct IH as [[Hl Hs]|(l1 & e' & l2 & -> & Hl & He' & Hf)].
      * left. split; [constructor; [lia | done] | done].
      * right. exists (e :: l1), e', l2.
        repeat split; [constructor; [lia | done] | done | done].
Qed.

Lemma first_at_app L l1 l2 :
  first_at L (l1 ++ l2) =
  if IS_SENTINEL (first_at L l1) then first_at L l2 else first_at L l1.
Proof.
  destruct (first_at_cases L l1) as [[Hl Hs]|(a & e & b & -> & Hl & He & Hf)].
  - rewrite Hs. simpl. by apply first_at_app_low.
  - rewrite Hf. simpl. rewrite <- app_assoc. simpl. by apply first_at_hit.
Qed.

Lemma first_at_sentinel_low L l : first_at L l = SENTINEL → low L l.
Proof.
  destruct (first_at_cases L l) as [[Hl _]|(a & e & b & _ & _ & _ & ->)];
    [done | discriminate].
Qed.

Lemma first_at_above L l h :
  Forall (λ e, e_h e ≤ h) l → h ≤ L → first_at L l = SENTINEL.
Proof.
  intros Hl HL. apply first_at_low. eapply Forall_impl; [exact Hl|].
  simpl. intros; lia.
Qed.

Lemma last_at_app L d l1 l2 :
  last_at L d (l1 ++ l2) = last_at L (last_at L d l1) l2.
Proof. revert d. induction l1 as [|e l1 IH]; intros d; simpl; [done|]. apply IH. Qed.

Lemma last_at_low L d l : low L l → last_at L d l = d.
Proof.
  intros Hl. revert d. induction Hl as [|e l He _ IH]; intros d; simpl; [done|].
  rewrite IH. case_decide; [lia | done].
Qed.

Lemma last_at_hit L d pre e r :
  L < e_h e → low L r → last_at L d (pre ++ e :: r) = e_ptr e.
Proof.
  intros He Hr. rewrite last_at_app. simpl.
  rewrite last_at_low by done. case_decide; [done | lia].
Qed.

Lemma last_at_cases L d l :
  (low L l ∧ last_at L d l = d) ∨
  (∃ pre e r, l = pre ++ e :: r ∧ L < e_h e ∧ low L r ∧
              last_at L d l = e_ptr e).
Proof.
  induction l as [|e l IH] using rev_ind.
  - left. split; [constructor | done].
  - destruct (decide (L < e_h e)) as [He|He].
    + right. exists l, e, []. repeat split; [done | constructor |].
      by apply last_at_hit; [|constructor].
    + destruct IH as [[Hl Hd]|(pre & e' & r & -> & He' & Hr & Hd)].
      * left. split.
        -- apply Forall_app. split; [done|]. constructor; [lia | constructor].
        -- rewrite last_at_app, Hd. simpl. case_decide; [lia | done].
      * right. exists pre, e', (r ++ [e]). rewrite <- app_assoc. simpl.
        repeat split; [done | |].
        -- apply Forall_app. split; [done|]. constructor; [lia | constructor].
        -- apply last_at_hit; [done|].
           apply Forall_app. split; [done|]. constructor; [lia | constructor].
Qed.

(** In a list of cells at distinct addresses a cell has one position. *)
Lemma split_unique l p1 e1 r1 p2 e2 r2 :
  NoDup (e_addr <$> l) →
  l = p1 ++ e1 :: r1 → l = p2 ++ e2 :: r2 → e_addr e1 = e_addr e2 →
  p1 = p2 ∧ e1 = e2 ∧ r1 = r2.
Proof.
  intros Hnd. revert l Hnd p2.
  induction p1 as [|x p1 IH]; intros l Hnd p2 -> H2 Ha.
  - destruct p2 as [|y p2].
    + by inversion H2.
    + exfalso. inversion H2; subst. apply NoDup_cons in Hnd as [Hni _].
      apply Hni. rewrite Ha. apply (list_elem_of_fmap_2 e_addr).
      apply elem_of_app. right. left.
  - destruct p2 as [|y p2].
    + exfalso. inversion H2; subst. apply NoDup_cons in Hnd as [Hni _].
      apply Hni. rewrite <- Ha. apply (list_elem_of_fmap_2 e_addr).
      apply elem_of_app. right. left.
    + inversion H2 as [[Hxy Hrest]]. subst y.
      apply NoDup_cons in Hnd as [_ Hnd].
      destruct (IH _ Hnd p2 eq_refl Hrest Ha) as (-> & -> & ->). done.
Qed.

Lemma nexts_of_length h r : length (nexts_of h r) = h.
Proof. unfold nexts_of. by rewrite length_fmap, length_seq. Qed.

Lemma nexts_of_lookup h r L :
  L < h → nexts_of h r !! L = Some (first_at L r).
Proof.
  intros HL. unfold nexts_of. rewrite list_lookup_fmap.
  rewrite lookup_seq_lt by done. done.
Qed.

Lemma nexts_of_nil h : nexts_of h [] = replicate h SENTINEL.
Proof.
  apply list_eq. intros i. destruct (decide (i < h)) as [Hi|Hi].
  - rewrite nexts_of_lookup by done. by rewrite lookup_replicate_2.
  - rewrite !lookup_ge_None_2; [done | rewrite length_replicate; lia |
                                 rewrite nexts_of_length; lia].
Qed.

(** Two pointer arrays of one height agree when they agree slot by slot. *)
Lemma fmap_seq_ext (f g : nat → node_ptr) h :
  (∀ L, L < h → f L = g L) → f <$> seq 0 h = g <$> seq 0 h.
Proof.
  intros Hfg. apply list_eq. intros i. rewrite !list_lookup_fmap.
  destruct (decide (i < h)) as [Hi|Hi].
  - rewrite lookup_seq_lt by done. simpl. by rewrite Hfg.
  - rewrite lookup_seq_ge by lia. done.
Qed.

Lemma nodes_ok_nil m suf : nodes_ok m [] suf.
Proof. intros pre e r H. by destruct pre. Qed.

Lemma nodes_ok_cons m e l suf :
  nodes_ok m (e :: l) suf ↔
  m !! e_addr e = Some (node_of e (l ++ suf)) ∧ nodes_ok m l suf.
Proof.
  split.
  - intros H. split; [by apply (H [] e l)|].
    intros pre e' r ->. by apply (H (e :: pre) e' r).
  - intros [He Hl] pre e' r Heq. destruct pre as [|x pre]; simpl in Heq.
    + by inversion Heq; subst.
    + inversion Heq; subst. by apply (Hl pre e' r).
Qed.

Lemma nodes_ok_app m l1 l2 suf :
  nodes_ok m (l1 ++ l2) suf ↔ nodes_ok m l1 (l2 ++ suf) ∧ nodes_ok m l2 suf.
Proof.
  induction l1 as [|e l1 IH]; simpl.
  - split; [intros H; split; [apply nodes_ok_nil | done] | by intros [_ H]].
  - rewrite !nodes_ok_cons, IH, <- app_assoc. tauto.
Qed.

Lemma nodes_ok_frame m m' l suf :
  (∀ e, e ∈ l → m' !! e_addr e = m !! e_addr e) →
  nodes_ok m l suf → nodes_ok m' l suf.
Proof.
  intros Hf H pre e r ->. rewrite Hf; [by apply (H pre e r)|].
  apply elem_of_app. right. left.
Qed.

End ListFacts.

(** The [DO] loop with an invariant. *)
Lemma DO_from_inv {St : Type} (P : nat → St → Prop) body i n (s : St) :
  P i s →
  (∀ j s, i ≤ j < i + n → P j s → ∃ s', body j s = Some s' ∧ P (S j) s') →
  ∃ s', DO_from i n body s = Some s' ∧ P (i + n) s'.
Proof.
  revert i s. induction n as [|n IH]; intros i s HP Hstep; simpl.
  - exists s. by rewrite Nat.add_0_r.
  - destruct (Hstep i s) as (s1 & -> & HP1); [lia | done |]. simpl.
    destruct (IH (S i) s1 HP1) as (s2 & -> & HP2).
    + intros j s' Hj. apply Hstep. lia.
    + exists s2. split; [done|]. by replace (i + S n) with (S i + n) by lia.
Qed.

Lemma DO_inv {St : Type} (P : nat → St → Prop) body n (s : St) :
  P 0 s →
  (∀ j s, j < n → P j s → ∃ s', body j s = Some s' ∧ P (S j) s') →
  ∃ s', DO n body s = Some s' ∧ P n s'.
Proof.
  intros H0 Hstep. apply (DO_from_inv P body 0 n s H0).
  intros j s' Hj. apply Hstep. lia.
Qed.

(** The heap holds a skip list with head cell [hde] and stored cells [l], in
    level-0 order: every cell is where its entry says, with exactly the
    forward pointers that the later entries determine; no two cells share an
    address; no stored cell is taller than the head. *)
Record skl (m : heap) (hde : entry) (l : list entry) : Prop := {
  skl_nodes : nodes_ok m (hde :: l) [];
  skl_nodup : NoDup (e_addr <$> hde :: l);
  skl_heights : Forall (λ e, 1 ≤ e_h e ≤ e_h hde) l;
  skl_hh : 1 ≤ e_h hde
}.

(** Equations between concatenations, up to re-bracketing. *)
Ltac list_assoc :=
  repeat (rewrite <- app_assoc || rewrite <- app_comm_cons); simpl;
  try done.

Section Cells.

Implicit Types (l r pre : list entry) (e c : entry) (L : nat) (m : heap).

Lemma skl_at m hde l pre c r :
  skl m hde l → hde :: l = pre ++ c :: r →
  m !! e_addr c = Some (node_of c r).
Proof.
  intros [Hn _ _ _] Heq. specialize (Hn pre c r Heq).
  by rewrite app_nil_r in Hn.
Qed.

Lemma deref_at m hde l pre c r :
  skl m hde l → hde :: l = pre ++ c :: r →
  deref m (e_ptr c) = Some (node_of c r).
Proof. apply skl_at. Qed.

Lemma get_next_at m hde l pre c r L :
  skl m hde l → hde :: l = pre ++ c :: r → L < e_h c →
  get_next m (e_ptr c) L = Some (first_at L r).
Proof.
  intros Hs Heq HL. unfold get_next.
  rewrite (deref_at _ _ _ _ _ _ Hs Heq). simpl.
  by apply nexts_of_lookup.
Qed.

Lemma skl_low_head m hde l : skl m hde l → low (e_h hde) l.
Proof.
  intros [_ _ Hh _]. eapply Forall_impl; [exact Hh|]. simpl. intros; lia.
Qed.

(** The cells are distinct blocks of the heap, so there are at most as many
    as the heap has blocks. *)
Lemma skl_size m hde l : skl m hde l → S (length l) ≤ size m.
Proof.
  intros Hs. destruct Hs as [Hn Hnd _ _].
  change (S (length l)) with (length (hde :: l)).
  rewrite <- (length_fmap e_addr), <- size_dom.
  rewrite <- (size_list_to_set (C := gset nat)) by done.
  apply subseteq_size. intros a Ha.
  apply elem_of_list_to_set, list_elem_of_fmap in Ha as (e & -> & He).
  apply list_elem_of_split in He as (pre & r & Heq).
  apply elem_of_dom. rewrite (Hn pre e r Heq). eauto.
Qed.

End Cells.

Section Locator.

Context (cmp : voidp → voidp → Z).

Definition key_lt (key : voidp) (e : entry) : Prop := (cmp (e_k e) key < 0)%Z.

Lemma cmp_next_sentinel m d key : cmp_next cmp m d SENTINEL key = Some d.
Proof. done. Qed.

Lemma cmp_next_at m hde l pre c r d key :
  skl m hde l → hde :: l = pre ++ c :: r →
  cmp_next cmp m d (e_ptr c) key = Some (cmp (e_k c) key).
Proof.
  intros Hs Heq. unfold cmp_next. simpl.
  by rewrite (skl_at _ _ _ _ _ _ Hs Heq).
Qed.

(** The search loop, started at a cell [c] of the part [l1] below the key
    with [pb] the rest of that part: it fills the slots [0..lvl] of the
    array with the last cell of each level. *)
Lemma init_prevs_loop_spec m hde l key l1 l2 :
  skl m hde l → l = l1 ++ l2 →
  Forall (key_lt key) l1 → Forall (λ e, ¬ key_lt key e) l2 →
  ∀ fuel pa c pb lvl prevs,
    hde :: l1 = pa ++ c :: pb → lvl < e_h c → lvl < length prevs →
    length pb + lvl < fuel →
    ∃ res, init_prevs_loop cmp fuel m key (e_ptr c) lvl prevs = Some res ∧
           length res = length prevs ∧
           (∀ L, L ≤ lvl → res !! L = Some (last_at L (e_ptr c) pb)) ∧
           (∀ L, lvl < L → res !! L = prevs !! L).
Proof.
  intros Hs -> Hlt Hge.
  induction fuel as [|fuel IH]; intros pa c pb lvl prevs Hsplit Hc Hlen Hfuel;
    [lia|].
  assert (Hfull : hde :: l1 ++ l2 = pa ++ c :: (pb ++ l2)).
  { rewrite app_comm_cons, Hsplit, <- app_assoc. done. }
  simpl. rewrite (get_next_at _ _ _ _ _ _ _ Hs Hfull Hc). simpl.
  set (nxt := first_at lvl (pb ++ l2)).
  assert (Hcase :
    (low lvl pb ∧ ∃ res0, cmp_next cmp m 1 nxt key = Some res0 ∧ ¬ (res0 < 0)%Z)
    ∨ (∃ pb1 e pb2, pb = pb1 ++ e :: pb2 ∧ low lvl pb1 ∧ lvl < e_h e ∧
         nxt = e_ptr e ∧ cmp_next cmp m 1 nxt key = Some (cmp (e_k e) key) ∧
         key_lt key e)).
  { subst nxt.
    destruct (first_at_cases lvl pb)
      as [[Hlow Hs1]|(pb1 & e & pb2 & -> & Hlow & He & Hf)].
    - left. split; [done|]. rewrite first_at_app_low by done.
      destruct (first_at_cases lvl l2)
        as [[Hlow2 Hs2]|(a & e & b & -> & Hlow2 & He & Hf)].
      + rewrite Hs2. exists 1%Z. split; [done | lia].
      + rewrite Hf. exists (cmp (e_k e) key). split.
        * eapply (cmp_next_at m hde _ (pa ++ c :: pb ++ a) e b); [exact Hs|].
          rewrite Hfull. list_assoc.
        * apply Forall_app in Hge as [_ Hge].
          by apply Forall_cons in Hge as [Hge _].
    - right. exists pb1, e, pb2. split; [done|]. split; [done|]. split; [done|].
      rewrite <- app_assoc. simpl. rewrite first_at_hit by done.
      split; [done|]. split.
      + eapply (cmp_next_at m hde _ (pa ++ c :: pb1) e (pb2 ++ l2)); [exact Hs|].
        rewrite Hfull. list_assoc.
      + assert (Hin : e ∈ l1); [|by eapply Forall_forall in Hlt].
        destruct pa as [|x pa]; simpl in Hsplit; inversion Hsplit; subst.
        * apply elem_of_app. right. left.
        * apply elem_of_app. right. right. apply elem_of_app. right. left. }
  destruct Hcase as [[Hlow (res0 & -> & Hres)]
                    |(pb1 & e & pb2 & -> & Hlow & He & Hnx & -> & Hek)]; simpl.
  - rewrite decide_False by done.
    destruct lvl as [|lvl'].
    + eexists. split; [done|]. rewrite length_insert. split; [done|]. split.
      * intros L HL. assert (L = 0) as -> by lia.
        rewrite list_lookup_insert_eq by done.
        by rewrite last_at_low.
      * intros L HL. rewrite list_lookup_insert_ne by lia. done.
    + destruct (IH pa c pb lvl' (<[S lvl':=e_ptr c]> prevs))
        as (res & -> & Hl & Hin & Hout);
        [done | lia | rewrite length_insert; lia | lia |].
      exists res. split; [done|]. rewrite length_insert in Hl.
      split; [done|]. split.
      * intros L HL. destruct (decide (L = S lvl')) as [->|Hne].
        -- rewrite Hout by lia. rewrite list_lookup_insert_eq by done.
           by rewrite last_at_low.
        -- apply Hin. lia.
      * intros L HL. rewrite Hout by lia.
        rewrite list_lookup_insert_ne by lia. done.
  - unfold key_lt in Hek. rewrite decide_True by done. rewrite Hnx.
    destruct (IH (pa ++ c :: pb1) e pb2 lvl prevs)
      as (res & -> & Hl & Hin & Hout);
      [rewrite Hsplit; list_assoc | done | done | |].
    { rewrite length_app in Hfuel. simpl in Hfuel. lia. }
    exists res. split; [done|]. split; [done|]. split; [|done].
    intros L HL. rewrite Hin by done. f_equal.
    rewrite last_at_app. simpl. rewrite decide_True by lia. done.
Qed.

(** [init_prevs] on a well-formed list split at the key: slot [L] receives
    the last cell of level [L] among the head and the entries below the
    key. *)
Lemma init_prevs_spec m hde l key l1 l2 :
  skl m hde l → l = l1 ++ l2 →
  Forall (key_lt key) l1 → Forall (λ e, ¬ key_lt key e) l2 →
  init_prevs cmp m key (e_ptr hde) (e_h hde) =
  Some ((λ L, last_at L (e_ptr hde) l1) <$> seq 0 (e_h hde)).
Proof.
  intros Hs Hl Hlt Hge. unfold init_prevs.
  destruct (e_h hde) as [|lvl] eqn:Hh; [destruct Hs; lia|].
  destruct (init_prevs_loop_spec m hde l key l1 l2 Hs Hl Hlt Hge
              (size m + S lvl) [] hde l1 lvl (replicate (S lvl) SENTINEL))
    as (res & -> & Hlen & Hin & _).
  - done.
  - lia.
  - rewrite length_replicate. lia.
  - pose proof (skl_size _ _ _ Hs) as Hsz. subst l.
    rewrite length_app in Hsz. lia.
  - f_equal. apply list_eq. intros i. rewrite list_lookup_fmap.
    destruct (decide (i < S lvl)) as [Hi|Hi].
    + rewrite Hin by lia. by rewrite lookup_seq_lt.
    + rewrite lookup_seq_ge by lia. apply lookup_ge_None_2.
      rewrite Hlen, length_replicate. lia.
Qed.

End Locator.

Lemma filter_none {A} (P : A → Prop) `{∀ x, Decision (P x)} (l : list A) :
  Forall (λ x, ¬ P x) l → filter P l = [].
Proof.
  induction 1 as [|x l Hx _ IH]; [done|]. by rewrite filter_cons_False.
Qed.

Lemma filter_all {A} (P : A → Prop) `{∀ x, Decision (P x)} (l : list A) :
  Forall P l → filter P l = l.
Proof.
  induction 1 as [|x l Hx _ IH]; [done|].
  rewrite filter_cons_True by done. by rewrite IH.
Qed.

(** ** Splitting a list at a key *)

Section KeyOrder.

Context (cmp : voidp → voidp → Z).

(** The entries strictly below [key] at the front of the list, and the rest. *)
Fixpoint below (key : voidp) (l : list entry) : list entry :=
  match l with
  | [] => []
  | e :: r => if decide (cmp (e_k e) key < 0)%Z then e :: below key r else []
  end.

Fixpoint from (key : voidp) (l : list entry) : list entry :=
  match l with
  | [] => []
  | e :: r => if decide (cmp (e_k e) key < 0)%Z then from key r else l
  end.

(** The entries equal to [key] at the front of the list, and the rest. *)
Fixpoint eq_run (key : voidp) (l : list entry) : list entry :=
  match l with
  | [] => []
  | e :: r => if decide (cmp (e_k e) key = 0)%Z then e :: eq_run key r else []
  end.

Fixpoint after_run (key : voidp) (l : list entry) : list entry :=
  match l with
  | [] => []
  | e :: r => if decide (cmp (e_k e) key = 0)%Z then after_run key r else l
  end.

Definition key_le (a b : entry) : Prop := (cmp (e_k a) (e_k b) ≤ 0)%Z.

(** Level-0 order: keys never decrease. *)
Definition sorted (l : list entry) : Prop := StronglySorted key_le l.

Lemma below_from key l : below key l ++ from key l = l.
Proof.
  induction l as [|e l IH]; simpl; [done|].
  case_decide; simpl; [by rewrite IH | done].
Qed.

Lemma below_lt key l : Forall (key_lt cmp key) (below key l).
Proof.
  induction l as [|e l IH]; simpl; [constructor|].
  case_decide; [by constructor | constructor].
Qed.

Lemma eq_run_after key l : eq_run key l ++ after_run key l = l.
Proof.
  induction l as [|e l IH]; simpl; [done|].
  case_decide; simpl; [by rewrite IH | done].
Qed.

Lemma eq_run_eq key l : Forall (λ e, cmp (e_k e) key = 0%Z) (eq_run key l).
Proof.
  induction l as [|e l IH]; simpl; [constructor|].
  case_decide; [by constructor | constructor].
Qed.

Lemma after_run_head key l e r :
  after_run key l = e :: r → cmp (e_k e) key ≠ 0%Z.
Proof.
  induction l as [|x l IH]; simpl; [done|].
  case_decide; [done|]. by intros [= -> ->].
Qed.

Lemma from_head key l e r :
  from key l = e :: r → ¬ key_lt cmp key e.
Proof.
  induction l as [|x l IH]; simpl; [done|].
  case_decide; [done|]. by intros [= -> ->].
Qed.

(** The comparator is a three-way comparison of a total preorder. *)
Definition three_way : Prop :=
  (∀ a b, Z.sgn (cmp a b) = (- Z.sgn (cmp b a))%Z) ∧
  (∀ a b c, (cmp a b ≤ 0)%Z → (cmp b c ≤ 0)%Z → (cmp a c ≤ 0)%Z).

Section Order.

Hypothesis cmp_ok : three_way.

Lemma cmp_flip a b : Z.sgn (cmp a b) = (- Z.sgn (cmp b a))%Z.
Proof. apply cmp_ok. Qed.

Lemma cmp_trans a b c : (cmp a b ≤ 0)%Z → (cmp b c ≤ 0)%Z → (cmp a c ≤ 0)%Z.
Proof. apply cmp_ok. Qed.

Lemma cmp_ge_flip a b : (0 ≤ cmp a b)%Z ↔ (cmp b a ≤ 0)%Z.
Proof. pose proof (cmp_flip a b). lia. Qed.

Lemma cmp_gt_flip a b : (0 < cmp a b)%Z ↔ (cmp b a < 0)%Z.
Proof. pose proof (cmp_flip a b). lia. Qed.

Lemma cmp_eq_flip a b : cmp a b = 0%Z ↔ cmp b a = 0%Z.
Proof. pose proof (cmp_flip a b). lia. Qed.

Lemma cmp_le_lt_trans a b c :
  (cmp a b ≤ 0)%Z → (cmp b c < 0)%Z → (cmp a c < 0)%Z.
Proof.
  intros Hab Hbc. destruct (decide (cmp a c < 0)%Z) as [|Hn]; [done|].
  exfalso. assert (cmp c a ≤ 0)%Z as Hca by (apply cmp_ge_flip; lia).
  pose proof (cmp_trans c a b Hca Hab) as Hcb.
  apply cmp_ge_flip in Hcb. lia.
Qed.

Lemma cmp_lt_le_trans a b c :
  (cmp a b < 0)%Z → (cmp b c ≤ 0)%Z → (cmp a c < 0)%Z.
Proof.
  intros Hab Hbc. destruct (decide (cmp a c < 0)%Z) as [|Hn]; [done|].
  exfalso. assert (cmp c a ≤ 0)%Z as Hca by (apply cmp_ge_flip; lia).
  pose proof (cmp_trans b c a Hbc Hca) as Hba.
  apply cmp_ge_flip in Hba. lia.
Qed.

Lemma from_ge key l :
  sorted l → Forall (λ e, ¬ key_lt cmp key e) (from key l).
Proof.
  induction 1 as [|e l Hl IH He]; simpl; [constructor|].
  case_decide as Hlt; [done|].
  constructor; [done|].
  eapply Forall_impl; [exact He|]. simpl. intros b Hb Hbk.
  apply Hlt. eapply cmp_le_lt_trans; [exact Hb | exact Hbk].
Qed.

Lemma sorted_from key l : sorted l → sorted (from key l).
Proof.
  intros Hs. rewrite <- (below_from key l) in Hs.
  by apply StronglySorted_app_1_r in Hs.
Qed.

(** Past the run of equal keys every key is strictly greater. *)
Lemma after_run_gt key l :
  sorted l → Forall (λ e, ¬ key_lt cmp key e) l →
  Forall (λ e, (0 < cmp (e_k e) key)%Z) (after_run key l).
Proof.
  induction 1 as [|e l Hl IH He]; intros Hge; simpl; [constructor|].
  apply Forall_cons in Hge as [Hge1 Hge].
  case_decide as Heq; [by apply IH|].
  unfold key_lt in Hge1.
  assert (0 < cmp (e_k e) key)%Z as Hgt by lia.
  constructor; [done|].
  eapply Forall_impl; [exact He|]. simpl. intros b Hb.
  apply cmp_gt_flip. apply cmp_gt_flip in Hgt.
  eapply cmp_lt_le_trans; [exact Hgt | exact Hb].
Qed.

(** In a sorted list the entries equal to [key] are exactly the run that
    follows the entries below it. *)
Lemma filter_eq_run key l :
  sorted l →
  filter (λ e, cmp (e_k e) key = 0%Z) l = eq_run key (from key l).
Proof.
  intros Hs.
  pose proof (after_run_gt key _ (sorted_from key l Hs) (from_ge key l Hs))
    as Hgt.
  rewrite <- (below_from key l) at 1.
  rewrite <- (eq_run_after key (from key l)) at 1.
  rewrite !filter_app.
  rewrite (filter_none _ (below key l)).
  2:{ eapply Forall_impl; [apply below_lt|]. unfold key_lt. simpl. intros; lia. }
  rewrite (filter_none _ (after_run key _)).
  2:{ eapply Forall_impl; [exact Hgt|]. simpl. intros; lia. }
  rewrite app_nil_r. simpl.
  apply filter_all, eq_run_eq.
Qed.

End Order.

End KeyOrder.

(** ** Lookup *)

Section Lookup.

Context (cmp : voidp → voidp → Z).

Implicit Types (l r pre : list entry) (e c : entry) (L : nat) (m : heap).

(** The cell that [init_prevs] reports for level [L]. *)
Lemma prev_cell hde l1 L :
  L < e_h hde →
  ∃ pre e r, hde :: l1 = pre ++ e :: r ∧ L < e_h e ∧ low L r ∧
             last_at L (e_ptr hde) l1 = e_ptr e.
Proof.
  intros HL.
  destruct (last_at_cases L SENTINEL (hde :: l1))
    as [[Hlow _]|(pre & e & r & Heq & He & Hr & Hlast)].
  - apply Forall_cons in Hlow as [Hh _]. lia.
  - exists pre, e, r. repeat split; try done.
    rewrite <- Hlast. simpl. by rewrite decide_True.
Qed.

Lemma get_next_prev m hde l l1 l2 L :
  skl m hde l → l = l1 ++ l2 → L < e_h hde →
  get_next m (last_at L (e_ptr hde) l1) L = Some (first_at L l2).
Proof.
  intros Hs -> HL.
  destruct (prev_cell hde l1 L HL) as (pre & e & r & Heq & He & Hr & ->).
  rewrite (get_next_at m hde (l1 ++ l2) pre e (r ++ l2)); [|done| |done].
  - by rewrite first_at_app_low.
  - rewrite app_comm_cons, Heq. list_assoc.
Qed.

Lemma first_at_0 l :
  Forall (λ e, 1 ≤ e_h e) l →
  first_at 0 l = match l with [] => SENTINEL | e :: _ => e_ptr e end.
Proof.
  destruct 1 as [|e l He _]; simpl; [done|]. by rewrite decide_True by lia.
Qed.

Lemma skl_pos m hde l : skl m hde l → Forall (λ e, 1 ≤ e_h e) l.
Proof.
  intros [_ _ Hh _]. eapply Forall_impl; [exact Hh|]. simpl. intros; lia.
Qed.

Lemma skl_pos_app_r m hde l1 l2 :
  skl m hde (l1 ++ l2) → Forall (λ e, 1 ≤ e_h e) l2.
Proof. intros Hs. apply skl_pos in Hs. by apply Forall_app in Hs as [_ ?]. Qed.

(** The lookup loop computes what the locator computes, and answers from the
    level-0 successor of its slot 0. *)
Lemma get_first_eq_node_loop_prevs fuel m key cur lvl prevs :
  0 < length prevs →
  get_first_eq_node_loop cmp fuel m key cur lvl =
  (ps ← init_prevs_loop cmp fuel m key cur lvl prevs;
   p ← ps !! 0;
   nxt ← get_next m p 0;
   res ← cmp_next cmp m 1 nxt key;
   Some (if decide (res = 0)%Z then Some nxt else None)).
Proof.
  revert cur lvl prevs.
  induction fuel as [|fuel IH]; intros cur lvl prevs Hlen; simpl; [done|].
  destruct (get_next m cur lvl) as [nxt|] eqn:Hnx; simpl; [|done].
  destruct (cmp_next cmp m 1 nxt key) as [res|] eqn:Hres; simpl; [|done].
  case_decide as Hlt; [by apply IH|].
  destruct lvl as [|lvl'].
  - simpl. rewrite list_lookup_insert_eq by done. simpl.
    rewrite Hnx. simpl. rewrite Hres. done.
  - apply IH. by rewrite length_insert.
Qed.

(** What a lookup of [key] finds in a list: the first entry that is not
    below the key, when it compares equal. *)
Definition lookup_entry (key : voidp) (l : list entry) : option entry :=
  match from cmp key l with
  | e :: _ => if decide (cmp (e_k e) key = 0)%Z then Some e else None
  | [] => None
  end.

Lemma get_first_eq_node_spec sl m hde l key :
  head sl = e_ptr hde → skl m hde l → sorted cmp l → three_way cmp →
  get_first_eq_node cmp sl m key = Some (e_ptr <$> lookup_entry key l).
Proof.
  intros Hhd Hs Hsorted Hcmp. unfold get_first_eq_node. rewrite Hhd.
  rewrite (deref_at m hde l [] hde l Hs eq_refl). simpl.
  pose proof (init_prevs_spec cmp m hde l key (below cmp key l) (from cmp key l)
                Hs (eq_sym (below_from cmp key l)) (below_lt cmp key l)
                (from_ge cmp Hcmp key l Hsorted)) as Hip.
  unfold init_prevs in Hip.
  destruct (e_h hde) as [|lvl] eqn:Hh; [destruct Hs; lia|].
  rewrite (get_first_eq_node_loop_prevs _ _ _ _ _ (replicate (S lvl) SENTINEL))
    by (rewrite length_replicate; lia).
  rewrite Hip. simpl.
  rewrite (get_next_prev m hde l _ (from cmp key l));
    [|done|by rewrite below_from|lia].
  simpl.
  assert (Hpos : Forall (λ e, 1 ≤ e_h e) (from cmp key l)).
  { apply (skl_pos_app_r m hde (below cmp key l)). by rewrite below_from. }
  rewrite first_at_0 by done. unfold lookup_entry.
  destruct (from cmp key l) as [|e r] eqn:Hfrom; simpl; [done|].
  erewrite (cmp_next_at cmp m hde l (hde :: below cmp key l) e r); [|done|].
  - simpl. by case_decide.
  - rewrite <- (below_from cmp key l) at 1. rewrite Hfrom. list_assoc.
Qed.

Lemma lookup_entry_in key l e : lookup_entry key l = Some e → e ∈ l.
Proof.
  unfold lookup_entry. destruct (from cmp key l) as [|x r] eqn:Hfrom; [done|].
  case_decide; [|done]. intros [= ->].
  rewrite <- (below_from cmp key l), Hfrom. apply elem_of_app. right. left.
Qed.

Lemma skl_deref_in m hde l e :
  skl m hde l → e ∈ l → ∃ r, deref m (e_ptr e) = Some (node_of e r).
Proof.
  intros Hs (pre & r & ->)%list_elem_of_split. exists r.
  eapply (deref_at m hde _ (hde :: pre) e r); [exact Hs | list_assoc].
Qed.

Lemma skiplist_get_spec sl m hde l key value :
  head sl = e_ptr hde → skl m hde l → sorted cmp l → three_way cmp →
  skiplist_get cmp sl m key value =
  Some (match lookup_entry key l with
        | Some e => (true, store_out value (e_v e))
        | None => (false, value)
        end).
Proof.
  intros Hhd Hs Hsorted Hcmp. unfold skiplist_get.
  rewrite (get_first_eq_node_spec sl m hde l key) by done. simpl.
  destruct (lookup_entry key l) as [e|] eqn:Hlk; simpl; [|done].
  destruct (skl_deref_in m hde l e Hs (lookup_entry_in _ _ _ Hlk)) as [r Hr].
  simpl in Hr. by rewrite Hr.
Qed.

End Lookup.

(** ** Relinking the predecessors, one level at a time *)

(** Every mutation rewrites, level by level, the forward pointer of the last
    cell before the position it works at. While such a loop runs, the cells
    before the position ([hde :: l1]) point, at the levels already done,
    past the new continuation [sB] and, at the others, past the old one
    [sA]. Levels from [top] up count as done from the start. *)
Section Relink.

Context (hde : entry) (l1 sA sB : list entry) (top : nat).

Implicit Types (l r pre : list entry) (e c : entry) (L j : nat) (m : heap).

Definition mixed_nexts (j : nat) (h : nat) (r : list entry) : list node_ptr :=
  (λ L, if decide (L < j ∨ top ≤ L)
        then first_at L (r ++ sB) else first_at L (r ++ sA)) <$> seq 0 h.

Definition mixed_node (j : nat) (e : entry) (r : list entry) : skiplist_node :=
  mk_node (e_h e) (e_k e) (e_v e) (mixed_nexts j (e_h e) r).

Definition prefix_mix (j : nat) (m : heap) : Prop :=
  ∀ pre e r, hde :: l1 = pre ++ e :: r →
             m !! e_addr e = Some (mixed_node j e r).

Lemma mixed_nexts_length j h r : length (mixed_nexts j h r) = h.
Proof. unfold mixed_nexts. by rewrite length_fmap, length_seq. Qed.

Lemma insert_fmap_seq (f : nat → node_ptr) h j q :
  <[j := q]> (f <$> seq 0 h) =
  (λ L, if decide (L = j) then q else f L) <$> seq 0 h.
Proof.
  apply list_eq. intros i. rewrite list_lookup_fmap.
  destruct (decide (i < h)) as [Hi|Hi].
  - rewrite lookup_seq_lt by done. simpl.
    destruct (decide (i = j)) as [->|Hne].
    + rewrite list_lookup_insert_eq; [done|].
      by rewrite length_fmap, length_seq.
    + rewrite list_lookup_insert_ne by done.
      rewrite list_lookup_fmap, lookup_seq_lt by done. done.
  - rewrite lookup_seq_ge by lia. simpl. apply lookup_ge_None_2.
    rewrite length_insert, length_fmap, length_seq. lia.
Qed.

Lemma prefix_mix_frame j m m' :
  (∀ e, e ∈ hde :: l1 → m' !! e_addr e = m !! e_addr e) →
  prefix_mix j m → prefix_mix j m'.
Proof.
  intros Hf H pre e r Heq. rewrite Hf; [by apply (H pre e r)|].
  rewrite Heq. apply elem_of_app. right. left.
Qed.

(** One round: the slot [j] of the last cell of level [j] is redirected to
    the first cell of the new continuation. *)
Lemma relink_step m j :
  NoDup (e_addr <$> hde :: l1) → j < e_h hde → j < top →
  prefix_mix j m →
  ∃ m', set_next m (last_at j (e_ptr hde) l1) j (first_at j sB) = Some m' ∧
        prefix_mix (S j) m' ∧
        (∀ a, Ptr a ≠ last_at j (e_ptr hde) l1 → m' !! a = m !! a).
Proof.
  intros Hnd Hj Htop Hmix.
  destruct (prev_cell hde l1 j Hj) as (pre & e & r & Heq & He & Hr & Hlast).
  rewrite Hlast. unfold e_ptr, set_next.
  rewrite (Hmix pre e r Heq). simpl.
  rewrite mixed_nexts_length, decide_True by done.
  eexists. split; [done|]. split.
  - intros pre' e' r' Heq'.
    destruct (decide (e_addr e' = e_addr e)) as [Ha|Ha].
    + destruct (split_unique _ _ _ _ _ _ _ Hnd Heq' Heq Ha) as (-> & -> & ->).
      rewrite lookup_insert_eq. unfold mixed_node. f_equal. f_equal.
      unfold mixed_nexts. rewrite insert_fmap_seq.
      apply fmap_seq_ext. intros L HL.
      destruct (decide (L = j)) as [->|Hne].
      * rewrite decide_True by lia. by rewrite first_at_app_low.
      * apply decide_ext. lia.
    + rewrite lookup_insert_ne by done. rewrite (Hmix pre' e' r' Heq').
      unfold mixed_node. f_equal. f_equal. apply fmap_seq_ext. intros L HL.
      destruct (decide (L = j)) as [->|Hne]; [|apply decide_ext; lia].
      rewrite decide_False by lia. rewrite decide_True by lia.
      destruct (first_at_cases j r')
        as [[Hlow _]|(a & x & b & -> & Hlow & Hx & Hf)].
      * exfalso. apply Ha.
        assert (Hl : last_at j SENTINEL (hde :: l1) = e_ptr e').
        { rewrite Heq'. by apply last_at_hit. }
        simpl in Hl. rewrite decide_True in Hl by done.
        rewrite Hlast in Hl. by inversion Hl.
      * rewrite (first_at_app j _ sB), (first_at_app j _ sA), Hf. done.
  - intros a Ha. rewrite lookup_insert_ne; [done|]. congruence.
Qed.

(** When the levels not yet done make no difference, the cells before the
    position are linked past [sB]. *)
Lemma prefix_mix_done j m :
  (∀ L r, L < e_h hde → ¬ (L < j ∨ top ≤ L) →
          first_at L (r ++ sA) = first_at L (r ++ sB)) →
  Forall (λ e, e_h e ≤ e_h hde) l1 →
  prefix_mix j m → nodes_ok m (hde :: l1) sB.
Proof.
  intros Hsame Hh Hmix pre e r Heq. rewrite (Hmix pre e r Heq).
  unfold mixed_node, node_of. f_equal. f_equal.
  apply fmap_seq_ext. intros L HL.
  case_decide as Hv; [done|]. apply Hsame; [|done].
  assert (e ∈ hde :: l1) as [->|Hin]%elem_of_cons; [|done|].
  { rewrite Heq. apply elem_of_app. right. left. }
  eapply Forall_forall in Hh; [|exact Hin]. simpl in Hh. lia.
Qed.

Lemma prefix_mix_start m :
  (∀ L r, L < e_h hde → top ≤ L →
          first_at L (r ++ sA) = first_at L (r ++ sB)) →
  Forall (λ e, e_h e ≤ e_h hde) l1 →
  nodes_ok m (hde :: l1) sA → prefix_mix 0 m.
Proof.
  intros Hsame Hh Hok pre e r Heq. rewrite (Hok pre e r Heq).
  unfold mixed_node, node_of. f_equal. f_equal.
  apply fmap_seq_ext. intros L HL.
  case_decide as Hv; [|done]. apply Hsame; [|lia].
  assert (e ∈ hde :: l1) as [->|Hin]%elem_of_cons; [|done|].
  { rewrite Heq. apply elem_of_app. right. left. }
  eapply Forall_forall in Hh; [|exact Hin]. simpl in Hh. lia.
Qed.

(** A whole relinking loop over the levels [0..n). *)
Lemma relink_loop m0 n (body : nat → heap → option heap) :
  NoDup (e_addr <$> hde :: l1) → n ≤ e_h hde → n ≤ top →
  prefix_mix 0 m0 →
  (∀ j m, j < n →
     (∀ a, a ∉ e_addr <$> hde :: l1 → m !! a = m0 !! a) →
     body j m = set_next m (last_at j (e_ptr hde) l1) j (first_at j sB)) →
  ∃ m', DO n body m0 = Some m' ∧ prefix_mix n m' ∧
        (∀ a, a ∉ e_addr <$> hde :: l1 → m' !! a = m0 !! a).
Proof.
  intros Hnd Hn Htop H0 Hbody.
  apply (DO_inv (λ j m, prefix_mix j m ∧
                        ∀ a, a ∉ e_addr <$> hde :: l1 → m !! a = m0 !! a)).
  - done.
  - intros j m Hj [Hmix Hfr]. rewrite Hbody by done.
    destruct (relink_step m j Hnd) as (m' & -> & Hmix' & Hfr');
      [lia | lia | done |].
    exists m'. split; [done|]. split; [done|].
    intros a Ha. rewrite Hfr'; [by apply Hfr|].
    intros Heq. apply Ha.
    destruct (prev_cell hde l1 j) as (pre & e & r & Hsp & _ & _ & Hlast);
      [lia|].
    rewrite Hlast in Heq. inversion Heq; subst.
    apply (list_elem_of_fmap_2 e_addr). rewrite Hsp.
    apply elem_of_app. right. left.
Qed.

End Relink.

(** ** Deleting one entry *)

Arguments set_next : simpl never.
Arguments node_free : simpl never.

Lemma node_free_at (m : heap) e n :
  m !! e_addr e = Some n → node_free m (e_ptr e) = Some (delete (e_addr e) m).
Proof. intros H. unfold node_free, e_ptr. by rewrite H. Qed.

Section Delete.

Context (cmp : voidp → voidp → Z).

Implicit Types (l r pre : list entry) (e c d : entry) (L j : nat) (m : heap).

(** The array that [init_prevs] fills for [key]. *)
Definition prevs_of (hde : entry) (key : voidp) (l : list entry)
  : list node_ptr :=
  (λ L, last_at L (e_ptr hde) (below cmp key l)) <$> seq 0 (e_h hde).

Lemma prevs_of_lookup hde key l j :
  j < e_h hde →
  prevs_of hde key l !! j = Some (last_at j (e_ptr hde) (below cmp key l)).
Proof.
  intros Hj. unfold prevs_of. rewrite list_lookup_fmap.
  by rewrite lookup_seq_lt.
Qed.

(** The common prologue of the mutations: read the head's height, locate
    the predecessors. *)
Lemma locate sl m hde l key :
  head sl = e_ptr hde → skl m hde l → sorted cmp l → three_way cmp →
  deref m (head sl) = Some (node_of hde l) ∧
  init_prevs cmp m key (head sl) (e_h hde) = Some (prevs_of hde key l).
Proof.
  intros Hhd Hs Hsorted Hcmp. rewrite Hhd. split.
  - by apply (deref_at m hde l [] hde l).
  - apply (init_prevs_spec cmp m hde l key (below cmp key l) (from cmp key l)).
    + done.
    + by rewrite below_from.
    + apply below_lt.
    + by apply from_ge.
Qed.

(** The level-0 successor of slot 0 is the first entry not below the key. *)
Lemma successor0 m hde l key :
  skl m hde l →
  get_next m (last_at 0 (e_ptr hde) (below cmp key l)) 0 =
  Some (match from cmp key l with [] => SENTINEL | e :: _ => e_ptr e end).
Proof.
  intros Hs.
  rewrite (get_next_prev m hde l _ (from cmp key l));
    [|done|by rewrite below_from|destruct Hs; lia].
  rewrite first_at_0; [done|].
  apply (skl_pos_app_r m hde (below cmp key l)). by rewrite below_from.
Qed.

Lemma skl_split m hde l key :
  skl m hde l → hde :: l = (hde :: below cmp key l) ++ from cmp key l.
Proof. intros _. simpl. by rewrite below_from. Qed.

Lemma addr_not_in_prefix hde l1 d l2 :
  NoDup (e_addr <$> hde :: l1 ++ d :: l2) →
  e_addr d ∉ e_addr <$> hde :: l1.
Proof.
  rewrite app_comm_cons, fmap_app, fmap_cons.
  intros Hnd%NoDup_app. destruct Hnd as (_ & Hd & _).
  intros Hin. apply (Hd _ Hin). left.
Qed.

Lemma addr_not_in_suffix hde l1 d l2 :
  NoDup (e_addr <$> hde :: l1 ++ d :: l2) →
  e_addr d ∉ e_addr <$> l2.
Proof.
  rewrite app_comm_cons, fmap_app, fmap_cons.
  intros Hnd%NoDup_app. destruct Hnd as (_ & _ & Hnd).
  by apply NoDup_cons in Hnd as [? _].
Qed.

Lemma nodup_remove hde l1 d l2 :
  NoDup (e_addr <$> hde :: l1 ++ d :: l2) →
  NoDup (e_addr <$> hde :: l1 ++ l2).
Proof.
  rewrite !app_comm_cons, !fmap_app, fmap_cons.
  intros Hnd%NoDup_app. destruct Hnd as (H1 & Hd & Hnd).
  apply NoDup_cons in Hnd as [_ H2].
  apply NoDup_app. split; [done|]. split; [|done].
  intros a Ha Ha2. apply (Hd a Ha). by right.
Qed.

Lemma nodes_ok_delete m l suf a :
  a ∉ e_addr <$> l → nodes_ok m l suf → nodes_ok (delete a m) l suf.
Proof.
  intros Ha. apply nodes_ok_frame. intros e He.
  rewrite lookup_delete_ne; [done|]. intros ->. apply Ha.
  by apply (list_elem_of_fmap_2 e_addr).
Qed.

(** Not found: nothing changes, with or without a disposal callback. *)
Lemma delete_absent_spec {U} sl m hde l key (cb : option (skiplist_free_cb U))
    (udata : U) old :
  head sl = e_ptr hde → skl m hde l → sorted cmp l → three_way cmp →
  lookup_entry cmp key l = None →
  delete_one_or_all cmp sl m key cb udata old = Some (false, sl, m, udata, old).
Proof.
  intros Hhd Hs Hsorted Hcmp Hlk. unfold delete_one_or_all.
  destruct (locate sl m hde l key Hhd Hs Hsorted Hcmp) as [-> Hip].
  simpl. rewrite Hip. simpl.
  rewrite prevs_of_lookup by (destruct Hs; lia). simpl.
  rewrite successor0 by done. simpl.
  unfold lookup_entry in Hlk.
  destruct (from cmp key l) as [|d l2] eqn:Hfrom; simpl.
  - done.
  - erewrite (cmp_next_at cmp m hde l (hde :: below cmp key l) d l2);
      [|done|by rewrite (skl_split m hde l key Hs), Hfrom].
    simpl. simpl in Hlk.
    destruct (decide (cmp (e_k d) key = 0%Z)) as [Heq|Heq]; [done|].
    by rewrite decide_True.
Qed.

(** Unlinking the cell [d] that follows [l1]: a loop that redirects, at each
    level of [d], the last cell before it to what follows it, then the
    release of [d]. *)
Lemma unlink m hde l1 d l2 (body : nat → heap → option heap) :
  skl m hde (l1 ++ d :: l2) →
  (∀ j m0, j < e_h d →
     (∀ a, a ∉ e_addr <$> hde :: l1 → m0 !! a = m !! a) →
     body j m0 = set_next m0 (last_at j (e_ptr hde) l1) j (first_at j l2)) →
  ∃ m1, DO (e_h d) body m = Some m1 ∧
        m1 !! e_addr d = Some (node_of d l2) ∧
        skl (delete (e_addr d) m1) hde (l1 ++ l2) ∧
        (∀ a, a ∉ e_addr <$> hde :: l1 → m1 !! a = m !! a).
Proof.
  intros Hs Hbody.
  assert (Hfull : hde :: l1 ++ d :: l2 = (hde :: l1) ++ d :: l2) by done.
  pose proof (skl_at m hde _ _ d l2 Hs Hfull) as Hd.
  destruct Hs as [Hnodes Hnd Hheights Hhh].
  assert (Hdh : e_h d ≤ e_h hde).
  { apply Forall_app in Hheights as [_ Hh].
    apply Forall_cons in Hh as [? _]. lia. }
  assert (Hl1h : Forall (λ e, e_h e ≤ e_h hde) l1).
  { apply Forall_app in Hheights as [Hh _].
    eapply Forall_impl; [exact Hh|]. simpl. intros; lia. }
  assert (Hnd1 : NoDup (e_addr <$> hde :: l1)).
  { rewrite app_comm_cons, fmap_app in Hnd.
    by apply NoDup_app in Hnd as [? _]. }
  pose proof (addr_not_in_prefix _ _ _ _ Hnd) as Hdp.
  pose proof (addr_not_in_suffix _ _ _ _ Hnd) as Hds.
  pose proof Hnodes as Hnodes'. rewrite Hfull in Hnodes'.
  apply nodes_ok_app in Hnodes' as [Hpre Hsuf]. rewrite app_nil_r in Hpre.
  destruct (relink_loop hde l1 (d :: l2) l2 (e_h hde) m (e_h d) body)
    as (m1 & -> & Hmix & Hfr); [done | done | lia | | done |].
  { apply prefix_mix_start; [intros; lia | done | done]. }
  exists m1. split; [done|]. split; [by rewrite Hfr|]. split; [|done].
  assert (Hok1 : nodes_ok m1 (hde :: l1) l2).
  { apply (prefix_mix_done hde l1 (d :: l2) l2 (e_h hde) (e_h d)); [|done|done].
    intros L r HL Hv. rewrite !first_at_app. simpl.
    rewrite decide_False by lia. done. }
  apply nodes_ok_cons in Hsuf as [_ Hsuf].
  split.
  - rewrite app_comm_cons. apply nodes_ok_app. split.
    + rewrite app_nil_r. by apply nodes_ok_delete.
    + apply nodes_ok_delete; [done|].
      eapply nodes_ok_frame; [|exact Hsuf].
      intros e He. apply Hfr.
      rewrite app_comm_cons, fmap_app, fmap_cons in Hnd.
      apply NoDup_app in Hnd as (_ & Hdis & _).
      intros Hin. apply (Hdis _ Hin). right.
      by apply (list_elem_of_fmap_2 e_addr).
  - by eapply nodup_remove.
  - apply Forall_app in Hheights as [H1 H2].
    apply Forall_cons in H2 as [_ H2]. by apply Forall_app.
  - done.
Qed.

(** What stays of the heap when an entry is removed. *)
Lemma remove_frame (m m1 : heap) hde l1 d l2 :
  (∀ a, a ∉ e_addr <$> hde :: l1 → m1 !! a = m !! a) →
  ∀ a, a ∉ e_addr <$> hde :: l1 ++ d :: l2 →
       delete (e_addr d) m1 !! a = m !! a.
Proof.
  intros Hfr a Ha. rewrite app_comm_cons, fmap_app, fmap_cons in Ha.
  rewrite lookup_delete_ne.
  - apply Hfr. intros Hin. apply Ha. apply elem_of_app. by left.
  - intros <-. apply Ha. apply elem_of_app. right. left.
Qed.

(** Found, no callback: the first entry equal to the key is unlinked at
    each of its levels and freed. *)
Lemma delete_one_spec {U} sl m hde l key (udata : U) old d l2 :
  head sl = e_ptr hde → skl m hde l → sorted cmp l → three_way cmp →
  from cmp key l = d :: l2 → cmp (e_k d) key = 0%Z →
  ∃ m', delete_one_or_all cmp sl m key None udata old =
          Some (true, mk_skiplist (size_t (count sl - 1)) (head sl), m',
                udata, store_out old (e_v d)) ∧
        skl m' hde (below cmp key l ++ l2) ∧
        (∀ a, a ∉ e_addr <$> hde :: l → m' !! a = m !! a) ∧
        m' !! e_addr d = None.
Proof.
  intros Hhd Hs Hsorted Hcmp Hfrom Heq. unfold delete_one_or_all.
  destruct (locate sl m hde l key Hhd Hs Hsorted Hcmp) as [-> Hip].
  simpl. rewrite Hip. simpl.
  rewrite prevs_of_lookup by (destruct Hs; lia). simpl.
  rewrite successor0 by done. rewrite Hfrom. simpl.
  assert (Hl : l = below cmp key l ++ d :: l2)
    by (by rewrite <- Hfrom, below_from).
  assert (Hfull : hde :: l = (hde :: below cmp key l) ++ d :: l2)
    by (simpl; f_equal; exact Hl).
  rewrite (cmp_next_at cmp m hde l _ d l2 1%Z key Hs Hfull).
  simpl. rewrite decide_False by lia.
  pose proof (skl_at m hde l _ d l2 Hs Hfull) as Hd.
  rewrite Hd. simpl.
  assert (Hdh : e_h d ≤ e_h hde).
  { destruct Hs as [_ _ Hh _]. rewrite Hl in Hh.
    apply Forall_app in Hh as [_ Hh]. apply Forall_cons in Hh as [? _]. lia. }
  pose proof Hs as Hs'. rewrite Hl in Hs'.
  destruct (unlink m hde (below cmp key l) d l2
              (λ i m0, p ← prevs_of hde key l !! i;
                       x ← get_next m0 (e_ptr d) i; set_next m0 p i x) Hs')
    as (m1 & -> & Hd1 & Hs1 & Hfr).
  { intros j m0 Hj Hfr0. rewrite prevs_of_lookup by lia. simpl.
    unfold get_next. simpl. rewrite Hfr0.
    - rewrite Hd. simpl. rewrite nexts_of_lookup by done. done.
    - destruct Hs' as [_ Hnd _ _]. by eapply addr_not_in_prefix. }
  simpl. rewrite Hd1. simpl. rewrite (node_free_at _ _ _ Hd1). simpl.
  eexists. split; [done|]. split; [done|]. split.
  - intros a Ha.
    apply (remove_frame m m1 hde (below cmp key l) d l2 Hfr).
    by rewrite <- Hl.
  - apply lookup_delete_eq.
Qed.

(** ** Popping the first entry *)

Lemma pop_first_empty_spec sl m hde key value :
  head sl = e_ptr hde → skl m hde [] →
  skiplist_pop_first sl m key value = Some (false, sl, m, key, value).
Proof.
  intros Hhd Hs. unfold skiplist_pop_first. rewrite Hhd.
  rewrite (get_next_at m hde [] [] hde [] 0 Hs eq_refl)
    by (destruct Hs; lia).
  done.
Qed.

Lemma pop_first_spec sl m hde f l key value :
  head sl = e_ptr hde → skl m hde (f :: l) →
  ∃ m', skiplist_pop_first sl m key value =
          Some (true, mk_skiplist (size_t (count sl - 1)) (head sl), m',
                store_out key (e_k f), store_out value (e_v f)) ∧
        skl m' hde l ∧
        (∀ a, a ∉ e_addr <$> hde :: f :: l → m' !! a = m !! a) ∧
        m' !! e_addr f = None.
Proof.
  intros Hhd Hs. unfold skiplist_pop_first. rewrite Hhd.
  rewrite (get_next_at m hde (f :: l) [] hde (f :: l) 0 Hs eq_refl)
    by (destruct Hs; lia).
  rewrite first_at_0 by (by eapply skl_pos). simpl.
  pose proof (skl_at m hde (f :: l) [hde] f l Hs eq_refl) as Hf.
  rewrite Hf. simpl.
  destruct (unlink m hde [] f l
              (λ i m0, x ← get_next m0 (e_ptr f) i;
                       set_next m0 (e_ptr hde) i x) Hs)
    as (m1 & -> & Hf1 & Hs1 & Hfr).
  { intros j m0 Hj Hfr0. unfold get_next. simpl. rewrite Hfr0.
    - rewrite Hf. simpl. rewrite nexts_of_lookup by done. done.
    - destruct Hs as [_ Hnd _ _]. by apply (addr_not_in_prefix hde [] f l). }
  simpl. rewrite (node_free_at _ _ _ Hf1). simpl.
  eexists. split; [done|]. split; [done|]. split.
  - by apply (remove_frame m m1 hde [] f l).
  - apply lookup_delete_eq.
Qed.

End Delete.

(** ** Popping the last entry *)

Arguments deref : simpl never.
Arguments get_next : simpl never.

Lemma deref_entry (m : heap) e n :
  m !! e_addr e = Some n → deref m (e_ptr e) = Some n.
Proof. done. Qed.

Section PopLast.

Implicit Types (l r pre : list entry) (e c d z : entry) (L j : nat) (m : heap).

(** The loop of [skiplist_pop_last], started at a cell [c] before the last
    entry [z], with [pb] the cells between them: it ends on the cell just
    before [z], and each level that [z] takes part in gets the last cell
    before [z] at that level. *)
Lemma pop_last_loop_spec m hde l1 z :
  skl m hde (l1 ++ [z]) →
  ∀ fuel pa c pb lvl prevs,
    hde :: l1 = pa ++ c :: pb → lvl < e_h c → lvl < length prevs →
    length pb + lvl < fuel →
    ∃ res, pop_last_loop fuel m (e_ptr c) lvl prevs =
             Some (last_at 0 (e_ptr c) pb, res) ∧
           length res = length prevs ∧
           (∀ L, L ≤ lvl → L < e_h z →
                 res !! L = Some (last_at L (e_ptr c) pb)) ∧
           (∀ L, lvl < L → res !! L = prevs !! L).
Proof.
  intros Hs.
  assert (Hz : 1 ≤ e_h z).
  { apply skl_pos in Hs. apply Forall_app in Hs as [_ Hs].
    by apply Forall_cons in Hs as [? _]. }
  induction fuel as [|fuel IH]; intros pa c pb lvl prevs Hsplit Hc Hlen Hfuel;
    [lia|].
  assert (Hfull : hde :: l1 ++ [z] = pa ++ c :: (pb ++ [z])).
  { rewrite app_comm_cons, Hsplit. list_assoc. }
  simpl. rewrite (get_next_at _ _ _ _ _ _ _ Hs Hfull Hc). simpl.
  (* the two ways of stopping at this level share their continuation *)
  assert (Hstop : low lvl pb ∨ e_h z ≤ lvl →
    ∃ res,
      match lvl with
      | 0 => Some (e_ptr c, <[lvl:=e_ptr c]> prevs)
      | S lvl' => pop_last_loop fuel m (e_ptr c) lvl' (<[lvl:=e_ptr c]> prevs)
      end = Some (last_at 0 (e_ptr c) pb, res) ∧
      length res = length prevs ∧
      (∀ L, L ≤ lvl → L < e_h z → res !! L = Some (last_at L (e_ptr c) pb)) ∧
      (∀ L, lvl < L → res !! L = prevs !! L)).
  { intros Hwhy. destruct lvl as [|lvl'].
    - destruct Hwhy as [Hlow|?]; [|lia].
      rewrite last_at_low by done.
      eexists. split; [done|]. rewrite length_insert. split; [done|]. split.
      + intros L HL _. assert (L = 0) as -> by lia.
        rewrite list_lookup_insert_eq by done. by rewrite last_at_low.
      + intros L HL. by rewrite list_lookup_insert_ne by lia.
    - destruct (IH pa c pb lvl' (<[S lvl':=e_ptr c]> prevs))
        as (res & -> & Hl & Hin & Hout);
        [done | lia | rewrite length_insert; lia | lia |].
      exists res. split; [done|]. rewrite length_insert in Hl.
      split; [done|]. split.
      + intros L HL HLz. destruct (decide (L = S lvl')) as [->|Hne].
        * rewrite Hout by lia. rewrite list_lookup_insert_eq by done.
          destruct Hwhy as [Hlow|?]; [|lia]. by rewrite last_at_low.
        * apply Hin; [lia | done].
      + intros L HL. rewrite Hout by lia.
        by rewrite list_lookup_insert_ne by lia. }
  destruct (first_at_cases lvl pb)
    as [[Hlow Hs1]|(pb1 & e & pb2 & -> & Hlow & He & Hf)].
  - rewrite first_at_app_low by done. simpl.
    destruct (decide (lvl < e_h z)) as [Hlz|Hlz]; simpl.
    + assert (Hfz : hde :: l1 ++ [z] = (hde :: l1) ++ z :: []) by done.
      rewrite (get_next_at _ _ _ _ _ _ _ Hs Hfz Hlz). simpl.
      apply Hstop. by left.
    + apply Hstop. by left.
  - rewrite <- app_assoc. simpl. rewrite first_at_hit by done. simpl.
    assert (Hfe : hde :: l1 ++ [z] = (pa ++ c :: pb1) ++ e :: (pb2 ++ [z])).
    { rewrite Hfull. list_assoc. }
    rewrite (get_next_at _ _ _ _ _ _ _ Hs Hfe He). simpl.
    destruct (first_at_cases lvl (pb2 ++ [z]))
      as [[Hlow2 Hs2]|(a & x & b & Heq2 & Hlow2 & Hx & Hf2)].
    + rewrite Hs2. simpl.
      apply Forall_app in Hlow2 as [_ Hlz].
      apply Forall_cons in Hlz as [Hlz _].
      destruct (Hstop (or_intror Hlz)) as (res & Hres & Hl & Hin & Hout).
      exists res. split; [|done]. by rewrite Hres.
    + rewrite Hf2. simpl.
      destruct (IH (pa ++ c :: pb1) e pb2 lvl prevs)
        as (res & -> & Hl & Hin & Hout);
        [rewrite Hsplit; list_assoc | done | done | |].
      { rewrite length_app in Hfuel. simpl in Hfuel. lia. }
      exists res. split.
      * do 2 f_equal. rewrite last_at_app. simpl.
        by rewrite decide_True by lia.
      * split; [done|]. split; [|done].
        intros L HL HLz. rewrite Hin by done. f_equal.
        rewrite last_at_app. simpl. by rewrite decide_True by lia.
Qed.

Lemma pop_last_zero_spec sl m hde l key value :
  head sl = e_ptr hde → skl m hde l → count sl = 0%Z →
  skiplist_pop_last sl m key value = Some (false, sl, m, key, value).
Proof.
  intros Hhd Hs Hc. unfold skiplist_pop_last. rewrite Hhd.
  rewrite (deref_at m hde l [] hde l Hs eq_refl). simpl.
  destruct (e_h hde) eqn:Hh; [destruct Hs; lia|].
  by rewrite decide_True.
Qed.

Lemma pop_last_spec sl m hde l1 z key value :
  head sl = e_ptr hde → skl m hde (l1 ++ [z]) → count sl ≠ 0%Z →
  ∃ m', skiplist_pop_last sl m key value =
          Some (true, mk_skiplist (size_t (count sl - 1)) (head sl), m',
                store_out key (e_k z), store_out value (e_v z)) ∧
        skl m' hde l1 ∧
        (∀ a, a ∉ e_addr <$> hde :: l1 ++ [z] → m' !! a = m !! a) ∧
        m' !! e_addr z = None.
Proof.
  intros Hhd Hs Hc. unfold skiplist_pop_last. rewrite Hhd.
  rewrite (deref_at m hde _ [] hde _ Hs eq_refl). simpl.
  destruct (e_h hde) as [|lvl] eqn:Hh; [destruct Hs; lia|].
  rewrite decide_False by done.
  destruct (pop_last_loop_spec m hde l1 z Hs (size m + S lvl) [] hde l1 lvl
              (replicate (S lvl) SENTINEL))
    as (prevs & -> & Hlen & Hin & _).
  { done. }
  { lia. }
  { rewrite length_replicate. lia. }
  { pose proof (skl_size _ _ _ Hs) as Hsz.
    rewrite length_app in Hsz. simpl in Hsz. lia. }
  simpl.
  rewrite (get_next_prev m hde (l1 ++ [z]) l1 [z] 0 Hs eq_refl) by lia.
  simpl.
  assert (Hzpos : 1 ≤ e_h z ≤ e_h hde).
  { destruct Hs as [_ _ Hh' _]. apply Forall_app in Hh' as [_ Hh'].
    by apply Forall_cons in Hh' as [? _]. }
  rewrite decide_True by lia.
  pose proof (skl_at m hde _ (hde :: l1) z [] Hs eq_refl) as Hzn.
  rewrite (deref_entry _ _ _ Hzn). simpl.
  destruct (unlink m hde l1 z []
              (λ i m0, p ← prevs !! i; set_next m0 p i SENTINEL) Hs)
    as (m1 & -> & Hz1 & Hs1 & Hfr).
  { intros j m0 Hj Hfr0. rewrite Hin by lia. done. }
  simpl. rewrite (deref_entry _ _ _ Hz1). simpl.
  rewrite (node_free_at _ _ _ Hz1). simpl.
  rewrite app_nil_r in Hs1.
  eexists. split; [done|]. split; [done|]. split.
  - by apply (remove_frame m m1 hde l1 z []).
  - apply lookup_delete_eq.
Qed.

End PopLast.

(** ** Clearing *)

Section Clear.

Context {U : Type}.

Implicit Types (l r pre : list entry) (e c d z : entry) (L j : nat) (m : heap).

(** The heap once the cells of [r] are released. *)
Definition release (r : list entry) (m : heap) : heap :=
  fold_left (λ m e, delete (e_addr e) m) r m.

(** The callback state once the callback has seen the pairs of [r]. *)
Definition dispose (cb : option (skiplist_free_cb U)) (r : list entry)
    (udata : U) : U :=
  fold_left (λ u e, match cb with
                    | Some f => f (e_k e) (e_v e) u
                    | None => u
                    end) r udata.

Lemma release_lookup_ne r m a :
  a ∉ e_addr <$> r → release r m !! a = m !! a.
Proof.
  revert m. induction r as [|e r IH]; intros m Ha; simpl; [done|].
  rewrite fmap_cons in Ha. apply not_elem_of_cons in Ha as [Hne Ha].
  rewrite IH by done. by rewrite lookup_delete_ne.
Qed.

Lemma release_lookup_in r m a :
  a ∈ e_addr <$> r → release r m !! a = None.
Proof.
  revert m. induction r as [|e r IH]; intros m Ha; simpl.
  - by apply elem_of_nil in Ha.
  - rewrite fmap_cons in Ha.
    destruct (decide (a ∈ e_addr <$> r)) as [Hin|Hnin]; [by apply IH|].
    apply elem_of_cons in Ha as [->|Ha]; [|done].
    rewrite release_lookup_ne by done. apply lookup_delete_eq.
Qed.

Lemma size_t_succ (c : Z) : size_t (size_t c + 1) = size_t (c + 1).
Proof. unfold size_t. by rewrite Zplus_mod_idemp_l. Qed.

Lemma clear_loop_spec cb r :
  ∀ m udata (ct : Z) fuel,
    nodes_ok m r [] → Forall (λ e, 1 ≤ e_h e) r → NoDup (e_addr <$> r) →
    length r < fuel →
    clear_loop fuel m (first_at 0 r) cb udata (size_t ct) =
    Some (release r m, dispose cb r udata,
          size_t (ct + Z.of_nat (length r))).
Proof.
  induction r as [|e r IH]; intros m udata ct fuel Hok Hpos Hnd Hfuel;
    (destruct fuel as [|fuel]; [simpl in Hfuel; lia|]).
  - simpl. by rewrite Z.add_0_r.
  - apply nodes_ok_cons in Hok as [He Hok]. rewrite app_nil_r in He.
    apply Forall_cons in Hpos as [Hpe Hpos].
    rewrite fmap_cons in Hnd. apply NoDup_cons in Hnd as [Hni Hnd].
    simpl first_at. rewrite decide_True by lia.
    simpl clear_loop. rewrite (deref_entry _ _ _ He). simpl.
    unfold get_next. rewrite (deref_entry _ _ _ He). simpl.
    rewrite nexts_of_lookup by lia. simpl.
    rewrite (node_free_at _ _ _ He). simpl.
    rewrite size_t_succ.
    rewrite (IH (delete (e_addr e) m) _ (ct + 1)%Z fuel).
    + do 3 f_equal. lia.
    + by apply nodes_ok_delete.
    + done.
    + done.
    + simpl in Hfuel. lia.
Qed.

(** [skiplist_clear] releases every stored cell and resets the head's
    forward pointers; the container fields, [count] among them, are not
    written. *)
Lemma skiplist_clear_spec sl m hde l cb (udata : U) :
  head sl = e_ptr hde → skl m hde l →
  ∃ m', skiplist_clear sl m cb udata =
          Some (size_t (Z.of_nat (length l)), sl, m', dispose cb l udata) ∧
        skl m' hde [] ∧
        (∀ a, a ∉ e_addr <$> hde :: l → m' !! a = m !! a).
Proof.
  intros Hhd Hs. unfold skiplist_clear. rewrite Hhd.
  rewrite (get_next_at m hde l [] hde l 0 Hs eq_refl) by (destruct Hs; lia).
  cbn -[clear_loop size_t].
  pose proof (skl_size _ _ _ Hs) as Hsz.
  destruct Hs as [Hnodes Hnd Hheights Hhh].
  apply nodes_ok_cons in Hnodes as [Hh Hnodes]. rewrite app_nil_r in Hh.
  rewrite fmap_cons in Hnd. apply NoDup_cons in Hnd as [Hni Hnd].
  change 0%Z with (size_t 0).
  rewrite (clear_loop_spec cb l m udata 0 (S (size m))); [|done| |done|lia].
  2:{ eapply Forall_impl; [exact Hheights|]. simpl. intros; lia. }
  simpl.
  assert (Hh' : release l m !! e_addr hde = Some (node_of hde l)).
  { by rewrite release_lookup_ne. }
  rewrite (deref_entry _ _ _ Hh'). simpl.
  destruct (relink_loop hde [] l [] (e_h hde) (release l m) (e_h hde)
              (λ i m0, set_next m0 (e_ptr hde) i SENTINEL))
    as (m1 & -> & Hmix & Hfr).
  - rewrite fmap_cons. apply NoDup_cons. split; [apply not_elem_of_nil|].
    apply NoDup_nil_2.
  - done.
  - done.
  - apply prefix_mix_start; [intros; lia | constructor |].
    apply nodes_ok_cons. split; [done | apply nodes_ok_nil].
  - done.
  - simpl. exists m1. split; [done|]. split.
    + split.
      * apply (prefix_mix_done hde [] l [] (e_h hde) (e_h hde));
          [intros; lia | constructor | done].
      * rewrite fmap_cons. apply NoDup_cons.
        split; [apply not_elem_of_nil | apply NoDup_nil_2].
      * constructor.
      * done.
    + intros a Ha. change (a ∉ e_addr hde :: (e_addr <$> l)) in Ha.
      apply not_elem_of_cons in Ha as [Hne Ha].
      rewrite Hfr; [by apply release_lookup_ne|].
      rewrite fmap_cons. apply not_elem_of_cons. split; [done|].
      apply not_elem_of_nil.
Qed.

End Clear.

(** ** Deleting every entry equal to a key *)

(** Reduce the binds of the option monad and the projections of a known
    cell, and nothing else. *)
Ltac obind :=
  cbn [mbind option_bind node_h node_k node_v node_next node_of
       count head fst snd].

Lemma get_next_entry (m : heap) e rest L :
  m !! e_addr e = Some (node_of e rest) → L < e_h e →
  get_next m (e_ptr e) L = Some (first_at L rest).
Proof.
  intros He HL. unfold get_next. rewrite (deref_entry _ _ _ He). obind.
  by apply nexts_of_lookup.
Qed.

Lemma cmp_next_entry cmp (m : heap) e n dflt key :
  m !! e_addr e = Some n →
  cmp_next cmp m dflt (e_ptr e) key = Some (cmp (node_k n) key).
Proof.
  intros He. unfold cmp_next, e_ptr, deref. simpl. by rewrite He.
Qed.

Section DeleteAll.

Context (cmp : voidp → voidp → Z) {U : Type}.

Implicit Types (l r pre : list entry) (e c d z : entry) (L j : nat) (m : heap).

(** The tallest height seen so far, after the cells of [r]. *)
Definition tallest (tdh : nat) (r : list entry) : nat :=
  fold_left (λ t e, if decide (e_h e < t) then t else e_h e) r tdh.

(** [count] after one decrement per cell of [r]. *)
Definition decrements (cnt : Z) (r : list entry) : Z :=
  fold_left (λ n _, size_t (n - 1)) r cnt.

(** The callback state after the disposal of the cells of [r], each time
    with the caller's [key]. *)
Definition dispose_key (cb : skiplist_free_cb U) (key : voidp)
    (r : list entry) (udata : U) : U :=
  fold_left (λ u e, cb key (e_v e) u) r udata.

Lemma tallest_ge tdh r : tdh ≤ tallest tdh r.
Proof.
  revert tdh. induction r as [|e r IH]; intros tdh; simpl; [done|].
  etransitivity; [|apply IH]. case_decide; lia.
Qed.

Lemma tallest_low tdh r : low (tallest tdh r) r.
Proof.
  revert tdh. induction r as [|e r IH]; intros tdh; simpl; [constructor|].
  constructor; [|apply IH].
  etransitivity; [|apply tallest_ge]. case_decide; lia.
Qed.

Lemma tallest_le tdh r h :
  tdh ≤ h → Forall (λ e, e_h e ≤ h) r → tallest tdh r ≤ h.
Proof.
  revert tdh. induction r as [|e r IH]; intros tdh Ht Hr; simpl; [done|].
  apply Forall_cons in Hr as [He Hr]. apply IH; [|done]. case_decide; lia.
Qed.

Lemma decrements_length (cnt : Z) r :
  (Z.of_nat (length r) ≤ cnt < SIZE_MAX1)%Z →
  decrements cnt r = (cnt - Z.of_nat (length r))%Z.
Proof.
  revert cnt. induction r as [|e r IH]; intros cnt Hc; simpl in *; [lia|].
  rewrite IH.
  - unfold size_t. rewrite Z.mod_small by lia. lia.
  - unfold size_t. rewrite Z.mod_small by lia. lia.
Qed.

(** Copying the forward pointers of a doomed cell into [nexts]. *)
Lemma nexts_capture m d rest hh (f : nat → node_ptr) :
  m !! e_addr d = Some (node_of d rest) → e_h d ≤ hh →
  DO (e_h d)
     (λ i ns, x ← get_next m (e_ptr d) i;
              if decide (i < length ns) then Some (<[i := x]> ns) else None)
     (f <$> seq 0 hh) =
  Some ((λ i, if decide (i < e_h d) then first_at i rest else f i)
          <$> seq 0 hh).
Proof.
  intros Hd Hh.
  destruct (DO_inv
    (λ j ns, ns = (λ i, if decide (i < j) then first_at i rest else f i)
                    <$> seq 0 hh)
    (λ i ns, x ← get_next m (e_ptr d) i;
             if decide (i < length ns) then Some (<[i := x]> ns) else None)
    (e_h d) (f <$> seq 0 hh)) as (ns & -> & ->); [| |done].
  - apply fmap_seq_ext. intros L HL. by rewrite decide_False by lia.
  - intros j ns Hj ->. unfold get_next. rewrite (deref_entry _ _ _ Hd).
    simpl. rewrite nexts_of_lookup by done. simpl.
    rewrite length_fmap, length_seq, decide_True by lia.
    eexists. split; [done|]. rewrite insert_fmap_seq.
    apply fmap_seq_ext. intros L HL.
    destruct (decide (L = j)) as [->|Hne].
    + by rewrite decide_True by lia.
    + apply decide_ext. lia.
Qed.

Lemma delete_all_loop_S fuel sl m key (cb : skiplist_free_cb U) udata
    doomed tdh nexts :
  delete_all_loop cmp (S fuel) sl m key cb udata doomed tdh nexts =
  (nxt ← get_next m doomed 0;
   dn ← deref m doomed;
   let tdh := if decide (node_h dn < tdh) then tdh else node_h dn in
   nexts ← DO (node_h dn)
             (λ i ns, x ← get_next m doomed i;
                      if decide (i < length ns)
                      then Some (<[i := x]> ns) else None) nexts;
   let udata := cb key (node_v dn) udata in
   let sl := mk_skiplist (size_t (count sl - 1)) (head sl) in
   m ← node_free m doomed;
   res ← cmp_next cmp m (-1) nxt key;
   if decide (res = 0%Z)
   then delete_all_loop cmp fuel sl m key cb udata nxt tdh nexts
   else Some (sl, m, udata, tdh, nexts)).
Proof. done. Qed.

(** The loop over the run of equal keys: [d :: r2] is what is left of the
    run, [l2] what follows it, and the heap still holds all those cells. *)
Lemma delete_all_loop_spec key (cb : skiplist_free_cb U) hh l2 :
  match l2 with [] => True | e :: _ => cmp (e_k e) key ≠ 0%Z end →
  ∀ r2 d m sl udata tdh fuel,
    nodes_ok m (d :: r2 ++ l2) [] →
    NoDup (e_addr <$> d :: r2 ++ l2) →
    Forall (λ e, 1 ≤ e_h e ≤ hh) (d :: r2 ++ l2) →
    Forall (λ e, cmp (e_k e) key = 0%Z) r2 →
    tdh ≤ hh →
    length r2 < fuel →
    delete_all_loop cmp fuel sl m key cb udata (e_ptr d) tdh
      ((λ i, if decide (i < tdh) then first_at i (d :: r2 ++ l2)
             else SENTINEL) <$> seq 0 hh) =
    Some (mk_skiplist (decrements (count sl) (d :: r2)) (head sl),
          release (d :: r2) m,
          dispose_key cb key (d :: r2) udata,
          tallest tdh (d :: r2),
          (λ i, if decide (i < tallest tdh (d :: r2)) then first_at i l2
                else SENTINEL) <$> seq 0 hh).
Proof.
  intros Hl2.
  induction r2 as [|d' r2 IH];
    intros d m sl udata tdh fuel Hok Hnd Hh Heq Htdh Hfuel;
    (destruct fuel as [|fuel]; [simpl in Hfuel; lia|]).
  - rewrite app_nil_l in *.
    apply nodes_ok_cons in Hok as [Hd Hok]. rewrite app_nil_r in Hd.
    apply Forall_cons in Hh as [Hdh Hh].
    rewrite fmap_cons in Hnd. apply NoDup_cons in Hnd as [Hni Hnd].
    rewrite delete_all_loop_S.
    rewrite (get_next_entry _ _ _ _ Hd) by lia. obind.
    rewrite (deref_entry _ _ _ Hd). obind.
    rewrite (nexts_capture m d l2 hh) by (done || lia). obind.
    rewrite (node_free_at _ _ _ Hd). obind.
    assert (Hres : ∃ res, cmp_next cmp (delete (e_addr d) m) (-1)
                            (first_at 0 l2) key = Some res ∧ res ≠ 0%Z).
    { destruct l2 as [|e l2]; [by exists (-1)%Z|].
      apply Forall_cons in Hh as [Heh _].
      cbn [first_at]. rewrite decide_True by lia.
      apply nodes_ok_cons in Hok as [He _].
      rewrite (cmp_next_entry cmp _ e (node_of e (l2 ++ []))).
      - eexists. split; [done|]. exact Hl2.
      - rewrite lookup_delete_ne; [exact He|].
        intros Hadd. apply Hni. rewrite Hadd. rewrite fmap_cons. left. }
    destruct Hres as (res & -> & Hres). obind.
    rewrite decide_False by done. cbn [release dispose_key decrements
      tallest fold_left]. do 2 f_equal.
    apply fmap_seq_ext. intros L HL. cbn [first_at].
    repeat case_decide; (done || lia).
  - rewrite <- !app_comm_cons in *.
    apply nodes_ok_cons in Hok as [Hd Hok]. rewrite app_nil_r in Hd.
    apply Forall_cons in Hh as [Hdh Hh].
    rewrite fmap_cons in Hnd. apply NoDup_cons in Hnd as [Hni Hnd].
    apply Forall_cons in Heq as [Heq' Heq].
    rewrite delete_all_loop_S.
    rewrite (get_next_entry _ _ _ _ Hd) by lia. obind.
    rewrite (deref_entry _ _ _ Hd). obind.
    rewrite (nexts_capture m d (d' :: r2 ++ l2) hh) by (done || lia). obind.
    rewrite (node_free_at _ _ _ Hd). obind.
    pose proof Hh as Hh'. apply Forall_cons in Hh' as [Hd'h _].
    cbn [first_at]. rewrite (decide_True (P := 0 < e_h d')) by lia.
    pose proof Hok as Hok'. apply nodes_ok_cons in Hok' as [Hd' _].
    rewrite (cmp_next_entry cmp _ d' (node_of d' ((r2 ++ l2) ++ []))).
    2:{ rewrite lookup_delete_ne; [exact Hd'|].
        intros Hadd. apply Hni. rewrite Hadd. rewrite fmap_cons. left. }
    obind. rewrite decide_True by done.
    set (tdh1 := if decide (e_h d < tdh) then tdh else e_h d).
    assert (Hn1 :
      (λ i, if decide (i < e_h d)
            then (if decide (i < e_h d') then e_ptr d'
                  else first_at i (r2 ++ l2))
            else if decide (i < tdh)
                 then (if decide (i < e_h d) then e_ptr d
                       else if decide (i < e_h d') then e_ptr d'
                            else first_at i (r2 ++ l2))
                 else SENTINEL) <$> seq 0 hh =
      (λ i, if decide (i < tdh1) then first_at i (d' :: r2 ++ l2)
            else SENTINEL) <$> seq 0 hh).
    { apply fmap_seq_ext. intros L HL. subst tdh1. cbn [first_at].
      repeat case_decide; (done || lia). }
    rewrite Hn1.
    rewrite (IH d' (delete (e_addr d) m)
               (mk_skiplist (size_t (count sl - 1)) (head sl))
               (cb key (e_v d) udata) tdh1 fuel).
    + done.
    + apply nodes_ok_delete; [|done]. by rewrite fmap_cons.
    + done.
    + done.
    + done.
    + subst tdh1. case_decide; lia.
    + simpl in Hfuel. lia.
Qed.

Lemma release_nodes_ok r m l suf :
  (∀ e, e ∈ l → e_addr e ∉ e_addr <$> r) →
  nodes_ok m l suf → nodes_ok (release r m) l suf.
Proof.
  intros Hdis. apply nodes_ok_frame. intros e He.
  apply release_lookup_ne. by apply Hdis.
Qed.

(** Found, with a callback: the whole run of entries equal to the key is
    disposed of and released, and the predecessors are linked past it. *)
Lemma delete_all_spec sl m hde l key (cb : skiplist_free_cb U) udata old d r :
  head sl = e_ptr hde → skl m hde l → sorted cmp l → three_way cmp →
  eq_run cmp key (from cmp key l) = d :: r →
  ∃ m', delete_one_or_all cmp sl m key (Some cb) udata old =
          Some (false,
                mk_skiplist (decrements (count sl) (d :: r)) (head sl), m',
                dispose_key cb key (d :: r) udata, old) ∧
        skl m' hde (below cmp key l ++ after_run cmp key (from cmp key l)) ∧
        (∀ a, a ∉ e_addr <$> hde :: l → m' !! a = m !! a) ∧
        (∀ e, e ∈ d :: r → m' !! e_addr e = None).
Proof.
  intros Hhd Hs Hsorted Hcmp Hrun. unfold delete_one_or_all.
  destruct (locate cmp sl m hde l key Hhd Hs Hsorted Hcmp) as [-> Hip].
  obind. rewrite Hip. obind.
  rewrite prevs_of_lookup by (destruct Hs; lia). obind.
  rewrite successor0 by done.
  set (l1 := below cmp key l) in *.
  set (l2 := after_run cmp key (from cmp key l)) in *.
  assert (Hfr : from cmp key l = (d :: r) ++ l2).
  { rewrite <- Hrun. unfold l2. by rewrite eq_run_after. }
  assert (Hl : l = l1 ++ (d :: r) ++ l2).
  { rewrite <- Hfr. unfold l1. by rewrite below_from. }
  assert (Hrun_eq : Forall (λ e, cmp (e_k e) key = 0%Z) (d :: r)).
  { rewrite <- Hrun. apply eq_run_eq. }
  assert (Hl2 : match l2 with [] => True | e :: _ => cmp (e_k e) key ≠ 0%Z end).
  { destruct l2 as [|e l2'] eqn:Hl2; [done|].
    by apply (after_run_head cmp key (from cmp key l) e l2'). }
  rewrite Hfr. cbn [app]. obind.
  assert (Hfull : hde :: l = (hde :: l1) ++ d :: (r ++ l2)).
  { rewrite Hl. list_assoc. }
  rewrite (cmp_next_at cmp m hde l _ d _ 1%Z key Hs Hfull). obind.
  apply Forall_cons in Hrun_eq as [Hdeq Hreq].
  rewrite decide_False by lia.
  pose proof (skl_size _ _ _ Hs) as Hsz.
  destruct Hs as [Hnodes Hnd Hheights Hhh].
  pose proof Hnodes as Hnodes'. rewrite Hfull in Hnodes'.
  apply nodes_ok_app in Hnodes' as [Hpre Hsuf]. rewrite app_nil_r in Hpre.
  pose proof Hnd as Hnd'. rewrite Hfull, fmap_app in Hnd'.
  apply NoDup_app in Hnd' as (Hnd1 & Hdis & Hnd2).
  pose proof Hheights as Hh'. rewrite Hl in Hh'.
  apply Forall_app in Hh' as [Hh1 Hh2]. cbn [app] in Hh2.
  assert (Hrep : replicate (e_h hde) SENTINEL =
                 (λ i, if decide (i < 0) then first_at i (d :: r ++ l2)
                       else SENTINEL) <$> seq 0 (e_h hde)).
  { rewrite <- nexts_of_nil. apply fmap_seq_ext. intros L HL.
    by rewrite decide_False by lia. }
  rewrite Hrep.
  rewrite (delete_all_loop_spec key cb (e_h hde) l2 Hl2 r d m sl udata 0
             (size m)); [|done|done|done|done|lia|].
  2:{ rewrite Hl, !length_app in Hsz. simpl in Hsz. lia. }
  obind.
  set (tdh := tallest 0 (d :: r)).
  assert (Htdh : tdh ≤ e_h hde).
  { apply tallest_le; [lia|].
    rewrite app_comm_cons in Hh2. apply Forall_app in Hh2 as [Hh2 _].
    eapply Forall_impl; [exact Hh2|]. simpl. intros; lia. }
  assert (Hl1h : Forall (λ e, e_h e ≤ e_h hde) l1).
  { eapply Forall_impl; [exact Hh1|]. simpl. intros; lia. }
  assert (Hrel1 : ∀ e, e ∈ hde :: l1 → e_addr e ∉ e_addr <$> d :: r).
  { intros e He Hin. apply (Hdis (e_addr e)).
    - by apply (list_elem_of_fmap_2 e_addr).
    - rewrite app_comm_cons, fmap_app. apply elem_of_app. by left. }
  assert (Hrel2 : ∀ e, e ∈ l2 → e_addr e ∉ e_addr <$> d :: r).
  { intros e He Hin. rewrite app_comm_cons, fmap_app in Hnd2.
    apply NoDup_app in Hnd2 as (_ & Hd2 & _). apply (Hd2 _ Hin).
    by apply (list_elem_of_fmap_2 e_addr). }
  destruct (relink_loop hde l1 ((d :: r) ++ l2) l2 (e_h hde)
              (release (d :: r) m) tdh
              (λ i m0, p ← prevs_of cmp hde key l !! i;
                       x ← ((λ i, if decide (i < tdh) then first_at i l2
                                  else SENTINEL) <$> seq 0 (e_h hde)) !! i;
                       set_next m0 p i x))
    as (m1 & -> & Hmix & Hfr1); [done | done | lia | | |].
  { apply prefix_mix_start; [intros; lia | done |].
    by apply release_nodes_ok. }
  { intros j m0 Hj _. rewrite prevs_of_lookup by lia. obind.
    rewrite list_lookup_fmap, lookup_seq_lt by lia. simpl.
    by rewrite decide_True by done. }
  obind. exists m1. split; [done|].
  assert (Hok1 : nodes_ok m1 (hde :: l1) l2).
  { apply (prefix_mix_done hde l1 ((d :: r) ++ l2) l2 (e_h hde) tdh);
      [|done|done].
    intros L r0 HL Hv. rewrite !first_at_app.
    rewrite (first_at_low L (d :: r)); [done|].
    eapply Forall_impl; [apply (tallest_low 0 (d :: r))|].
    intros x Hx. cbn beta in Hx. fold tdh in Hx. lia. }
  assert (Hfr2 : ∀ e, e ∈ l2 → e_addr e ∉ e_addr <$> hde :: l1).
  { intros e He Hin. apply (Hdis _ Hin).
    rewrite app_comm_cons, fmap_app. apply elem_of_app. right.
    by apply (list_elem_of_fmap_2 e_addr). }
  split; [|split].
  - split.
    + rewrite app_comm_cons. apply nodes_ok_app. split.
      * by rewrite app_nil_r.
      * eapply nodes_ok_frame.
        -- intros e He. apply Hfr1. by apply Hfr2.
        -- apply release_nodes_ok; [done|].
           rewrite app_comm_cons in Hsuf.
           by apply nodes_ok_app in Hsuf as [_ Hsuf].
    + rewrite app_comm_cons, fmap_app. apply NoDup_app. split; [done|].
      split.
      * intros a Ha Ha2. apply (Hdis a Ha).
        rewrite app_comm_cons, fmap_app. apply elem_of_app. by right.
      * rewrite app_comm_cons, fmap_app in Hnd2.
        by apply NoDup_app in Hnd2 as (_ & _ & ?).
    + apply Forall_app. split; [done|].
      rewrite app_comm_cons in Hh2. by apply Forall_app in Hh2 as [_ ?].
    + done.
  - intros a Ha. change (a ∉ e_addr <$> hde :: l) in Ha.
    rewrite Hfull, fmap_app in Ha.
    rewrite Hfr1.
    + apply release_lookup_ne. intros Hin. apply Ha.
      apply elem_of_app. right. rewrite app_comm_cons, fmap_app.
      apply elem_of_app. by left.
    + intros Hin. apply Ha. apply elem_of_app. by left.
  - intros e He. rewrite Hfr1.
    + apply release_lookup_in. by apply (list_elem_of_fmap_2 e_addr).
    + intros Hin. apply (Hdis _ Hin).
      rewrite app_comm_cons, fmap_app. apply elem_of_app. left.
      by apply (list_elem_of_fmap_2 e_addr).
Qed.

End DeleteAll.

(** ** Inserting *)

Section Grow.

Implicit Types (l r pre : list entry) (e c d z : entry) (L j : nat) (m : heap).

Lemma gen_height_loop_ge n (rnd bit : Z) h :
  h ≤ gen_height_loop n rnd bit h.
Proof.
  revert bit h. induction n as [|n IH]; intros bit h; simpl; [done|].
  destruct (Z.testbit rnd bit); [|done]. etransitivity; [|apply IH]. lia.
Qed.

Lemma gen_height_bounds MAX (rnd : Z) :
  1 ≤ MAX → 1 ≤ SKIPLIST_GEN_HEIGHT MAX rnd ≤ MAX.
Proof.
  intros HM. unfold SKIPLIST_GEN_HEIGHT.
  pose proof (gen_height_loop_ge 32 rnd 0 1). case_decide; lia.
Qed.

Lemma set_next_insert (m : heap) a n i q :
  i < length (node_next n) →
  set_next (<[a := n]> m) (Ptr a) i q =
  Some (<[a := mk_node (node_h n) (node_k n) (node_v n)
                       (<[i := q]> (node_next n))]> m).
Proof.
  intros Hi. unfold set_next. rewrite lookup_insert_eq. obind.
  rewrite decide_True by done. by rewrite insert_insert_eq.
Qed.

(** The head after growth: the old pointers below the old height, the new
    node above. *)
Definition grown_head (hde : entry) (l : list entry) (hx a : nat)
  : skiplist_node :=
  mk_node hx SENTINEL_REF SENTINEL_REF
    ((λ L, if decide (L < e_h hde) then first_at L l else Ptr a)
       <$> seq 0 hx).

Lemma grow_head_spec sl m hde l a nnode b :
  head sl = e_ptr hde →
  m !! e_addr hde = Some (node_of hde l) →
  m !! a = Some nnode → e_h hde ≤ node_h nnode → m !! b = None →
  grow_head (Some b) sl m (Ptr a) =
  Some (true, mk_skiplist (count sl) (Ptr b),
        delete (e_addr hde)
          (<[b := grown_head hde l (node_h nnode) a]> m)).
Proof.
  intros Hhd Hh Ha Hle Hb. unfold grow_head. rewrite Hhd.
  rewrite (deref_entry _ _ _ Hh). obind.
  change (deref m (Ptr a)) with (m !! a). rewrite Ha. obind.
  cbn [node_alloc].
  set (hx := node_h nnode) in *.
  assert (Hne : b ≠ e_addr hde) by (intros ->; congruence).
  (* copying the old pointers *)
  destruct (DO_inv
    (λ j m', m' = <[b := mk_node hx SENTINEL_REF SENTINEL_REF
                     ((λ L, if decide (L < j) then first_at L l
                            else SENTINEL) <$> seq 0 hx)]> m)
    (λ i m', x ← get_next m' (e_ptr hde) i; set_next m' (Ptr b) i x)
    (e_h hde)
    (<[b := mk_node hx SENTINEL_REF SENTINEL_REF (replicate hx SENTINEL)]> m))
    as (m1 & -> & ->).
  { f_equal. f_equal. rewrite <- nexts_of_nil. apply fmap_seq_ext.
    intros L HL. by rewrite decide_False by lia. }
  { intros j m' Hj ->.
    rewrite (get_next_entry _ hde l j); [|by rewrite lookup_insert_ne|done].
    obind. rewrite set_next_insert.
    2:{ cbn [node_next]. rewrite length_fmap, length_seq. lia. }
    eexists. split; [done|]. f_equal. cbn [node_h node_k node_v node_next].
    f_equal. rewrite insert_fmap_seq. apply fmap_seq_ext. intros L HL.
    repeat case_decide; subst; (done || lia). }
  obind. change (deref ?m' (Ptr b)) with (m' !! b).
  rewrite lookup_insert_eq. obind.
  (* pointing the new levels at the new node *)
  destruct (DO_from_inv
    (λ j m', m' = <[b := mk_node hx SENTINEL_REF SENTINEL_REF
                     ((λ L, if decide (L < e_h hde) then first_at L l
                            else if decide (L < j) then Ptr a
                            else SENTINEL) <$> seq 0 hx)]> m)
    (λ i m', set_next m' (Ptr b) i (Ptr a))
    (e_h hde) (hx - e_h hde)
    (<[b := mk_node hx SENTINEL_REF SENTINEL_REF
         ((λ L, if decide (L < e_h hde) then first_at L l
                else SENTINEL) <$> seq 0 hx)]> m))
    as (m2 & -> & ->).
  { f_equal. f_equal. apply fmap_seq_ext. intros L HL.
    repeat case_decide; subst; (done || lia). }
  { intros j m' Hj ->. rewrite set_next_insert.
    2:{ cbn [node_next]. rewrite length_fmap, length_seq. lia. }
    eexists. split; [done|]. f_equal. cbn [node_h node_k node_v node_next].
    f_equal. rewrite insert_fmap_seq. apply fmap_seq_ext. intros L HL.
    repeat case_decide; subst; (done || lia). }
  obind.
  rewrite (node_free_at _ hde (node_of hde l)) by (by rewrite lookup_insert_ne).
  obind. do 4 f_equal. unfold grown_head. f_equal.
  apply fmap_seq_ext. intros L HL. repeat case_decide; subst; (done || lia).
Qed.

Lemma grow_head_fail sl m hde l a nnode :
  head sl = e_ptr hde →
  m !! e_addr hde = Some (node_of hde l) →
  m !! a = Some nnode →
  grow_head None sl m (Ptr a) = Some (false, sl, m).
Proof.
  intros Hhd Hh Ha. unfold grow_head. rewrite Hhd.
  rewrite (deref_entry _ _ _ Hh). obind.
  change (deref m (Ptr a)) with (m !! a). by rewrite Ha.
Qed.

(** Re-pointing the slots that held the old head. *)
Lemma replace_head_prevs (old new : node_ptr) n (f : nat → node_ptr) :
  DO n (λ i ps, p ← ps !! i;
                Some (if decide (p = old) then <[i := new]> ps else ps))
     (f <$> seq 0 n) =
  Some ((λ L, if decide (f L = old) then new else f L) <$> seq 0 n).
Proof.
  destruct (DO_inv
    (λ j ps, ps = (λ L, if decide (L < j)
                        then (if decide (f L = old) then new else f L)
                        else f L) <$> seq 0 n)
    (λ i ps, p ← ps !! i;
             Some (if decide (p = old) then <[i := new]> ps else ps))
    n (f <$> seq 0 n)) as (ps & -> & ->).
  - apply fmap_seq_ext. intros L HL. by rewrite decide_False by lia.
  - intros j ps Hj ->. rewrite list_lookup_fmap, lookup_seq_lt by done.
    cbn [fmap option_fmap option_map mbind option_bind].
    rewrite (decide_False (P := j < j)) by lia. cbn [Nat.add].
    eexists. split; [done|].
    destruct (decide (f j = old)) as [Hf|Hf].
    + rewrite insert_fmap_seq. apply fmap_seq_ext. intros L HL.
      repeat case_decide; subst; (done || lia || congruence).
    + apply fmap_seq_ext. intros L HL.
      repeat case_decide; try (done || lia);
        assert (L = j) as -> by lia; done.
  - f_equal. apply fmap_seq_ext. intros L HL. by rewrite decide_True.
Qed.

(** The last cell of a level is the head or a stored cell, whichever the
    head is. *)
Lemma last_at_rehead L (p p' : node_ptr) l1 :
  (∀ e, e ∈ l1 → e_ptr e ≠ p) →
  (if decide (last_at L p l1 = p) then p' else last_at L p l1) =
  last_at L p' l1.
Proof.
  intros Hne.
  destruct (last_at_cases L p l1)
    as [[Hlow Hd]|(pre & e & r & -> & He & Hr & Hd)].
  - rewrite Hd, decide_True by done. by rewrite last_at_low.
  - rewrite Hd, decide_False.
    + by rewrite last_at_hit.
    + apply Hne. apply elem_of_app. right. left.
Qed.

End Grow.

Lemma set_next_entry (m : heap) e n i q :
  m !! e_addr e = Some n → i < length (node_next n) →
  set_next m (e_ptr e) i q =
  Some (<[e_addr e := mk_node (node_h n) (node_k n) (node_v n)
                              (<[i := q]> (node_next n))]> m).
Proof.
  intros He Hi. unfold set_next, e_ptr. rewrite He. obind.
  by rewrite decide_True.
Qed.

Section Splice.

Context (hde : entry) (l1 l2 : list entry) (x : entry) (top : nat).

Implicit Types (l r pre : list entry) (e c d z : entry) (L j : nat) (m : heap).

(** The cell of the new node while it is spliced in: linked below level
    [j], still pointing at the sentinel above. *)
Definition half_linked (j : nat) : skiplist_node :=
  mk_node (e_h x) (e_k x) (e_v x)
    ((λ L, if decide (L < j) then first_at L l2 else SENTINEL)
       <$> seq 0 (e_h x)).

Lemma splice_loop m0 (prevs : list node_ptr) minH :
  NoDup (e_addr <$> hde :: l1) → e_addr x ∉ e_addr <$> hde :: l1 →
  minH ≤ e_h hde → minH ≤ top → minH ≤ e_h x →
  prefix_mix hde l1 l2 (x :: l2) top 0 m0 →
  m0 !! e_addr x = Some (half_linked 0) →
  (∀ j, j < minH → prevs !! j = Some (last_at j (e_ptr hde) l1)) →
  ∃ m', DO minH
          (λ i m, p ← prevs !! i;
                  x0 ← get_next m p i;
                  m1 ← set_next m (e_ptr x) i x0;
                  set_next m1 p i (e_ptr x)) m0 = Some m' ∧
        prefix_mix hde l1 l2 (x :: l2) top minH m' ∧
        m' !! e_addr x = Some (half_linked minH) ∧
        (∀ a, a ∉ e_addr <$> hde :: l1 → a ≠ e_addr x →
              m' !! a = m0 !! a).
Proof.
  intros Hnd Hx Hm1 Hm2 Hm3 Hmix0 Hx0 Hprevs.
  apply (DO_inv (λ j m,
    prefix_mix hde l1 l2 (x :: l2) top j m ∧
    m !! e_addr x = Some (half_linked j) ∧
    (∀ a, a ∉ e_addr <$> hde :: l1 → a ≠ e_addr x → m !! a = m0 !! a))).
  { done. }
  intros j m Hj (Hmix & Hxj & Hfr).
  rewrite Hprevs by done. obind.
  destruct (prev_cell hde l1 j) as (pre & e & r & Hsp & He & Hr & Hlast);
    [lia|].
  assert (Hein : e_addr e ∈ e_addr <$> hde :: l1).
  { apply (list_elem_of_fmap_2 e_addr). rewrite Hsp.
    apply elem_of_app. right. left. }
  assert (Hex : e_addr e ≠ e_addr x) by (intros Heq; by rewrite Heq in Hein).
  rewrite Hlast.
  unfold get_next. rewrite (deref_entry _ _ _ (Hmix pre e r Hsp)).
  cbn [mbind option_bind mixed_node node_next]. unfold mixed_nexts.
  rewrite list_lookup_fmap, lookup_seq_lt by done.
  cbn [fmap option_fmap option_map Nat.add].
  rewrite decide_False by lia. rewrite first_at_app_low by done. obind.
  rewrite (set_next_entry _ _ _ _ _ Hxj).
  2:{ cbn [half_linked node_next]. rewrite length_fmap, length_seq. lia. }
  obind. cbn [half_linked node_next node_h node_k node_v].
  set (m1 := <[e_addr x := _]> m).
  assert (Hmix1 : prefix_mix hde l1 l2 (x :: l2) top j m1).
  { eapply prefix_mix_frame; [|exact Hmix]. intros e' He'.
    unfold m1. rewrite lookup_insert_ne; [done|].
    intros Heq. apply Hx. rewrite Heq.
    by apply (list_elem_of_fmap_2 e_addr). }
  destruct (relink_step hde l1 l2 (x :: l2) top m1 j Hnd)
    as (m2 & Hset & Hmix2 & Hfr2); [lia | lia | done |].
  rewrite Hlast in Hset. cbn [first_at] in Hset.
  rewrite decide_True in Hset by lia. rewrite Hset.
  exists m2. split; [done|]. split; [done|]. split.
  - rewrite Hfr2.
    + unfold m1. rewrite lookup_insert_eq. unfold half_linked. do 2 f_equal.
      rewrite insert_fmap_seq. apply fmap_seq_ext. intros L HL.
      repeat case_decide; subst; (done || lia).
    + rewrite Hlast. unfold e_ptr. congruence.
  - intros a Ha Hax. rewrite Hfr2.
    + unfold m1. rewrite lookup_insert_ne by done. by apply Hfr.
    + rewrite Hlast. unfold e_ptr. intros [= ->]. by apply Ha.
Qed.

(** When the loop is over the new node sits in the list. *)
Lemma splice_finish m minH :
  prefix_mix hde l1 l2 (x :: l2) top minH m →
  m !! e_addr x = Some (half_linked minH) →
  nodes_ok m l2 [] →
  NoDup (e_addr <$> hde :: l1 ++ x :: l2) →
  Forall (λ e, 1 ≤ e_h e ≤ e_h hde) (l1 ++ x :: l2) →
  1 ≤ e_h hde →
  minH = e_h x ∨ (minH = top ∧ low top l2) →
  skl m hde (l1 ++ x :: l2).
Proof.
  intros Hmix Hxc Hl2 Hnd Hh Hhh Hmin. split; [|done|done|done].
  rewrite app_comm_cons. apply nodes_ok_app. split.
  - rewrite app_nil_r.
    apply (prefix_mix_done hde l1 l2 (x :: l2) top minH); [| |done].
    + intros L r HL Hv. rewrite !first_at_app. cbn [first_at].
      destruct Hmin as [->|[-> _]]; [|lia].
      by rewrite (decide_False (P := L < e_h x)) by lia.
    + apply Forall_app in Hh as [Hh _].
      eapply Forall_impl; [exact Hh|]. simpl. intros; lia.
  - apply nodes_ok_cons. split; [|done].
    rewrite Hxc, app_nil_r. unfold half_linked, node_of. do 2 f_equal.
    apply fmap_seq_ext. intros L HL.
    destruct Hmin as [->|[-> Hlow]].
    + by rewrite decide_True.
    + case_decide; [done|]. symmetry. apply first_at_low.
      eapply Forall_impl; [exact Hlow|]. simpl. intros; lia.
Qed.

End Splice.

Section AddOrSet.

Context (cmp : voidp → voidp → Z) (MAX : nat).

Implicit Types (l r pre : list entry) (e c d z : entry) (L j : nat) (m : heap).

(** What is left in the caller's [old] cell when no entry is replaced. *)
Definition old_after (try_replace : bool) (key : voidp) (l : list entry)
    (old : option voidp) : option voidp :=
  if try_replace then
    match from cmp key l with
    | [] => old
    | _ :: _ => store_out old NULL
    end
  else old.

(** The replace-or-not block at the head of [add_or_set], when nothing is
    replaced. *)
Lemma no_replace_block m hde l (try_replace : bool) key value old :
  skl m hde l →
  (try_replace = true → lookup_entry cmp key l = None) →
  (if try_replace then
     p0 ← prevs_of cmp hde key l !! 0;
     nxt ← get_next m p0 0;
     if IS_SENTINEL nxt then Some (false, m, old)
     else
       n ← deref m nxt;
       if decide (cmp (node_k n) key = 0)%Z then
         m' ← set_v m nxt value;
         Some (true, m', store_out old (node_v n))
       else Some (false, m, store_out old NULL)
   else Some (false, m, old)) =
  Some (false, m, old_after try_replace key l old).
Proof.
  intros Hs Hlk. unfold old_after. destruct try_replace; [|done].
  specialize (Hlk eq_refl). unfold lookup_entry in Hlk.
  rewrite prevs_of_lookup by (destruct Hs; lia). obind.
  rewrite successor0 by done. obind.
  destruct (from cmp key l) as [|e l2] eqn:Hfrom; [done|].
  cbn [IS_SENTINEL e_ptr].
  assert (Hfull : hde :: l = (hde :: below cmp key l) ++ e :: l2).
  { rewrite <- Hfrom. simpl. by rewrite below_from. }
  change (Ptr (e_addr e)) with (e_ptr e).
  rewrite (deref_at m hde l _ e l2 Hs Hfull). obind.
  destruct (decide (cmp (e_k e) key = 0%Z)); [done|done].
Qed.

Lemma add_or_set_insert sl m hde l (try_replace : bool) key value old
    (rnd : Z) nn_res hd_res :
  head sl = e_ptr hde → skl m hde l → sorted cmp l → three_way cmp →
  1 ≤ MAX → allocs_ok m nn_res hd_res →
  (try_replace = true → lookup_entry cmp key l = None) →
  let hx := SKIPLIST_GEN_HEIGHT MAX rnd in
  let old' := old_after try_replace key l old in
  let run := add_or_set cmp MAX sl m try_replace key value old rnd
               nn_res hd_res in
  match nn_res with
  | None => run = Some (false, sl, m, old')
  | Some a =>
      let x := mk_entry a hx key value in
      let m1 := <[a := mk_node hx key value (replicate hx SENTINEL)]> m in
      if decide (e_h hde < hx) then
        match hd_res with
        | None => run = Some (false, sl, m1, old')
        | Some b =>
            ∃ m', run = Some (true,
                              mk_skiplist (size_t (count sl + 1)) (Ptr b),
                              m', old') ∧
                  skl m' (mk_entry b hx SENTINEL_REF SENTINEL_REF)
                      (below cmp key l ++ x :: from cmp key l)
        end
      else
        ∃ m', run = Some (true,
                          mk_skiplist (size_t (count sl + 1)) (head sl),
                          m', old') ∧
              skl m' hde (below cmp key l ++ x :: from cmp key l)
  end.
Proof.
  intros Hhd Hs Hsorted Hcmp HMAX (Hfa & Hfb & Hab) Hlk hx old' run.
  pose proof (gen_height_bounds MAX rnd HMAX) as Hhx. fold hx in Hhx.
  subst run. unfold add_or_set.
  destruct (locate cmp sl m hde l key Hhd Hs Hsorted Hcmp) as [Hdh Hip].
  rewrite Hhd in Hdh, Hip. rewrite !Hhd. rewrite Hdh.
  obind. rewrite Hip. obind.
  rewrite (no_replace_block m hde l try_replace key value old Hs Hlk).
  fold old'. obind. fold hx.
  destruct nn_res as [a|]; cbn [node_alloc]; [|done].
  simpl in Hfa.
  set (l1 := below cmp key l). set (l2 := from cmp key l).
  set (x := mk_entry a hx key value).
  set (m1 := <[a := mk_node hx key value (replicate hx SENTINEL)]> m).
  assert (Hl : l = l1 ++ l2) by (by unfold l1, l2; rewrite below_from).
  pose proof Hs as [Hnodes Hnd Hheights Hhh].
  assert (Hfresh : ∀ e, e ∈ hde :: l → e_addr e ≠ a).
  { intros e He Hea. apply list_elem_of_split in He as (pre & r & Heq).
    specialize (Hnodes pre e r Heq). rewrite Hea in Hnodes. congruence. }
  assert (Hfr1 : ∀ e, e ∈ hde :: l → m1 !! e_addr e = m !! e_addr e).
  { intros e He. unfold m1. rewrite lookup_insert_ne; [done|].
    intros Heq. by apply (Hfresh e He). }
  assert (Hnodes1 : nodes_ok m1 (hde :: l) []).
  { by eapply nodes_ok_frame. }
  pose proof Hnodes1 as Hsplit. rewrite Hl, app_comm_cons in Hsplit.
  apply nodes_ok_app in Hsplit as [Hpre1 Hsuf1]. rewrite app_nil_r in Hpre1.
  assert (Hhd1 : m1 !! e_addr hde = Some (node_of hde l)).
  { rewrite Hfr1 by left. by apply (skl_at m hde l [] hde l). }
  assert (Hx1 : m1 !! a = Some (mk_node hx key value (replicate hx SENTINEL))).
  { unfold m1. by rewrite lookup_insert_eq. }
  assert (Hh1 : Forall (λ e, 1 ≤ e_h e ≤ e_h hde) l1 ∧
                Forall (λ e, 1 ≤ e_h e ≤ e_h hde) l2).
  { rewrite Hl in Hheights. by apply Forall_app in Hheights. }
  destruct Hh1 as [Hh1 Hh2].
  assert (Hnda : a ∉ e_addr <$> hde :: l).
  { intros (e & -> & He)%list_elem_of_fmap. by apply (Hfresh e He). }
  assert (Hhalf0 : half_linked l2 x 0 =
                   mk_node hx key value (replicate hx SENTINEL)).
  { unfold half_linked. cbn [e_h e_k e_v x]. f_equal.
    rewrite <- nexts_of_nil. apply fmap_seq_ext. intros L HL.
    by rewrite decide_False by lia. }
  destruct (decide (e_h hde < hx)) as [Hgrow|Hnogrow].
  - (* the new node is taller than the head *)
    destruct hd_res as [b|].
    2:{ rewrite (grow_head_fail sl m1 hde l a _ Hhd Hhd1 Hx1). by obind. }
    simpl in Hfb. assert (Hba : b ≠ a) by (destruct Hab; congruence).
    rewrite (grow_head_spec sl m1 hde l a _ b Hhd Hhd1 Hx1);
      [|cbn [node_h]; lia|by unfold m1; rewrite lookup_insert_ne].
    obind. cbn [node_h].
    unfold prevs_of at 1. rewrite replace_head_prevs. obind.
    set (m3 := delete (e_addr hde) (<[b := grown_head hde l hx a]> m1)).
    set (hde' := mk_entry b hx SENTINEL_REF SENTINEL_REF).
    assert (Hfreshb : ∀ e, e ∈ hde :: l → e_addr e ≠ b).
    { intros e He Hea. apply list_elem_of_split in He as (pre & r & Heq).
      specialize (Hnodes pre e r Heq). rewrite Hea in Hnodes. congruence. }
    assert (Hndl : NoDup (e_addr <$> l) ∧ e_addr hde ∉ e_addr <$> l).
    { rewrite fmap_cons in Hnd. by apply NoDup_cons in Hnd as [? ?]. }
    destruct Hndl as [Hndl Hhdl].
    assert (Hfr3 : ∀ e, e ∈ l → m3 !! e_addr e = m !! e_addr e).
    { intros e He. unfold m3. rewrite lookup_delete_ne.
      - rewrite lookup_insert_ne; [apply Hfr1; by right|].
        intros Heq. symmetry in Heq. revert Heq. apply Hfreshb. by right.
      - intros Heq. apply Hhdl. rewrite Heq.
        by apply (list_elem_of_fmap_2 e_addr). }
    assert (Hx3 : m3 !! a = Some (half_linked l2 x 0)).
    { rewrite Hhalf0. unfold m3. rewrite lookup_delete_ne.
      - by rewrite lookup_insert_ne.
      - apply Hfresh. left. }
    assert (Hb3 : m3 !! b = Some (grown_head hde l hx a)).
    { unfold m3. rewrite lookup_delete_ne.
      - by rewrite lookup_insert_eq.
      - apply Hfreshb. left. }
    change (deref m3 (Ptr a)) with (m3 !! a). rewrite Hx3. obind.
    cbn [half_linked node_h e_h x].
    rewrite (decide_False (P := hx < e_h hde)) by lia.
    assert (Hnd' : NoDup (e_addr <$> hde' :: l1 ++ x :: l2)).
    { rewrite fmap_cons. apply NoDup_cons. split.
      - intros (e & Hbe & He)%list_elem_of_fmap.
        apply elem_of_app in He as [He|[->|He]%elem_of_cons].
        + apply (Hfreshb e); [|done]. right. rewrite Hl.
          apply elem_of_app. by left.
        + by apply Hba.
        + apply (Hfreshb e); [|done]. right. rewrite Hl.
          apply elem_of_app. by right.
      - rewrite Hl, fmap_app in Hndl.
        apply NoDup_app in Hndl as (Hn1 & Hdis & Hn2).
        rewrite fmap_app, fmap_cons. apply NoDup_app. split; [done|]. split.
        + intros a' Ha1 [->|Ha2]%elem_of_cons; [|by apply (Hdis a')].
          apply Hnda. rewrite Hl, fmap_cons, fmap_app. right.
          apply elem_of_app. by left.
        + apply NoDup_cons. split; [|done]. intros Ha2. apply Hnda.
          rewrite Hl, fmap_cons, fmap_app. right. apply elem_of_app.
          by right. }
    assert (Hnd1' : NoDup (e_addr <$> hde' :: l1)).
    { rewrite app_comm_cons, fmap_app in Hnd'.
      by apply NoDup_app in Hnd' as [? _]. }
    assert (Hxp : e_addr x ∉ e_addr <$> hde' :: l1).
    { by apply (addr_not_in_prefix hde' l1 x l2). }
    change (Ptr a) with (e_ptr x). fold l1.
    destruct (splice_loop hde' l1 l2 x (e_h hde) m3
                ((λ L, if decide (last_at L (e_ptr hde) l1 = e_ptr hde)
                       then Ptr b else last_at L (e_ptr hde) l1)
                   <$> seq 0 (e_h hde)) (e_h hde))
      as (m' & -> & Hmix & Hxc & Hfr').
    + done.
    + done.
    + cbn [hde' e_h]. lia.
    + done.
    + cbn [x e_h]. lia.
    + intros pre e r Heq. destruct pre as [|y pre]; simpl in Heq.
      * inversion Heq; subst e r. cbn [e_addr hde']. rewrite Hb3.
        unfold grown_head, mixed_node, mixed_nexts. cbn [e_h e_k e_v hde'].
        do 2 f_equal. apply fmap_seq_ext. intros L HL.
        destruct (decide (L < e_h hde)) as [HLh|HLh].
        -- rewrite decide_False by lia. by rewrite Hl.
        -- rewrite decide_True by lia.
           rewrite first_at_app_low.
           ++ cbn [first_at x e_h]. by rewrite decide_True.
           ++ eapply Forall_impl; [exact Hh1|]. simpl. intros; lia.
      * inversion Heq; subst y l1.
        assert (Hel : e ∈ l).
        { rewrite Hl, H1. apply elem_of_app. left.
          apply elem_of_app. right. left. }
        rewrite Hfr3 by done.
        rewrite (skl_at m hde l (hde :: pre) e (r ++ l2) Hs).
        2:{ rewrite Hl, H1. list_assoc. }
        unfold node_of, mixed_node, mixed_nexts, nexts_of. do 2 f_equal.
        apply fmap_seq_ext. intros L HL.
        rewrite decide_False; [done|].
        rewrite H1 in Hh1. apply Forall_app in Hh1 as [_ Hh1].
        apply Forall_cons in Hh1 as [? _]. lia.
    + done.
    + intros j Hj. rewrite list_lookup_fmap, lookup_seq_lt by done.
      cbn [fmap option_fmap option_map Nat.add]. f_equal.
      apply last_at_rehead. intros e He Heq. inversion Heq as [Hadd].
      apply Hhdl. rewrite <- Hadd. apply (list_elem_of_fmap_2 e_addr).
      rewrite Hl. apply elem_of_app. by left.
    + obind. eexists. split; [done|].
      apply (splice_finish hde' l1 l2 x (e_h hde) m' (e_h hde));
        [done | done | | done | | cbn [hde' e_h]; lia |].
      * eapply nodes_ok_frame; [|exact Hsuf1]. intros e He.
        assert (Hel : e ∈ l) by (rewrite Hl; apply elem_of_app; by right).
        rewrite Hfr'.
        -- rewrite Hfr3 by done. symmetry. apply Hfr1. by right.
        -- intros Hin. rewrite app_comm_cons, fmap_app in Hnd'.
           apply NoDup_app in Hnd' as (_ & Hdis & _). apply (Hdis _ Hin).
           rewrite fmap_cons. right. by apply (list_elem_of_fmap_2 e_addr).
        -- cbn [x e_addr]. apply Hfresh. by right.
      * apply Forall_app. split.
        -- eapply Forall_impl; [exact Hh1|]. cbn [hde' e_h]. simpl.
           intros; lia.
        -- constructor; [cbn [hde' x e_h]; lia|].
           eapply Forall_impl; [exact Hh2|]. cbn [hde' e_h]. simpl.
           intros; lia.
      * right. split; [done|].
        eapply Forall_impl; [exact Hh2|]. simpl. intros; lia.
  - (* the head is tall enough *)
    obind. change (deref m1 (Ptr a)) with (m1 !! a). rewrite Hx1. obind.
    assert (Hmin : (if decide (hx < e_h hde) then hx else e_h hde) = hx)
      by (case_decide; lia).
    rewrite Hmin. change (Ptr a) with (e_ptr x).
    assert (Hnd' : NoDup (e_addr <$> hde :: l1 ++ x :: l2)).
    { rewrite Hl, app_comm_cons, fmap_app in Hnd.
      apply NoDup_app in Hnd as (Hn1 & Hdis & Hn2).
      rewrite app_comm_cons, fmap_app, fmap_cons.
      apply NoDup_app. split; [done|]. split.
      - intros a' Ha1 [->|Ha2]%elem_of_cons; [|by apply (Hdis a')].
        apply Hnda. rewrite Hl, app_comm_cons, fmap_app.
        apply elem_of_app. by left.
      - apply NoDup_cons. split; [|done]. intros Ha2. apply Hnda.
        rewrite Hl, app_comm_cons, fmap_app. apply elem_of_app. by right. }
    assert (Hnd1' : NoDup (e_addr <$> hde :: l1)).
    { rewrite app_comm_cons, fmap_app in Hnd'.
      by apply NoDup_app in Hnd' as [? _]. }
    assert (Hxp : e_addr x ∉ e_addr <$> hde :: l1).
    { by apply (addr_not_in_prefix hde l1 x l2). }
    assert (Hl1h : Forall (λ e, e_h e ≤ e_h hde) l1).
    { eapply Forall_impl; [exact Hh1|]. simpl. intros; lia. }
    destruct (splice_loop hde l1 l2 x (e_h hde) m1
                (prevs_of cmp hde key l) hx)
      as (m' & -> & Hmix & Hxc & Hfr').
    + done.
    + done.
    + lia.
    + lia.
    + cbn [x e_h]. lia.
    + apply prefix_mix_start; [intros; lia | done | done].
    + by rewrite Hhalf0.
    + intros j Hj. apply prevs_of_lookup. lia.
    + obind. rewrite Hhd. eexists. split; [done|].
      apply (splice_finish hde l1 l2 x (e_h hde) m' hx);
        [exact Hmix | exact Hxc | | exact Hnd' | | exact Hhh
         | left; reflexivity].
      * eapply nodes_ok_frame; [|exact Hsuf1]. intros e He.
        assert (Hel : e ∈ l) by (rewrite Hl; apply elem_of_app; by right).
        apply Hfr'.
        -- intros Hin. rewrite app_comm_cons, fmap_app in Hnd'.
           apply NoDup_app in Hnd' as (_ & Hdis & _). apply (Hdis _ Hin).
           rewrite fmap_cons. right. by apply (list_elem_of_fmap_2 e_addr).
        -- cbn [x e_addr]. apply Hfresh. by right.
      * apply Forall_app. split; [done|].
        constructor; [cbn [x e_h]; lia | done].
Qed.

(** The entry [e] with its value replaced. *)
Definition with_value (e : entry) (value : voidp) : entry :=
  mk_entry (e_addr e) (e_h e) (e_k e) value.

Lemma first_at_with_value L r e value l2 :
  first_at L (r ++ with_value e value :: l2) = first_at L (r ++ e :: l2).
Proof. by rewrite !first_at_app. Qed.

(** Replacing: the first entry equal to the key gets the new value in
    place; no cell is allocated, no height is drawn. *)
Lemma add_or_set_replace sl m hde l key value old (rnd : Z) nn_res hd_res
    e l2 :
  head sl = e_ptr hde → skl m hde l → sorted cmp l → three_way cmp →
  from cmp key l = e :: l2 → cmp (e_k e) key = 0%Z →
  let m' := <[e_addr e := node_of (with_value e value) l2]> m in
  add_or_set cmp MAX sl m true key value old rnd nn_res hd_res =
    Some (true, sl, m', store_out old (e_v e)) ∧
  skl m' hde (below cmp key l ++ with_value e value :: l2).
Proof.
  intros Hhd Hs Hsorted Hcmp Hfrom Heq m'.
  set (l1 := below cmp key l).
  assert (Hl : l = l1 ++ e :: l2) by (by rewrite <- Hfrom; apply eq_sym, below_from).
  assert (Hfull : hde :: l = (hde :: l1) ++ e :: l2) by (by rewrite Hl).
  pose proof (skl_at m hde l _ e l2 Hs Hfull) as He.
  split.
  - unfold add_or_set.
    destruct (locate cmp sl m hde l key Hhd Hs Hsorted Hcmp) as [Hdh Hip].
    rewrite Hdh. obind. rewrite Hip. obind.
    rewrite prevs_of_lookup by (destruct Hs; lia). obind.
    rewrite successor0 by done. rewrite Hfrom. obind.
    cbn [IS_SENTINEL e_ptr]. change (Ptr (e_addr e)) with (e_ptr e).
    rewrite (deref_entry _ _ _ He). obind.
    rewrite decide_True by done.
    unfold set_v, e_ptr. rewrite He. by obind.
  - destruct Hs as [Hnodes Hnd Hheights Hhh].
    rewrite Hfull in Hnodes. apply nodes_ok_app in Hnodes as [Hpre Hsuf].
    apply nodes_ok_cons in Hsuf as [_ Hsuf].
    pose proof Hnd as Hnd'. rewrite Hl in Hnd'.
    pose proof (addr_not_in_prefix _ _ _ _ Hnd') as Hdp.
    pose proof (addr_not_in_suffix _ _ _ _ Hnd') as Hds.
    split.
    + rewrite app_comm_cons. apply nodes_ok_app. split.
      * intros pre c r Hsp. unfold m'. rewrite lookup_insert_ne.
        -- rewrite (Hpre pre c r Hsp). rewrite !app_nil_r.
           unfold node_of, nexts_of. do 2 f_equal.
           apply fmap_seq_ext. intros L HL.
           by rewrite first_at_with_value.
        -- intros Hadd. apply Hdp. rewrite Hadd.
           apply (list_elem_of_fmap_2 e_addr). rewrite Hsp.
           apply elem_of_app. right. left.
      * apply nodes_ok_cons. split.
        -- unfold m'. cbn [with_value e_addr].
           by rewrite lookup_insert_eq, app_nil_r.
        -- eapply nodes_ok_frame; [|exact Hsuf]. intros c Hc.
           unfold m'. rewrite lookup_insert_ne; [done|].
           intros Hadd. apply Hds. rewrite Hadd.
           by apply (list_elem_of_fmap_2 e_addr).
    + by rewrite app_comm_cons, fmap_app, fmap_cons in *.
    + rewrite Hl in Hheights. apply Forall_app in Hheights as [H1 H2].
      apply Forall_cons in H2 as [H2 H3]. apply Forall_app. split; [done|].
      by constructor.
    + done.
Qed.

End AddOrSet.

(** ** What the traversals see *)

Section Observe.

Implicit Types (l r pre : list entry) (e c d z : entry) (L j : nat) (m : heap).

(** The cells of [l] that take part in level [L]. *)
Definition at_level (L : nat) (l : list entry) : list entry :=
  filter (λ e, L < e_h e) l.

Definition pair_of (e : entry) : voidp * voidp := (e_k e, e_v e).

Lemma walk_level_spec m hde l L r :
  skl m hde l →
  ∀ pre fuel, hde :: l = pre ++ r → length r < fuel →
    walk_level fuel m (first_at L r) L = Some (e_ptr <$> at_level L r).
Proof.
  intros Hs. induction r as [|e r IH]; intros pre fuel Heq Hfuel;
    (destruct fuel as [|fuel]; [simpl in Hfuel; lia|]).
  - done.
  - cbn [first_at]. unfold at_level. destruct (decide (L < e_h e)) as [He|He].
    + rewrite filter_cons_True by done. cbn [walk_level IS_SENTINEL e_ptr].
      change (Ptr (e_addr e)) with (e_ptr e).
      rewrite (get_next_at m hde l pre e r L Hs Heq He). obind.
      rewrite (IH (pre ++ [e]) fuel).
      * done.
      * rewrite Heq. list_assoc.
      * simpl in Hfuel. lia.
    + rewrite filter_cons_False by done.
      apply (IH (pre ++ [e]) (S fuel)).
      * rewrite Heq. list_assoc.
      * simpl in Hfuel. lia.
Qed.

Lemma level_list_spec sl m hde l L :
  head sl = e_ptr hde → skl m hde l → L < e_h hde →
  level_list sl m L = Some (e_ptr <$> at_level L l).
Proof.
  intros Hhd Hs HL. unfold level_list. rewrite Hhd.
  rewrite (get_next_at m hde l [] hde l L Hs eq_refl HL). obind.
  apply (walk_level_spec m hde l L l Hs [hde]); [done|].
  pose proof (skl_size _ _ _ Hs). lia.
Qed.

Lemma mapM_deref m hde l r :
  skl m hde l → (∀ e, e ∈ r → e ∈ l) →
  mapM (λ n, node_k <$> deref m n) (e_ptr <$> r) = Some (e_k <$> r).
Proof.
  intros Hs. induction r as [|e r IH]; intros Hin; [done|].
  rewrite !fmap_cons. cbn [mapM].
  destruct (skl_deref_in m hde l e Hs) as [rest ->]; [apply Hin; left|].
  cbn [fmap option_fmap option_map mbind option_bind node_k node_of].
  rewrite IH; [done|]. intros e' He'. apply Hin. by right.
Qed.

Lemma level_keys_spec sl m hde l L :
  head sl = e_ptr hde → skl m hde l → L < e_h hde →
  level_keys sl m L = Some (e_k <$> at_level L l).
Proof.
  intros Hhd Hs HL. unfold level_keys.
  rewrite (level_list_spec sl m hde l L Hhd Hs HL). obind.
  apply (mapM_deref m hde l); [done|].
  intros e He. unfold at_level in He. by apply list_elem_of_filter in He as [_ ?].
Qed.

Lemma walk_collect m hde l r :
  skl m hde l →
  ∀ pre fuel acc, hde :: l = pre ++ r → pre ≠ [] → length r < fuel →
    walk_and_apply fuel m (first_at 0 r) collect_cb acc =
    Some (acc ++ (pair_of <$> r)).
Proof.
  intros Hs. induction r as [|e r IH]; intros pre fuel acc Heq Hpre Hfuel;
    (destruct fuel as [|fuel]; [simpl in Hfuel; lia|]).
  - cbn. by rewrite app_nil_r.
  - assert (He : 1 ≤ e_h e).
    { apply skl_pos in Hs. destruct pre as [|y pre]; [done|].
      inversion Heq; subst. apply Forall_app in Hs as [_ Hs].
      by apply Forall_cons in Hs as [? _]. }
    cbn [first_at]. rewrite decide_True by lia.
    cbn [walk_and_apply IS_SENTINEL e_ptr].
    change (Ptr (e_addr e)) with (e_ptr e).
    rewrite (deref_at m hde l pre e r Hs Heq). obind.
    cbn [collect_cb]. rewrite nexts_of_lookup by lia. obind.
    rewrite (IH (pre ++ [e]) fuel).
    + rewrite fmap_cons. f_equal. list_assoc.
    + rewrite Heq. list_assoc.
    + by destruct pre.
    + simpl in Hfuel. lia.
Qed.

(** Iteration visits the stored pairs in level-0 order. *)
Lemma entries_spec sl m hde l :
  head sl = e_ptr hde → skl m hde l →
  entries sl m = Some (pair_of <$> l).
Proof.
  intros Hhd Hs. unfold entries, skiplist_iter. rewrite Hhd.
  rewrite (get_next_at m hde l [] hde l 0 Hs eq_refl) by (destruct Hs; lia).
  obind.
  rewrite (walk_collect m hde l l Hs [hde]); [done|done|done|].
  pose proof (skl_size _ _ _ Hs). lia.
Qed.

Lemma skiplist_first_spec sl m hde l key value :
  head sl = e_ptr hde → skl m hde l →
  skiplist_first sl m key value =
  Some (match l with
        | [] => (false, key, value)
        | e :: _ => (true, store_out key (e_k e), store_out value (e_v e))
        end).
Proof.
  intros Hhd Hs. unfold skiplist_first. rewrite Hhd.
  rewrite (get_next_at m hde l [] hde l 0 Hs eq_refl) by (destruct Hs; lia).
  obind. rewrite first_at_0 by (by eapply skl_pos).
  destruct l as [|e l]; [done|].
  cbn [IS_SENTINEL e_ptr]. change (Ptr (e_addr e)) with (e_ptr e).
  by rewrite (deref_at m hde (e :: l) [hde] e l Hs eq_refl).
Qed.

(** A cell of level [L] is a cell of every level below. *)
Lemma at_level_mono L L' l e :
  L' ≤ L → e ∈ at_level L l → e ∈ at_level L' l.
Proof.
  unfold at_level. rewrite !list_elem_of_filter. intros HL [He Hin].
  split; [lia | done].
Qed.

End Observe.

(** ** Order is kept *)

Section Sorted.

Context (cmp : voidp → voidp → Z).

Implicit Types (l r pre : list entry) (e c d z : entry) (L j : nat) (m : heap).

Lemma sorted_app_inv l1 l2 : sorted cmp (l1 ++ l2) → sorted cmp l1 ∧ sorted cmp l2.
Proof. unfold sorted. rewrite StronglySorted_app. tauto. Qed.

Lemma sorted_remove l1 mid l2 :
  sorted cmp (l1 ++ mid ++ l2) → sorted cmp (l1 ++ l2).
Proof.
  unfold sorted. rewrite !StronglySorted_app.
  intros (H12 & H1 & _ & _ & H2). split; [|done].
  intros x1 x2 Hx1 Hx2. apply H12; [done|]. apply elem_of_app. by right.
Qed.

Lemma sorted_remove_one l1 d l2 :
  sorted cmp (l1 ++ d :: l2) → sorted cmp (l1 ++ l2).
Proof. apply (sorted_remove l1 [d] l2). Qed.

Lemma sorted_with_value l1 e value l2 :
  sorted cmp (l1 ++ e :: l2) → sorted cmp (l1 ++ with_value e value :: l2).
Proof.
  unfold sorted. rewrite !StronglySorted_app, !StronglySorted_cons.
  intros (H12 & H1 & He & H2). split; [|done].
  intros x1 x2 Hx1 [->|Hx2]%elem_of_cons.
  - apply (H12 x1 e Hx1). left.
  - apply H12; [done|]. by right.
Qed.

Lemma sorted_insert key l x :
  three_way cmp → sorted cmp l → e_k x = key →
  sorted cmp (below cmp key l ++ x :: from cmp key l).
Proof.
  intros Hcmp Hs Hx.
  pose proof (below_lt cmp key l) as Hlt.
  pose proof (from_ge cmp Hcmp key l Hs) as Hge.
  rewrite <- (below_from cmp key l) in Hs.
  unfold sorted in *. apply StronglySorted_app in Hs as (H12 & H1 & H2).
  apply StronglySorted_app. split; [|split; [done|]].
  - intros x1 x2 Hx1 [->|Hx2]%elem_of_cons; [|by apply H12].
    eapply Forall_forall in Hlt; [|exact Hx1].
    unfold key_le, key_lt in *. rewrite Hx. lia.
  - apply StronglySorted_cons. split; [|done].
    eapply Forall_impl; [exact Hge|]. intros e He.
    unfold key_le, key_lt in *. rewrite Hx.
    apply (cmp_ge_flip cmp Hcmp). lia.
Qed.

End Sorted.

(** ** The invariant of the container *)

Section Invariant.

Context (cmp : voidp → voidp → Z) (MAX : nat).

Implicit Types (l r pre : list entry) (e c d z : entry) (L j : nat) (m : heap).

(** The container holds the entries [l]: its head is the head cell of a
    skip list over [l], and [l] is in key order. *)
Definition holds (s : skiplist * heap) (l : list entry) : Prop :=
  ∃ hde, head s.1 = e_ptr hde ∧ skl s.2 hde l ∧ sorted cmp l.

(** [count] holds a [size_t]. *)
Definition in_range (sl : skiplist) : Prop := (0 ≤ count sl < SIZE_MAX1)%Z.

Definition inv (s : skiplist * heap) : Prop :=
  in_range s.1 ∧ ∃ l, holds s l.

Lemma size_t_range (z : Z) : (0 ≤ size_t z < SIZE_MAX1)%Z.
Proof. unfold size_t. apply Z.mod_pos_bound. done. Qed.

Lemma decrements_range (cnt : Z) r :
  (0 ≤ cnt < SIZE_MAX1)%Z → (0 ≤ decrements cnt r < SIZE_MAX1)%Z.
Proof.
  revert cnt. induction r as [|e r IH]; intros cnt Hc; cbn; [done|].
  apply IH, size_t_range.
Qed.

Ltac solve_range :=
  unfold in_range in *; cbn [fst snd count] in *;
  first [done | apply size_t_range
        | apply decrements_range; first [done | apply size_t_range]].

Lemma skl_alloc m hde l a n :
  skl m hde l → m !! a = None → skl (<[a := n]> m) hde l.
Proof.
  intros [Hnodes Hnd Hh Hhh] Ha. split; [|done|done|done].
  eapply nodes_ok_frame; [|exact Hnodes]. intros e He.
  rewrite lookup_insert_ne; [done|]. intros ->.
  apply list_elem_of_split in He as (pre & r & Heq).
  specialize (Hnodes pre e r Heq). congruence.
Qed.

Lemma holds_new head_res s :
  skiplist_new false true head_res = Some s → holds s [].
Proof.
  unfold skiplist_new. destruct head_res as [a|]; [|done].
  cbn [node_alloc]. intros [= <-].
  exists (mk_entry a 1 SENTINEL_REF SENTINEL_REF). split; [done|].
  split; [|constructor]. split.
  - apply nodes_ok_cons. split; [|apply nodes_ok_nil].
    cbn [snd e_addr]. by rewrite lookup_insert_eq.
  - rewrite fmap_cons. apply NoDup_cons.
    split; [apply not_elem_of_nil | apply NoDup_nil_2].
  - constructor.
  - done.
Qed.

(** What the lookup finds is at the front of the part not below the key. *)
Lemma lookup_entry_Some key l e :
  lookup_entry cmp key l = Some e →
  ∃ l2, from cmp key l = e :: l2 ∧ cmp (e_k e) key = 0%Z.
Proof.
  unfold lookup_entry. destruct (from cmp key l) as [|x l2]; [done|].
  case_decide; [|done]. intros [= <-]. eauto.
Qed.


Lemma eq_run_cons_lookup key l d r :
  eq_run cmp key (from cmp key l) = d :: r →
  lookup_entry cmp key l = Some d.
Proof.
  unfold lookup_entry. destruct (from cmp key l) as [|x l2]; [done|].
  cbn [eq_run]. case_decide; [|done]. by intros [= <- _].
Qed.

Lemma pop_last_loop_empty m hde :
  skl m hde [] →
  ∀ lvl fuel (prevs : list node_ptr), lvl < e_h hde → lvl < fuel →
    ∃ res, pop_last_loop fuel m (e_ptr hde) lvl prevs = Some (e_ptr hde, res).
Proof.
  intros Hs. induction lvl as [|lvl IH]; intros fuel prevs Hl Hf;
    (destruct fuel as [|fuel]; [lia|]); cbn [pop_last_loop];
    rewrite (get_next_at m hde [] [] hde [] _ Hs eq_refl Hl); obind;
    cbn [first_at IS_SENTINEL]; obind.
  - eauto.
  - apply IH; lia.
Qed.

(** With a stale non-zero [count] on an empty list, [skiplist_pop_last]
    walks to the sentinel and releases it: the call has no result. *)
Lemma pop_last_stale sl m hde key value :
  head sl = e_ptr hde → skl m hde [] → count sl ≠ 0%Z →
  skiplist_pop_last sl m key value = None.
Proof.
  intros Hhd Hs Hc. unfold skiplist_pop_last. rewrite Hhd.
  rewrite (deref_at m hde [] [] hde [] Hs eq_refl). obind.
  destruct (e_h hde) as [|lvl] eqn:Hh; [destruct Hs; lia|].
  rewrite decide_False by done.
  destruct (pop_last_loop_empty m hde Hs lvl (size m + S lvl)
              (replicate (S lvl) SENTINEL)) as (res & ->); [lia | lia |].
  obind.
  rewrite (get_next_at m hde [] [] hde [] 0 Hs eq_refl) by lia.
  done.
Qed.

Hypothesis cmp_ok : three_way cmp.
Hypothesis MAX_pos : 1 ≤ MAX.

(** Every public operation that returns keeps the invariant. *)
Lemma exec_op_inv o s s' :
  inv s → exec_op cmp MAX o s = Some s' → inv s'.
Proof.
  intros [Hr (l & hde & Hhd & Hs & Hsorted)]. destruct s as [sl m].
  cbn [fst snd] in *. destruct o; cbn [exec_op].
  - (* add *)
    case_decide as Hal; [|done]. unfold skiplist_add.
    assert (Hnr : false = true → lookup_entry cmp key l = None) by done.
    pose proof (add_or_set_insert cmp MAX sl m hde l false key value None r
                  nn_res hd_res Hhd Hs Hsorted cmp_ok MAX_pos Hal Hnr)
      as Hadd.
    cbn zeta in Hadd.
    destruct nn_res as [a|].
    + destruct (decide (e_h hde < SKIPLIST_GEN_HEIGHT MAX r)).
      * destruct hd_res as [b|].
        -- destruct Hadd as (m' & -> & Hs'). obind. intros [= <-]. split; [solve_range|].
           eexists. eexists (mk_entry b _ SENTINEL_REF SENTINEL_REF).
           split; [done|]. split; [exact Hs'|].
           by apply sorted_insert.
        -- rewrite Hadd. obind. intros [= <-]. split; [solve_range|]. exists l, hde.
           split; [done|]. split; [|done]. apply skl_alloc; [done|].
           by destruct Hal as [? _].
      * destruct Hadd as (m' & -> & Hs'). obind. intros [= <-]. split; [solve_range|].
        eexists. exists hde. split; [done|]. split; [exact Hs'|].
        by apply sorted_insert.
    + rewrite Hadd. obind. intros [= <-]. split; [solve_range|]. by exists l, hde.
  - (* set *)
    case_decide as Hal; [|done]. unfold skiplist_set.
    destruct (lookup_entry cmp key l) as [e|] eqn:Hlk.
    + apply lookup_entry_Some in Hlk as (l2 & Hfrom & Heq).
      destruct (add_or_set_replace cmp MAX sl m hde l key value old r
                  nn_res hd_res e l2 Hhd Hs Hsorted cmp_ok Hfrom Heq)
        as [-> Hs'].
      obind. intros [= <-]. split; [solve_range|]. eexists. exists hde. split; [done|].
      split; [exact Hs'|]. apply sorted_with_value.
      by rewrite <- Hfrom, below_from.
    + assert (Hnr : true = true → lookup_entry cmp key l = None) by done.
      pose proof (add_or_set_insert cmp MAX sl m hde l true key value old r
                    nn_res hd_res Hhd Hs Hsorted cmp_ok MAX_pos Hal Hnr)
        as Hadd.
      cbn zeta in Hadd.
      destruct nn_res as [a|].
      * destruct (decide (e_h hde < SKIPLIST_GEN_HEIGHT MAX r)).
        -- destruct hd_res as [b|].
           ++ destruct Hadd as (m' & -> & Hs'). obind. intros [= <-]. split; [solve_range|].
              eexists. eexists (mk_entry b _ SENTINEL_REF SENTINEL_REF).
              split; [done|]. split; [exact Hs'|].
              by apply sorted_insert.
           ++ rewrite Hadd. obind. intros [= <-]. split; [solve_range|]. exists l, hde.
              split; [done|]. split; [|done]. apply skl_alloc; [done|].
              by destruct Hal as [? _].
        -- destruct Hadd as (m' & -> & Hs'). obind. intros [= <-]. split; [solve_range|].
           eexists. exists hde. split; [done|]. split; [exact Hs'|].
           by apply sorted_insert.
      * rewrite Hadd. obind. intros [= <-]. split; [solve_range|]. by exists l, hde.
  - (* delete *)
    unfold skiplist_delete.
    destruct (lookup_entry cmp key l) as [e|] eqn:Hlk.
    + apply lookup_entry_Some in Hlk as (l2 & Hfrom & Heq).
      destruct (delete_one_spec cmp sl m hde l key () value e l2
                  Hhd Hs Hsorted cmp_ok Hfrom Heq) as (m' & -> & Hs' & _).
      obind. intros [= <-]. split; [solve_range|]. eexists. exists hde. split; [done|].
      split; [exact Hs'|]. apply (sorted_remove_one cmp _ e).
      by rewrite <- Hfrom, below_from.
    + rewrite (delete_absent_spec cmp sl m hde l key None () value
                 Hhd Hs Hsorted cmp_ok Hlk).
      obind. intros [= <-]. split; [solve_range|]. by exists l, hde.
  - (* delete_all *)
    unfold skiplist_delete_all.
    destruct (eq_run cmp key (from cmp key l)) as [|d r] eqn:Hrun.
    + assert (Hlk : lookup_entry cmp key l = None).
      { unfold lookup_entry. destruct (from cmp key l) as [|x l2]; [done|].
        cbn [eq_run] in Hrun. by case_decide. }
      rewrite (delete_absent_spec cmp sl m hde l key (Some log_cb) [] None
                 Hhd Hs Hsorted cmp_ok Hlk).
      obind. intros [= <-]. split; [solve_range|]. by exists l, hde.
    + destruct (delete_all_spec cmp sl m hde l key log_cb [] None d r
                  Hhd Hs Hsorted cmp_ok Hrun) as (m' & -> & Hs' & _).
      obind. intros [= <-]. split; [solve_range|]. eexists. exists hde. split; [done|].
      split; [exact Hs'|].
      apply (sorted_remove cmp _ (eq_run cmp key (from cmp key l))).
      by rewrite eq_run_after, below_from.
  - (* get *)
    intros (? & _ & [= <-])%bind_Some. split; [done|]. by exists l, hde.
  - (* member *)
    intros (? & _ & [= <-])%bind_Some. split; [done|]. by exists l, hde.
  - (* first *)
    intros (? & _ & [= <-])%bind_Some. split; [done|]. by exists l, hde.
  - (* last *)
    intros (? & _ & [= <-])%bind_Some. split; [done|]. by exists l, hde.
  - (* pop_first *)
    destruct l as [|f l].
    + rewrite (pop_first_empty_spec sl m hde key value Hhd Hs).
      obind. intros [= <-]. split; [solve_range|]. by exists [], hde.
    + destruct (pop_first_spec sl m hde f l key value Hhd Hs)
        as (m' & -> & Hs' & _).
      obind. intros [= <-]. split; [solve_range|]. exists l, hde. split; [done|].
      split; [exact Hs'|]. by apply StronglySorted_inv in Hsorted as [? _].
  - (* pop_last *)
    destruct (decide (count sl = 0%Z)) as [Hc|Hc].
    + rewrite (pop_last_zero_spec sl m hde l key value Hhd Hs Hc).
      obind. intros [= <-]. split; [solve_range|]. by exists l, hde.
    + destruct l as [|z l1 _] using rev_ind.
      * by rewrite (pop_last_stale sl m hde key value Hhd Hs Hc).
      * destruct (pop_last_spec sl m hde l1 z key value Hhd Hs Hc)
          as (m' & -> & Hs' & _).
        obind. intros [= <-]. split; [solve_range|]. exists l1, hde. split; [done|].
        split; [exact Hs'|]. by apply sorted_app_inv in Hsorted as [? _].
  - (* count *) intros [= <-]. split; [done|]. by exists l, hde.
  - (* empty *) intros [= <-]. split; [done|]. by exists l, hde.
  - (* iter *)
    intros (? & _ & [= <-])%bind_Some. split; [done|]. by exists l, hde.
  - (* iter_from *)
    intros (? & _ & [= <-])%bind_Some. split; [done|]. by exists l, hde.
  - (* clear *)
    destruct (skiplist_clear_spec sl m hde l
                (if with_cb then Some log_cb else None) [] Hhd Hs)
      as (m' & -> & Hs' & _).
    obind. intros [= <-]. split; [solve_range|]. exists [], hde. split; [done|].
    split; [exact Hs'|]. constructor.
Qed.

Lemma run_inv ops s s' :
  inv s → run cmp MAX ops s = Some s' → inv s'.
Proof.
  revert s. induction ops as [|o ops IH]; intros s Hinv; cbn [run].
  - by intros [= <-].
  - intros (s1 & Hop & Hrun)%bind_Some.
    eapply IH; [|exact Hrun]. by eapply exec_op_inv.
Qed.

(** Every container that public calls can produce holds a sorted list. *)
Lemma reachable_inv s : reachable cmp MAX s → inv s.
Proof.
  intros (head_res & ops & s0 & Hnew & Hrun).
  eapply run_inv; [|exact Hrun]. split.
  - unfold skiplist_new in Hnew. destruct head_res; [|done].
    cbn [node_alloc] in Hnew. injection Hnew as <-. by unfold in_range.
  - exists []. by eapply holds_new.
Qed.

End Invariant.

(** * The claims *)

(** ** The integer client *)

Lemma cmp_int_three_way : three_way cmp_int.
Proof.
  split.
  - intros a b. unfold cmp_int. lia.
  - intros a b c. unfold cmp_int. lia.
Qed.

(** Keys along one level never decrease. *)
Definition keys_sorted (cmp : voidp → voidp → Z) (ks : list voidp) : Prop :=
  StronglySorted (λ a b, (cmp a b ≤ 0)%Z) ks.

(** Keys along one level strictly increase. *)
Definition keys_increasing (cmp : voidp → voidp → Z) (ks : list voidp)
  : Prop :=
  StronglySorted (λ a b, (cmp a b < 0)%Z) ks.

(** The structural invariants of a container: every level of the head is a
    sentinel-terminated list in key order, and the cells of a level are
    cells of every level below it. *)
Definition levels_ok (cmp : voidp → voidp → Z) (s : skiplist * heap) : Prop :=
  ∃ hn, deref s.2 (head s.1) = Some hn ∧ 1 ≤ node_h hn ∧
    ∀ L, L < node_h hn →
      ∃ ns ks, level_list s.1 s.2 L = Some ns ∧
               level_keys s.1 s.2 L = Some ks ∧
               keys_sorted cmp ks ∧
               ∀ L', L' ≤ L →
                 ∃ ns', level_list s.1 s.2 L' = Some ns' ∧ ns ⊆ ns'.

Section Claims.

Context (cmp : voidp → voidp → Z) (MAX : nat).

Implicit Types (l r pre : list entry) (e c d z : entry) (L j : nat) (m : heap).

Lemma holds_levels_ok s l : holds cmp s l → levels_ok cmp s.
Proof.
  destruct s as [sl m]. intros (hde & Hhd & Hs & Hsorted).
  unfold levels_ok. cbn [fst snd] in *. exists (node_of hde l). split.
  { rewrite Hhd. by apply (deref_at m hde l [] hde l). }
  split; [destruct Hs; done|].
  cbn [node_of node_h]. intros L HL.
  exists (e_ptr <$> at_level L l), (e_k <$> at_level L l).
  split; [by apply (level_list_spec sl m hde l)|].
  split; [by apply (level_keys_spec sl m hde l)|].
  split.
  - unfold keys_sorted. eapply (StronglySorted_fmap e_k (key_le cmp)); [done|].
    unfold at_level.
    clear -Hsorted. induction Hsorted as [|e l Hl IH He]; [constructor|].
    rewrite filter_cons. case_decide; [|done].
    constructor; [done|].
    apply Forall_forall. intros x [_ Hx]%list_elem_of_filter.
    by eapply Forall_forall in He.
  - intros L' HL'. exists (e_ptr <$> at_level L' l).
    split; [apply (level_list_spec sl m hde l); [done|done|lia]|].
    intros p (e & -> & He)%list_elem_of_fmap.
    apply list_elem_of_fmap_2. by eapply at_level_mono.
Qed.

(** C2 (as amended): in every container that public calls can produce,
    inserts of equal keys included, each level reachable from the head is a
    sentinel-terminated list whose keys never decrease under the comparator,
    and every cell of level L is a cell of each level 0..L. *)
Theorem reachable_levels_ordered s :
  three_way cmp → 1 ≤ MAX → reachable cmp MAX s → levels_ok cmp s.
Proof.
  intros Hcmp HMAX Hreach.
  destruct (reachable_inv cmp MAX Hcmp HMAX s Hreach) as [_ (l & Hl)].
  by eapply holds_levels_ok.
Qed.

End Claims.

(** Two inserts under one key, then a third key. *)
Definition two_equal_keys : list op :=
  [op_add (Obj 10) (Obj 1) 0 (Some 1) (Some 101);
   op_add (Obj 10) (Obj 2) 1 (Some 2) (Some 102);
   op_add (Obj 30) (Obj 3) 0 (Some 3) (Some 103)].

Definition fresh_container : skiplist * heap :=
  (mk_skiplist 0 (Ptr 100),
   <[100 := mk_node 1 SENTINEL_REF SENTINEL_REF [SENTINEL]]> ∅).

Definition run_from_fresh (ops : list op) : skiplist * heap :=
  default fresh_container (run cmp_int 8 ops fresh_container).

Lemma run_from_fresh_reachable ops :
  is_Some (run cmp_int 8 ops fresh_container) →
  reachable cmp_int 8 (run_from_fresh ops).
Proof.
  intros [s Hs]. exists (Some 100), ops, fresh_container.
  split; [done|]. unfold run_from_fresh. by rewrite Hs.
Qed.

Lemma reachable_levels_ordered_witness :
  levels_ok cmp_int (run_from_fresh two_equal_keys).
Proof.
  apply (reachable_levels_ordered cmp_int 8).
  - exact cmp_int_three_way.
  - lia.
  - apply run_from_fresh_reachable. vm_compute. eauto.
Defined.

(** C2 as stated fails: after two inserts under one key the level-0 list
    holds that key twice, so it is not strictly increasing. *)
Lemma equal_keys_not_increasing :
  ¬ (∀ s, reachable cmp_int 8 s →
       ∀ L ks, level_keys s.1 s.2 L = Some ks → keys_increasing cmp_int ks).
Proof.
  intros H.
  specialize (H (run_from_fresh two_equal_keys)).
  assert (Hr : reachable cmp_int 8 (run_from_fresh two_equal_keys)).
  { apply run_from_fresh_reachable. vm_compute. eauto. }
  specialize (H Hr 0 [Obj 10; Obj 10; Obj 30]).
  assert (Hk : level_keys (run_from_fresh two_equal_keys).1
                 (run_from_fresh two_equal_keys).2 0 =
               Some [Obj 10; Obj 10; Obj 30]) by (vm_compute; reflexivity).
  specialize (H Hk). unfold keys_increasing in H.
  apply StronglySorted_inv in H as [_ H]. apply Forall_cons in H as [H _].
  vm_compute in H. discriminate.
Qed.

Section Bridge.

Context (cmp : voidp → voidp → Z) (MAX : nat).

Implicit Types (l r pre : list entry) (e c d z : entry) (L j : nat) (m : heap).

(** A reachable container holds a sorted list, which is what iteration
    shows. *)
Lemma reachable_holds s :
  three_way cmp → 1 ≤ MAX → reachable cmp MAX s →
  ∃ l, holds cmp s l ∧ in_range s.1 ∧
       entries s.1 s.2 = Some (pair_of <$> l).
Proof.
  intros Hcmp HMAX Hreach.
  destruct (reachable_inv cmp MAX Hcmp HMAX s Hreach) as [Hr (l & Hl)].
  exists l. split; [done|]. split; [done|].
  destruct Hl as (hde & Hhd & Hs & _). by apply (entries_spec _ _ hde).
Qed.

Lemma holds_entries s l :
  holds cmp s l → entries s.1 s.2 = Some (pair_of <$> l).
Proof. intros (hde & Hhd & Hs & _). by apply (entries_spec _ _ hde). Qed.

Lemma filter_pairs (P : voidp * voidp → Prop) `{∀ x, Decision (P x)} l :
  filter P (pair_of <$> l) = pair_of <$> filter (λ e, P (pair_of e)) l.
Proof.
  induction l as [|e l IH]; [done|].
  rewrite fmap_cons, !filter_cons, IH. by case_decide.
Qed.

Lemma fold_left_pairs {A} (f : A → voidp * voidp → A) l (a : A) :
  fold_left f (pair_of <$> l) a = fold_left (λ u e, f u (pair_of e)) l a.
Proof. revert a. induction l as [|e l IH]; intros a; [done|]. apply IH. Qed.

(** The same container in a heap with one more block. *)
Lemma holds_alloc sl m l a n :
  holds cmp (sl, m) l → m !! a = None → holds cmp (sl, <[a := n]> m) l.
Proof.
  intros (hde & Hhd & Hs & Hsorted) Ha. exists hde.
  split; [done|]. split; [|done]. by apply skl_alloc.
Qed.

Lemma level_list_above sl m hde l L :
  head sl = e_ptr hde → skl m hde l → e_h hde ≤ L →
  level_list sl m L = None.
Proof.
  intros Hhd Hs HL. unfold level_list, get_next. rewrite Hhd.
  rewrite (deref_at m hde l [] hde l Hs eq_refl). obind.
  rewrite lookup_ge_None_2; [done|]. by rewrite nexts_of_length.
Qed.

(** Two heaps that hold the same list under the same head show the same
    levels. *)
Lemma same_levels sl m m' hde l L :
  head sl = e_ptr hde → skl m hde l → skl m' hde l →
  level_list sl m' L = level_list sl m L.
Proof.
  intros Hhd Hs Hs'. destruct (decide (L < e_h hde)) as [HL|HL].
  - rewrite (level_list_spec sl m hde l L) by done.
    by rewrite (level_list_spec sl m' hde l L).
  - rewrite (level_list_above sl m hde l L) by (done || lia).
    by rewrite (level_list_above sl m' hde l L) by (done || lia).
Qed.

Hypothesis cmp_ok : three_way cmp.
Hypothesis MAX_pos : 1 ≤ MAX.

(** The outcome of a plain insert into a container that holds [l]. *)
Lemma skiplist_add_spec sl m l key value (rnd : Z) nn_res hd_res :
  holds cmp (sl, m) l → allocs_ok m nn_res hd_res →
  ∃ hde, head sl = e_ptr hde ∧ skl m hde l ∧
  ∃ b sl' m',
    skiplist_add cmp MAX sl m key value rnd nn_res hd_res =
      Some (b, sl', m') ∧
    (b = false ↔
       nn_res = None ∨
       (hd_res = None ∧ e_h hde < SKIPLIST_GEN_HEIGHT MAX rnd)) ∧
    (b = false → sl' = sl ∧ skl m' hde l ∧
                 ∀ a n, m !! a = Some n → m' !! a = Some n) ∧
    (b = true →
       count sl' = size_t (count sl + 1) ∧
       ∃ a, nn_res = Some a ∧
            holds cmp (sl', m')
              (below cmp key l ++
               mk_entry a (SKIPLIST_GEN_HEIGHT MAX rnd) key value ::
               from cmp key l)).
Proof.
  intros (hde & Hhd & Hs & Hsorted) Hal. cbn [fst snd] in *.
  exists hde. split; [done|]. split; [done|].
  set (hx := SKIPLIST_GEN_HEIGHT MAX rnd).
  assert (Hnr : false = true → lookup_entry cmp key l = None) by done.
  pose proof (add_or_set_insert cmp MAX sl m hde l false key value None rnd
                nn_res hd_res Hhd Hs Hsorted cmp_ok MAX_pos Hal Hnr) as Hadd.
  cbn zeta in Hadd. fold hx in Hadd. unfold skiplist_add.
  destruct nn_res as [a|].
  - destruct (decide (e_h hde < hx)) as [Hg|Hg].
    + destruct hd_res as [b|].
      * destruct Hadd as (m' & -> & Hs'). obind.
        eexists true, _, m'. split; [done|]. split.
        { split; [done|]. intros [?|[? _]]; done. }
        split; [done|]. intros _. split; [done|]. exists a. split; [done|].
        exists (mk_entry b hx SENTINEL_REF SENTINEL_REF).
        split; [done|]. split; [done|]. by apply sorted_insert.
      * rewrite Hadd. obind. eexists false, sl, _. split; [done|].
        split; [split; [intros _; by right | done]|].
        split; [|done]. intros _. split; [done|].
        destruct Hal as [Hfa _]. simpl in Hfa.
        split; [by apply skl_alloc|].
        intros a' n Ha'. rewrite lookup_insert_ne; [done|]. congruence.
    + destruct Hadd as (m' & -> & Hs'). obind.
      eexists true, _, m'. split; [done|]. split.
      { split; [done|]. intros [?|[_ ?]]; done. }
      split; [done|]. intros _. split; [done|]. exists a. split; [done|].
      exists hde. split; [done|]. split; [done|]. by apply sorted_insert.
  - rewrite Hadd. obind. eexists false, sl, m. split; [done|].
    split; [split; [intros _; by left | done]|].
    split; [|done]. intros _. done.
Qed.

(** C1: the count field is meant to equal the number of entries that a
    level-0 traversal visits, so that after [clear] the count reads 0 and
    the container reports empty. [skiplist_clear] releases every entry and
    returns how many there were, but hands back the container fields
    untouched: the count it leaves is the count from before the call. *)
Theorem clear_keeps_count {U} s (cb : option (skiplist_free_cb U)) udata :
  reachable cmp MAX s →
  ∃ es ct m' u',
    entries s.1 s.2 = Some es ∧
    skiplist_clear s.1 s.2 cb udata = Some (ct, s.1, m', u') ∧
    ct = size_t (Z.of_nat (length es)) ∧
    entries s.1 m' = Some [].
Proof.
  intros Hreach.
  destruct (reachable_holds s cmp_ok MAX_pos Hreach)
    as (l & (hde & Hhd & Hs & Hsorted) & Hr & Hes).
  destruct (skiplist_clear_spec s.1 s.2 hde l cb udata Hhd Hs)
    as (m' & Hclear & Hs' & _).
  exists (pair_of <$> l), (size_t (Z.of_nat (length l))), m',
         (dispose cb l udata).
  split; [done|]. split; [done|]. split; [by rewrite length_fmap|].
  by apply (entries_spec s.1 m' hde []).
Qed.

(** C3: a plain insert returns false only when the allocation of the new
    node fails or, when the node is taller than the head, the allocation of
    the new head fails; and then the container is as before: same head, same
    count, every block of the heap unchanged, the same list at every level,
    so the failed node is linked in nowhere. *)
Theorem insert_fails_only_on_alloc s key value (rnd : Z) nn_res hd_res :
  reachable cmp MAX s → allocs_ok s.2 nn_res hd_res →
  ∃ b sl' m' hn,
    skiplist_add cmp MAX s.1 s.2 key value rnd nn_res hd_res =
      Some (b, sl', m') ∧
    deref s.2 (head s.1) = Some hn ∧
    (b = false ↔
       nn_res = None ∨
       (hd_res = None ∧ node_h hn < SKIPLIST_GEN_HEIGHT MAX rnd)) ∧
    (b = false →
       sl' = s.1 ∧
       (∀ a n, s.2 !! a = Some n → m' !! a = Some n) ∧
       (∀ L, level_list sl' m' L = level_list s.1 s.2 L) ∧
       entries sl' m' = entries s.1 s.2).
Proof.
  intros Hreach Hal. destruct s as [sl m]. cbn [fst snd] in *.
  destruct (reachable_holds (sl, m) cmp_ok MAX_pos Hreach)
    as (l & Hl & Hr & Hes).
  destruct (skiplist_add_spec sl m l key value rnd nn_res hd_res Hl Hal)
    as (hde & Hhd & Hs & b & sl' & m' & Hadd & Hiff & Hfail & _).
  exists b, sl', m', (node_of hde l). split; [done|]. split.
  { rewrite Hhd. by apply (deref_at m hde l [] hde l). }
  split; [done|]. intros Hb. destruct (Hfail Hb) as (-> & Hs' & Hfr).
  split; [done|]. split; [done|]. split.
  - intros L. by apply (same_levels sl m m' hde l).
  - cbn [fst snd] in Hes. rewrite Hes. by apply (entries_spec sl m' hde l).
Qed.

End Bridge.

Lemma clear_keeps_count_witness :
  (∃ es ct m' u',
     entries (run_from_fresh two_equal_keys).1
             (run_from_fresh two_equal_keys).2 = Some es ∧
     skiplist_clear (run_from_fresh two_equal_keys).1
                    (run_from_fresh two_equal_keys).2
                    (Some log_cb) [] =
       Some (ct, (run_from_fresh two_equal_keys).1, m', u') ∧
     ct = size_t (Z.of_nat (length es)) ∧
     entries (run_from_fresh two_equal_keys).1 m' = Some []) ∧
  skiplist_count (run_from_fresh two_equal_keys).1 = 3%Z ∧
  skiplist_empty (run_from_fresh two_equal_keys).1 = false.
Proof.
  split; [|split; vm_compute; reflexivity].
  apply (clear_keeps_count cmp_int 8 cmp_int_three_way).
  - lia.
  - apply run_from_fresh_reachable. vm_compute. eauto.
Defined.

Lemma insert_fails_only_on_alloc_witness :
  ∃ b sl' m' hn,
    skiplist_add cmp_int 8 (run_from_fresh two_equal_keys).1
      (run_from_fresh two_equal_keys).2 (Obj 20) (Obj 4) 7 (Some 4) None =
      Some (b, sl', m') ∧
    deref (run_from_fresh two_equal_keys).2
          (head (run_from_fresh two_equal_keys).1) = Some hn ∧
    (b = false ↔
       Some 4 = None ∨
       (@None nat = None ∧ node_h hn < SKIPLIST_GEN_HEIGHT 8 7)) ∧
    (b = false →
       sl' = (run_from_fresh two_equal_keys).1 ∧
       (∀ a n, (run_from_fresh two_equal_keys).2 !! a = Some n →
               m' !! a = Some n) ∧
       (∀ L, level_list sl' m' L =
             level_list (run_from_fresh two_equal_keys).1
                        (run_from_fresh two_equal_keys).2 L) ∧
       entries sl' m' = entries (run_from_fresh two_equal_keys).1
                                (run_from_fresh two_equal_keys).2).
Proof.
  apply (insert_fails_only_on_alloc cmp_int 8 cmp_int_three_way).
  - lia.
  - apply run_from_fresh_reachable. vm_compute. eauto.
  - vm_compute. repeat split; (done || (right; discriminate)).
Defined.

(** Whether the cell at [p] holds a key that differs from [key]. *)
Definition differs (cmp : voidp → voidp → Z) (m : heap) (key : voidp)
    (p : node_ptr) : bool :=
  match deref m p with
  | Some n => bool_decide (cmp (node_k n) key ≠ 0%Z)
  | None => false
  end.

Section RemoveAll.

Context (cmp : voidp → voidp → Z) (MAX : nat).
Hypothesis cmp_ok : three_way cmp.
Hypothesis MAX_pos : 1 ≤ MAX.

Implicit Types (l r pre : list entry) (e c d z : entry) (L j : nat) (m : heap).

(** In a sorted list the entries that differ from [key] are those below
    it and those past the run of equal ones. *)
Lemma filter_ne_run key l :
  sorted cmp l →
  filter (λ e, cmp (e_k e) key ≠ 0%Z) l =
  below cmp key l ++ after_run cmp key (from cmp key l).
Proof.
  intros Hs.
  pose proof (after_run_gt cmp cmp_ok key _ (sorted_from cmp key l Hs)
                (from_ge cmp cmp_ok key l Hs)) as Hgt.
  rewrite <- (below_from cmp key l) at 1.
  rewrite <- (eq_run_after cmp key (from cmp key l)) at 1.
  rewrite !filter_app.
  rewrite (filter_all _ (below cmp key l)).
  2:{ eapply Forall_impl; [apply below_lt|]. unfold key_lt. simpl. intros; lia. }
  rewrite (filter_none _ (eq_run cmp key _)).
  2:{ eapply Forall_impl; [apply eq_run_eq|]. simpl. intros; lia. }
  rewrite (filter_all _ (after_run cmp key _)); [done|].
  eapply Forall_impl; [exact Hgt|]. simpl. intros; lia.
Qed.

(** [skiplist_delete_all] on a container that holds [l]. *)
Lemma skiplist_delete_all_holds {U} sl m l key (cb : skiplist_free_cb U)
    udata :
  holds cmp (sl, m) l →
  ∃ m',
    skiplist_delete_all cmp sl m key cb udata =
      Some (mk_skiplist
              (decrements (count sl)
                 (filter (λ e, cmp (e_k e) key = 0%Z) l)) (head sl),
            m',
            dispose_key cb key (filter (λ e, cmp (e_k e) key = 0%Z) l)
              udata) ∧
    holds cmp
      (mk_skiplist
         (decrements (count sl) (filter (λ e, cmp (e_k e) key = 0%Z) l))
         (head sl), m')
      (filter (λ e, cmp (e_k e) key ≠ 0%Z) l).
Proof.
  intros (hde & Hhd & Hs & Hsorted). cbn [fst snd] in *.
  rewrite (filter_eq_run cmp cmp_ok key l Hsorted).
  rewrite (filter_ne_run key l Hsorted).
  unfold skiplist_delete_all.
  destruct (eq_run cmp key (from cmp key l)) as [|d r] eqn:Hrun.
  - assert (Hlk : lookup_entry cmp key l = None).
    { unfold lookup_entry. destruct (from cmp key l) as [|x l2]; [done|].
      cbn [eq_run] in Hrun. by case_decide. }
    rewrite (delete_absent_spec cmp sl m hde l key (Some cb) udata None
               Hhd Hs Hsorted cmp_ok Hlk).
    obind. exists m. cbn [decrements dispose_key fold_left].
    destruct sl as [cnt hd]. split; [done|].
    pose proof (eq_run_after cmp key (from cmp key l)) as Hea.
    rewrite Hrun in Hea. cbn [app] in Hea. rewrite Hea, below_from.
    by exists hde.
  - destruct (delete_all_spec cmp sl m hde l key cb udata None d r
                Hhd Hs Hsorted cmp_ok Hrun) as (m' & -> & Hs' & _).
    obind. exists m'. split; [done|].
    exists hde. split; [done|]. split; [done|].
    apply (sorted_remove cmp _ (eq_run cmp key (from cmp key l))).
    by rewrite eq_run_after, below_from.
Qed.

Lemma decrements_wraps (cnt : Z) r :
  (0 ≤ cnt < SIZE_MAX1)%Z →
  decrements cnt r = size_t (cnt - Z.of_nat (length r)).
Proof.
  revert cnt. induction r as [|e r IH]; intros cnt Hc.
  - cbn. rewrite Z.sub_0_r. unfold size_t. by rewrite Z.mod_small.
  - change (decrements cnt (e :: r)) with (decrements (size_t (cnt - 1)) r).
    rewrite IH by apply size_t_range.
    unfold size_t. rewrite Zminus_mod_idemp_l. f_equal. cbn [length]. lia.
Qed.

Lemma at_level_filter (P : entry → Prop) `{∀ e, Decision (P e)} L l :
  at_level L (filter P l) = filter P (at_level L l).
Proof.
  unfold at_level. induction l as [|e l IH]; [done|].
  rewrite !filter_cons.
  destruct (decide (P e)), (decide (L < e_h e));
    rewrite ?filter_cons, ?decide_True, ?decide_False by done;
    by rewrite ?IH.
Qed.

(** Filtering cells by their stored key is filtering entries by key. *)
Lemma filter_differs m hde l key r :
  skl m hde l → (∀ e, e ∈ r → e ∈ l) →
  filter (λ p, differs cmp m key p = true) (e_ptr <$> r) =
  e_ptr <$> filter (λ e, cmp (e_k e) key ≠ 0%Z) r.
Proof.
  intros Hs. induction r as [|e r IH]; intros Hin; [done|].
  rewrite fmap_cons, !filter_cons.
  destruct (skl_deref_in m hde l e Hs) as [rest He]; [apply Hin; left|].
  assert (Hd : differs cmp m key (e_ptr e) =
               bool_decide (cmp (e_k e) key ≠ 0%Z)).
  { unfold differs. by rewrite He. }
  rewrite Hd, IH by (intros e' He'; apply Hin; by right).
  destruct (decide (cmp (e_k e) key ≠ 0%Z)) as [Hne|Heq].
  - rewrite bool_decide_eq_true_2 by done. by rewrite decide_True.
  - rewrite bool_decide_eq_false_2 by done. by rewrite decide_False.
Qed.

(** [skiplist_delete_all] under the same head cell. *)
Lemma skiplist_delete_all_skl {U} sl m hde l key (cb : skiplist_free_cb U)
    udata :
  head sl = e_ptr hde → skl m hde l → sorted cmp l →
  ∃ m',
    skiplist_delete_all cmp sl m key cb udata =
      Some (mk_skiplist
              (decrements (count sl)
                 (filter (λ e, cmp (e_k e) key = 0%Z) l)) (head sl),
            m',
            dispose_key cb key (filter (λ e, cmp (e_k e) key = 0%Z) l)
              udata) ∧
    skl m' hde (filter (λ e, cmp (e_k e) key ≠ 0%Z) l) ∧
    (∀ e, e ∈ filter (λ e, cmp (e_k e) key = 0%Z) l →
          m' !! e_addr e = None).
Proof.
  intros Hhd Hs Hsorted.
  rewrite (filter_eq_run cmp cmp_ok key l Hsorted).
  rewrite (filter_ne_run key l Hsorted).
  unfold skiplist_delete_all.
  destruct (eq_run cmp key (from cmp key l)) as [|d r] eqn:Hrun.
  - assert (Hlk : lookup_entry cmp key l = None).
    { unfold lookup_entry. destruct (from cmp key l) as [|x l2]; [done|].
      cbn [eq_run] in Hrun. by case_decide. }
    rewrite (delete_absent_spec cmp sl m hde l key (Some cb) udata None
               Hhd Hs Hsorted cmp_ok Hlk).
    obind. exists m. cbn [decrements dispose_key fold_left].
    destruct sl as [cnt hd]. split; [done|].
    pose proof (eq_run_after cmp key (from cmp key l)) as Hea.
    rewrite Hrun in Hea. cbn [app] in Hea. rewrite Hea, below_from.
    split; [done|]. by intros e He%elem_of_nil.
  - destruct (delete_all_spec cmp sl m hde l key cb udata None d r
                Hhd Hs Hsorted cmp_ok Hrun) as (m' & -> & Hs' & _ & Hfree).
    obind. exists m'. done.
Qed.

(** C4: with N entries equal to K among the others, [remove_all] calls the
    disposal callback exactly N times (once per matching entry, in order),
    lowers the count by N (in [size_t] arithmetic), keeps the head, and
    relinks every level of the head around the removed run: the list at
    each level is the list from before without the cells whose key equals
    K, so that iteration shows exactly the entries that differ from K; the
    removed cells are released, and every level is ordered and contained in
    the levels below. *)
Theorem remove_all_removes_the_run {U} s key (cb : skiplist_free_cb U) udata
    es :
  reachable cmp MAX s →
  entries s.1 s.2 = Some es →
  ∃ sl' m' u' hn,
    skiplist_delete_all cmp s.1 s.2 key cb udata = Some (sl', m', u') ∧
    u' = fold_left (λ u kv, cb key kv.2 u)
           (filter (λ kv, cmp kv.1 key = 0%Z) es) udata ∧
    count sl' =
      size_t (count s.1 -
              Z.of_nat (length (filter (λ kv, cmp kv.1 key = 0%Z) es))) ∧
    ((Z.of_nat (length (filter (λ kv, cmp kv.1 key = 0%Z) es)) ≤ count s.1)%Z
     → count sl' =
       (count s.1 -
        Z.of_nat (length (filter (λ kv, cmp kv.1 key = 0%Z) es)))%Z) ∧
    head sl' = head s.1 ∧
    deref s.2 (head s.1) = Some hn ∧
    (∀ L, L < node_h hn →
       ∃ ns, level_list s.1 s.2 L = Some ns ∧
             level_list sl' m' L =
               Some (filter (λ p, differs cmp s.2 key p = true) ns) ∧
             Forall (λ p, differs cmp s.2 key p = false →
                          deref m' p = None) ns) ∧
    entries sl' m' = Some (filter (λ kv, cmp kv.1 key ≠ 0%Z) es) ∧
    levels_ok cmp (sl', m').
Proof.
  intros Hreach Hes. destruct s as [sl m]. cbn [fst snd] in *.
  destruct (reachable_holds cmp MAX (sl, m) cmp_ok MAX_pos Hreach)
    as (l & Hl & Hr & Hes').
  cbn [fst snd] in *. rewrite Hes in Hes'. injection Hes' as ->.
  destruct Hl as (hde & Hhd & Hs & Hsorted). cbn [fst snd] in *.
  destruct (skiplist_delete_all_skl sl m hde l key cb udata Hhd Hs Hsorted)
    as (m' & Hdel & Hs' & Hfree).
  set (gone := filter (λ e, cmp (e_k e) key = 0%Z) l) in *.
  set (kept := filter (λ e, cmp (e_k e) key ≠ 0%Z) l) in *.
  set (sl' := mk_skiplist (decrements (count sl) gone) (head sl)) in *.
  assert (Hl' : holds cmp (sl', m') kept).
  { exists hde. split; [done|]. split; [done|].
    unfold kept. rewrite (filter_ne_run key l Hsorted).
    apply (sorted_remove cmp _ (eq_run cmp key (from cmp key l))).
    by rewrite eq_run_after, below_from. }
  exists sl', m', (dispose_key cb key gone udata), (node_of hde l).
  split; [exact Hdel|].
  rewrite !filter_pairs.
  change (filter (λ e, cmp (pair_of e).1 key = 0%Z) l) with gone.
  change (filter (λ e, cmp (pair_of e).1 key ≠ 0%Z) l) with kept.
  rewrite length_fmap.
  assert (Hcount : count sl' = size_t (count sl - Z.of_nat (length gone))).
  { cbn [sl' count]. by apply decrements_wraps. }
  split; [by rewrite fold_left_pairs|]. split; [done|]. split.
  { intros Hle. rewrite Hcount. unfold size_t. apply Z.mod_small.
    unfold in_range in Hr. lia. }
  split; [done|]. split.
  { rewrite Hhd. by apply (deref_at m hde l [] hde l). }
  split; [|split; [by apply (holds_entries cmp _ _ Hl')
                  | by eapply holds_levels_ok]].
  cbn [node_of node_h]. intros L HL.
  exists (e_ptr <$> at_level L l).
  split; [by apply (level_list_spec sl m hde l)|].
  assert (Hsub : ∀ e, e ∈ at_level L l → e ∈ l).
  { intros e He. unfold at_level in He.
    by apply list_elem_of_filter in He as [_ ?]. }
  split.
  - rewrite (level_list_spec sl' m' hde kept L Hhd Hs' HL).
    unfold kept. rewrite at_level_filter.
    by rewrite (filter_differs m hde l key (at_level L l) Hs Hsub).
  - apply Forall_fmap, Forall_forall. intros e He Hd. cbn [compose] in *.
    specialize (Hsub e He).
    destruct (skl_deref_in m hde l e Hs Hsub) as [rest Hde].
    unfold differs in Hd. rewrite Hde in Hd. cbn [node_of node_k] in Hd.
    apply bool_decide_eq_false in Hd.
    unfold deref, e_ptr. apply Hfree. unfold gone.
    apply list_elem_of_filter. split; [|done].
    destruct (decide (cmp (e_k e) key = 0%Z)); [done|]. by destruct Hd.
Qed.

(** C9: for every entry it removes, [remove_all] hands the disposal
    callback the caller's search key, not the key stored in the entry: the
    recorded calls are the search key paired with each removed value. *)
Theorem remove_all_passes_the_search_key s key es :
  reachable cmp MAX s →
  entries s.1 s.2 = Some es →
  ∃ sl' m' calls,
    skiplist_delete_all cmp s.1 s.2 key log_cb [] = Some (sl', m', calls) ∧
    calls = (λ kv, (key, kv.2)) <$> filter (λ kv, cmp kv.1 key = 0%Z) es ∧
    Forall (λ call, call.1 = key) calls.
Proof.
  intros Hreach Hes. destruct s as [sl m]. cbn [fst snd] in *.
  destruct (reachable_holds cmp MAX (sl, m) cmp_ok MAX_pos Hreach)
    as (l & Hl & Hr & Hes').
  cbn [fst snd] in *. rewrite Hes in Hes'. injection Hes' as ->.
  destruct (skiplist_delete_all_holds sl m l key log_cb [] Hl)
    as (m' & Hdel & Hl').
  eexists _, m', _. split; [exact Hdel|].
  rewrite filter_pairs.
  change (filter (λ e, cmp (pair_of e).1 key = 0%Z) l)
    with (filter (λ e, cmp (e_k e) key = 0%Z) l).
  assert (Hlog : ∀ r acc,
    dispose_key log_cb key r acc =
    acc ++ ((λ kv, (key, kv.2)) <$> (pair_of <$> r))).
  { induction r as [|e r IH]; intros acc; cbn.
    - by rewrite app_nil_r.
    - unfold dispose_key in IH. rewrite IH. unfold log_cb.
      by rewrite <- app_assoc. }
  rewrite Hlog. cbn [app]. split; [done|].
  apply Forall_fmap. by apply Forall_forall.
Qed.

End RemoveAll.

(** Two references to equal keys, stored under key 1, between other keys. *)
Definition distinct_references : list op :=
  [op_add (Obj 11) (Obj 1) 0 (Some 1) (Some 101);
   op_add (Obj 30) (Obj 3) 1 (Some 3) (Some 103);
   op_add (Obj 12) (Obj 2) 3 (Some 2) (Some 102);
   op_add (Obj 5) (Obj 4) 0 (Some 4) (Some 104)].

Lemma remove_all_removes_the_run_witness :
  (∃ sl' m' u' hn,
    skiplist_delete_all cmp_int (run_from_fresh distinct_references).1
      (run_from_fresh distinct_references).2 (Obj 10) log_cb [] =
      Some (sl', m', u') ∧
    u' = fold_left (λ u kv, log_cb (Obj 10) kv.2 u)
           (filter (λ kv, cmp_int kv.1 (Obj 10) = 0%Z)
              [(Obj 5, Obj 4); (Obj 12, Obj 2); (Obj 11, Obj 1);
               (Obj 30, Obj 3)]) [] ∧
    count sl' =
      size_t (count (run_from_fresh distinct_references).1 -
              Z.of_nat (length (filter (λ kv, cmp_int kv.1 (Obj 10) = 0%Z)
                [(Obj 5, Obj 4); (Obj 12, Obj 2); (Obj 11, Obj 1);
                 (Obj 30, Obj 3)]))) ∧
    ((Z.of_nat (length (filter (λ kv, cmp_int kv.1 (Obj 10) = 0%Z)
                [(Obj 5, Obj 4); (Obj 12, Obj 2); (Obj 11, Obj 1);
                 (Obj 30, Obj 3)])) ≤
      count (run_from_fresh distinct_references).1)%Z →
     count sl' =
       (count (run_from_fresh distinct_references).1 -
        Z.of_nat (length (filter (λ kv, cmp_int kv.1 (Obj 10) = 0%Z)
               [(Obj 5, Obj 4); (Obj 12, Obj 2); (Obj 11, Obj 1);
                (Obj 30, Obj 3)])))%Z) ∧
    head sl' = head (run_from_fresh distinct_references).1 ∧
    deref (run_from_fresh distinct_references).2
          (head (run_from_fresh distinct_references).1) = Some hn ∧
    (∀ L, L < node_h hn →
       ∃ ns,
         level_list (run_from_fresh distinct_references).1
                    (run_from_fresh distinct_references).2 L = Some ns ∧
         level_list sl' m' L =
           Some (filter
                   (λ p, differs cmp_int
                           (run_from_fresh distinct_references).2 (Obj 10) p
                         = true) ns) ∧
         Forall (λ p, differs cmp_int
                        (run_from_fresh distinct_references).2 (Obj 10) p
                      = false → deref m' p = None) ns) ∧
    entries sl' m' =
      Some (filter (λ kv, cmp_int kv.1 (Obj 10) ≠ 0%Z)
              [(Obj 5, Obj 4); (Obj 12, Obj 2); (Obj 11, Obj 1);
               (Obj 30, Obj 3)]) ∧
    levels_ok cmp_int (sl', m')) ∧
  level_list (run_from_fresh distinct_references).1
             (run_from_fresh distinct_references).2 1 =
    Some [Ptr 2; Ptr 3] ∧
  filter (λ p, differs cmp_int (run_from_fresh distinct_references).2
                 (Obj 10) p = true) [Ptr 2; Ptr 3] = [Ptr 3] ∧
  level_list (run_from_fresh distinct_references).1
             (run_from_fresh distinct_references).2 2 = Some [Ptr 2] ∧
  filter (λ p, differs cmp_int (run_from_fresh distinct_references).2
                 (Obj 10) p = true) [Ptr 2] = [].
Proof.
  split.
  - apply (remove_all_removes_the_run cmp_int 8 cmp_int_three_way).
    + lia.
    + apply run_from_fresh_reachable. vm_compute. eauto.
    + vm_compute. reflexivity.
  - vm_compute. repeat split; reflexivity.
Defined.

Lemma remove_all_passes_the_search_key_witness :
  ∃ sl' m' calls,
    skiplist_delete_all cmp_int (run_from_fresh distinct_references).1
      (run_from_fresh distinct_references).2 (Obj 10) log_cb [] =
      Some (sl', m', calls) ∧
    calls = (λ kv, (Obj 10, kv.2)) <$>
              filter (λ kv, cmp_int kv.1 (Obj 10) = 0%Z)
                [(Obj 5, Obj 4); (Obj 12, Obj 2); (Obj 11, Obj 1);
                 (Obj 30, Obj 3)] ∧
    Forall (λ call, call.1 = Obj 10) calls.
Proof.
  apply (remove_all_passes_the_search_key cmp_int 8 cmp_int_three_way).
  - lia.
  - apply run_from_fresh_reachable. vm_compute. eauto.
  - vm_compute. reflexivity.
Defined.

Section Upsert.

Context (cmp : voidp → voidp → Z) (MAX : nat).
Hypothesis cmp_ok : three_way cmp.
Hypothesis MAX_pos : 1 ≤ MAX.

Implicit Types (l r pre : list entry) (e d z : entry) (L j : nat) (m : heap).

Lemma split_at_key key l1 l2 :
  Forall (key_lt cmp key) l1 →
  match l2 with [] => True | e :: _ => ¬ key_lt cmp key e end →
  below cmp key (l1 ++ l2) = l1 ∧ from cmp key (l1 ++ l2) = l2.
Proof.
  intros Hlt Hge. induction Hlt as [|e l1 He _ IH]; cbn.
  - destruct l2 as [|e l2]; [done|]. cbn. unfold key_lt in Hge.
    by rewrite !decide_False.
  - unfold key_lt in He. rewrite !decide_True by done.
    destruct IH as [-> ->]. done.
Qed.

Lemma lookup_entry_at key l1 e l2 :
  Forall (key_lt cmp key) l1 → cmp (e_k e) key = 0%Z →
  lookup_entry cmp key (l1 ++ e :: l2) = Some e.
Proof.
  intros Hlt Heq. unfold lookup_entry.
  destruct (split_at_key key l1 (e :: l2) Hlt) as [_ ->].
  - unfold key_lt. lia.
  - by rewrite decide_True.
Qed.


(** An entry equal to the key makes the lookup succeed. *)
Lemma lookup_entry_present key l e0 :
  sorted cmp l → e0 ∈ l → cmp (e_k e0) key = 0%Z →
  ∃ e l2, from cmp key l = e :: l2 ∧ cmp (e_k e) key = 0%Z.
Proof.
  intros Hs Hin Heq.
  assert (Hf : e0 ∈ filter (λ e, cmp (e_k e) key = 0%Z) l).
  { by apply list_elem_of_filter. }
  rewrite (filter_eq_run cmp cmp_ok key l Hs) in Hf.
  destruct (eq_run cmp key (from cmp key l)) as [|d r] eqn:Hrun.
  - by apply elem_of_nil in Hf.
  - apply eq_run_cons_lookup in Hrun.
    apply lookup_entry_Some in Hrun as (l2 & Hfrom & Hd). eauto.
Qed.

Lemma lookup_entry_absent key l :
  Forall (λ e, cmp (e_k e) key ≠ 0%Z) l → lookup_entry cmp key l = None.
Proof.
  intros Hne. destruct (lookup_entry cmp key l) as [e|] eqn:Hlk; [|done].
  pose proof (lookup_entry_in cmp key l e Hlk) as Hin.
  apply lookup_entry_Some in Hlk as (l2 & _ & Heq).
  eapply Forall_forall in Hne; [|exact Hin]. done.
Qed.

Lemma Forall_pairs (P : voidp * voidp → Prop) l :
  Forall P (pair_of <$> l) → Forall (λ e, P (pair_of e)) l.
Proof.
  intros H. apply Forall_forall. intros e He.
  eapply Forall_forall in H; [exact H|].
  by apply (list_elem_of_fmap_2 pair_of).
Qed.

Lemma skiplist_get_holds sl m l key c :
  holds cmp (sl, m) l →
  skiplist_get cmp sl m key c =
  Some (match lookup_entry cmp key l with
        | Some e => (true, store_out c (e_v e))
        | None => (false, c)
        end).
Proof.
  intros (hde & Hhd & Hs & Hsorted).
  by apply (skiplist_get_spec cmp sl m hde l).
Qed.

(** C5: when a key equal to k is stored, [upsert] puts the new value in the
    first entry equal to k, in place: whatever the random draw and the
    allocator would answer, the call returns true with the same container
    fields (so the same count) and the same set of heap blocks, the previous
    value is stored through [old], and a lookup of k then yields the new
    value. *)
Theorem upsert_replaces_in_place s key v2 old es :
  reachable cmp MAX s →
  entries s.1 s.2 = Some es →
  (∃ kv, kv ∈ es ∧ cmp kv.1 key = 0%Z) →
  ∃ es1 k1 v1 es2 m',
    es = es1 ++ (k1, v1) :: es2 ∧
    Forall (λ kv, cmp kv.1 key ≠ 0%Z) es1 ∧ cmp k1 key = 0%Z ∧
    (∀ (rnd : Z) nn_res hd_res,
       skiplist_set cmp MAX s.1 s.2 key v2 old rnd nn_res hd_res =
         Some (true, s.1, m', store_out old v1)) ∧
    dom m' = dom s.2 ∧
    entries s.1 m' = Some (es1 ++ (k1, v2) :: es2) ∧
    ∀ c, skiplist_get cmp s.1 m' key c = Some (true, store_out c v2).
Proof.
  intros Hreach Hes (kv & Hkv & Hkeq). destruct s as [sl m].
  cbn [fst snd] in *.
  destruct (reachable_holds cmp MAX (sl, m) cmp_ok MAX_pos Hreach)
    as (l & Hl & Hr & Hes').
  cbn [fst snd] in *. rewrite Hes in Hes'. injection Hes' as ->.
  apply list_elem_of_fmap in Hkv as (e0 & -> & He0).
  destruct Hl as (hde & Hhd & Hs & Hsorted). cbn [fst snd] in *.
  destruct (lookup_entry_present key l e0 Hsorted He0 Hkeq)
    as (e & l2 & Hfrom & Heq).
  assert (Hsplit : l = below cmp key l ++ e :: l2)
    by (by rewrite <- Hfrom, below_from).
  set (m' := <[e_addr e := node_of (with_value e v2) l2]> m).
  assert (Hl' : holds cmp (sl, m')
                  (below cmp key l ++ with_value e v2 :: l2)).
  { exists hde. split; [done|]. split.
    - by apply (add_or_set_replace cmp MAX sl m hde l key v2 old 0 None None
                  e l2).
    - apply sorted_with_value. by rewrite <- Hsplit. }
  exists (pair_of <$> below cmp key l), (e_k e), (e_v e), (pair_of <$> l2), m'.
  split; [by rewrite Hsplit at 1; rewrite fmap_app|].
  split.
  { apply Forall_fmap. eapply Forall_impl; [apply below_lt|].
    unfold key_lt. simpl. intros; lia. }
  split; [done|]. split.
  { intros rnd nn_res hd_res.
    by apply (add_or_set_replace cmp MAX sl m hde l key v2 old rnd nn_res
                hd_res e l2). }
  split.
  { unfold m'. rewrite dom_insert_L.
    apply subseteq_union_1_L, singleton_subseteq_l.
    apply elem_of_dom. eexists.
    apply (skl_at m hde l (hde :: below cmp key l) e l2 Hs).
    by rewrite Hsplit at 1. }
  split.
  { pose proof (holds_entries cmp _ _ Hl') as He'. cbn [fst snd] in He'.
    rewrite He'. by rewrite fmap_app. }
  intros c. rewrite (skiplist_get_holds sl m' _ key c Hl').
  rewrite lookup_entry_at; [done | apply below_lt | done].
Qed.

(** The outcome of an upsert when no stored key equals the key. *)
Lemma skiplist_set_absent sl m l key value old (rnd : Z) nn_res hd_res :
  holds cmp (sl, m) l → allocs_ok m nn_res hd_res →
  lookup_entry cmp key l = None →
  ∃ b sl' m',
    skiplist_set cmp MAX sl m key value old rnd nn_res hd_res =
      Some (b, sl', m', old_after cmp true key l old).
Proof.
  intros (hde & Hhd & Hs & Hsorted) Hal Hlk. cbn [fst snd] in *.
  assert (Hnr : true = true → lookup_entry cmp key l = None) by done.
  pose proof (add_or_set_insert cmp MAX sl m hde l true key value old rnd
                nn_res hd_res Hhd Hs Hsorted cmp_ok MAX_pos Hal Hnr) as Hadd.
  cbn zeta in Hadd. unfold skiplist_set.
  destruct nn_res as [a|]; [|by eauto].
  destruct (decide (e_h hde < SKIPLIST_GEN_HEIGHT MAX rnd)).
  - destruct hd_res as [b|]; [|by eauto].
    destruct Hadd as (m' & -> & _). eauto.
  - destruct Hadd as (m' & -> & _). eauto.
Qed.

(** C8: when [upsert] finds no equal key and so inserts, what it leaves in
    [old] depends on the level-0 successor of the insertion point: NULL when
    that is a stored entry (some stored key is not below k), the previous
    content of [old] when it is the sentinel (the container is empty or
    every stored key is below k). *)
Theorem upsert_absent_old s key value c (rnd : Z) nn_res hd_res es :
  reachable cmp MAX s → allocs_ok s.2 nn_res hd_res →
  entries s.1 s.2 = Some es →
  Forall (λ kv, cmp kv.1 key ≠ 0%Z) es →
  ∃ b sl' m' old',
    skiplist_set cmp MAX s.1 s.2 key value (Some c) rnd nn_res hd_res =
      Some (b, sl', m', old') ∧
    ((∃ kv, kv ∈ es ∧ ¬ (cmp kv.1 key < 0)%Z) → old' = Some NULL) ∧
    (Forall (λ kv, (cmp kv.1 key < 0)%Z) es → old' = Some c).
Proof.
  intros Hreach Hal Hes Hne. destruct s as [sl m]. cbn [fst snd] in *.
  destruct (reachable_holds cmp MAX (sl, m) cmp_ok MAX_pos Hreach)
    as (l & Hl & Hr & Hes').
  cbn [fst snd] in *. rewrite Hes in Hes'. injection Hes' as ->.
  apply Forall_pairs in Hne.
  destruct (skiplist_set_absent sl m l key value (Some c) rnd nn_res hd_res
              Hl Hal (lookup_entry_absent key l Hne))
    as (b & sl' & m' & Hset).
  exists b, sl', m', (old_after cmp true key l (Some c)).
  split; [done|]. unfold old_after. split.
  - intros (kv & Hkv & Hge).
    apply list_elem_of_fmap in Hkv as (e & -> & He).
    destruct (from cmp key l) as [|x l2] eqn:Hfrom; [|done].
    exfalso. apply Hge.
    pose proof (below_lt cmp key l) as Hlt.
    pose proof (below_from cmp key l) as Hbf.
    rewrite Hfrom, app_nil_r in Hbf. rewrite Hbf in Hlt.
    eapply Forall_forall in Hlt; [exact Hlt | exact He].
  - intros Hlt. apply Forall_pairs in Hlt.
    destruct (split_at_key key l [] Hlt I) as [_ Hfrom].
    rewrite app_nil_r in Hfrom. by rewrite Hfrom.
Qed.

End Upsert.

Lemma upsert_replaces_in_place_witness :
  ∃ es1 k1 v1 es2 m',
    [(Obj 10, Obj 2); (Obj 10, Obj 1); (Obj 30, Obj 3)] =
      es1 ++ (k1, v1) :: es2 ∧
    Forall (λ kv, cmp_int kv.1 (Obj 12) ≠ 0%Z) es1 ∧
    cmp_int k1 (Obj 12) = 0%Z ∧
    (∀ (rnd : Z) nn_res hd_res,
       skiplist_set cmp_int 8 (run_from_fresh two_equal_keys).1
         (run_from_fresh two_equal_keys).2 (Obj 12) (Obj 9) (Some NULL)
         rnd nn_res hd_res =
         Some (true, (run_from_fresh two_equal_keys).1, m',
               store_out (Some NULL) v1)) ∧
    dom m' = dom (run_from_fresh two_equal_keys).2 ∧
    entries (run_from_fresh two_equal_keys).1 m' =
      Some (es1 ++ (k1, Obj 9) :: es2) ∧
    ∀ c, skiplist_get cmp_int (run_from_fresh two_equal_keys).1 m' (Obj 12) c
         = Some (true, store_out c (Obj 9)).
Proof.
  apply (upsert_replaces_in_place cmp_int 8 cmp_int_three_way).
  - lia.
  - apply run_from_fresh_reachable. vm_compute. eauto.
  - vm_compute. reflexivity.
  - exists (Obj 10, Obj 2). split; [left | reflexivity].
Defined.

Lemma upsert_absent_old_witness :
  ∃ b sl' m' old',
    skiplist_set cmp_int 8 (run_from_fresh two_equal_keys).1
      (run_from_fresh two_equal_keys).2 (Obj 20) (Obj 7) (Some (Obj 99))
      0 (Some 4) (Some 104) = Some (b, sl', m', old') ∧
    ((∃ kv, kv ∈ [(Obj 10, Obj 2); (Obj 10, Obj 1); (Obj 30, Obj 3)] ∧
            ¬ (cmp_int kv.1 (Obj 20) < 0)%Z) → old' = Some NULL) ∧
    (Forall (λ kv, (cmp_int kv.1 (Obj 20) < 0)%Z)
       [(Obj 10, Obj 2); (Obj 10, Obj 1); (Obj 30, Obj 3)] →
     old' = Some (Obj 99)).
Proof.
  apply (upsert_absent_old cmp_int 8 cmp_int_three_way).
  - lia.
  - apply run_from_fresh_reachable. vm_compute. eauto.
  - vm_compute. repeat split; (done || (right; discriminate)).
  - vm_compute. reflexivity.
  - repeat constructor; vm_compute; discriminate.
Defined.

(** A client loop: pop until the container answers not-found, collecting the
    keys it hands out; [n] bounds the number of calls. *)
Fixpoint drain
    (pop : skiplist → heap → option voidp → option voidp →
           option (bool * skiplist * heap * option voidp * option voidp))
    (n : nat) (sl : skiplist) (m : heap)
  : option (list voidp * skiplist * heap) :=
  match n with
  | O => None
  | S n' =>
      '(b, sl', m', k, _) ← pop sl m (Some NULL) None;
      if (b : bool) then
        '(ks, sl'', m'') ← drain pop n' sl' m';
        Some (default NULL k :: ks, sl'', m'')
      else Some ([], sl', m')
  end.

Section RoundTrip.

Context (cmp : voidp → voidp → Z) (MAX : nat).
Hypothesis cmp_ok : three_way cmp.
Hypothesis MAX_pos : 1 ≤ MAX.

Implicit Types (l r pre : list entry) (e d z : entry) (L j : nat) (m : heap).


(** C10: a plain insert returns true unless the allocation of the node, or
    of a taller head when one is needed, fails; the entry it then puts in
    sits after the stored keys below its key and before every stored key
    that is equal or above; so when no stored key is below it, the new
    entry is the first that iteration, [first] and [pop_first] meet, ahead
    of older entries under the same key. *)
Theorem insert_goes_before_equal_keys s key value (rnd : Z) nn_res hd_res
    es :
  reachable cmp MAX s → allocs_ok s.2 nn_res hd_res →
  entries s.1 s.2 = Some es →
  ∃ b sl' m' hn es1 es2,
    skiplist_add cmp MAX s.1 s.2 key value rnd nn_res hd_res =
      Some (b, sl', m') ∧
    deref s.2 (head s.1) = Some hn ∧
    (b = false ↔
       nn_res = None ∨
       (hd_res = None ∧ node_h hn < SKIPLIST_GEN_HEIGHT MAX rnd)) ∧
    es = es1 ++ es2 ∧
    Forall (λ kv, (cmp kv.1 key < 0)%Z) es1 ∧
    Forall (λ kv, (0 ≤ cmp kv.1 key)%Z) es2 ∧
    (b = true →
     entries sl' m' = Some (es1 ++ (key, value) :: es2) ∧
     (es1 = [] →
      ∀ k v,
        skiplist_first sl' m' k v =
          Some (true, store_out k key, store_out v value) ∧
        ∃ sl'' m'',
          skiplist_pop_first sl' m' k v =
            Some (true, sl'', m'', store_out k key, store_out v value))).
Proof.
  intros Hreach Hal Hes. destruct s as [sl m]. cbn [fst snd] in *.
  destruct (reachable_holds cmp MAX (sl, m) cmp_ok MAX_pos Hreach)
    as (l & Hl & Hr & Hes').
  cbn [fst snd] in *. rewrite Hes in Hes'. injection Hes' as ->.
  destruct (skiplist_add_spec cmp MAX cmp_ok MAX_pos sl m l key value rnd
              nn_res hd_res Hl Hal)
    as (hde & Hhd & Hs & b & sl' & m' & Hadd & Hiff & _ & Hok).
  exists b, sl', m', (node_of hde l), (pair_of <$> below cmp key l),
         (pair_of <$> from cmp key l).
  split; [done|]. split.
  { rewrite Hhd. by apply (deref_at m hde l [] hde l). }
  split; [done|].
  split; [by rewrite <- fmap_app, below_from|].
  split; [apply Forall_fmap, below_lt|]. split.
  { apply Forall_fmap. destruct Hl as (_ & _ & _ & Hsorted).
    eapply Forall_impl; [apply (from_ge cmp cmp_ok key l Hsorted)|].
    unfold key_lt. simpl. intros; lia. }
  intros Hb. destruct (Hok Hb) as (_ & a & _ & Hl').
  pose proof (holds_entries cmp _ _ Hl') as He'. cbn [fst snd] in He'.
  split; [by rewrite He', fmap_app|].
  intros Hnil%fmap_nil_inv k v. rewrite Hnil in Hl'. cbn [app] in Hl'.
  destruct Hl' as (hde' & Hhd' & Hs' & _). cbn [fst snd] in *. split.
  - by rewrite (skiplist_first_spec sl' m' hde' _ k v Hhd' Hs').
  - destruct (pop_first_spec sl' m' hde' _ _ k v Hhd' Hs')
      as (m'' & -> & _). eauto.
Qed.

Lemma keys_sorted_of l : sorted cmp l → keys_sorted cmp (e_k <$> l).
Proof. apply (StronglySorted_fmap e_k (key_le cmp)). done. Qed.

Lemma keys_sorted_reverse ks :
  keys_sorted cmp ks →
  StronglySorted (λ a b, (cmp b a ≤ 0)%Z) (reverse ks).
Proof.
  unfold keys_sorted. induction 1 as [|x ks Hks IH Hx].
  - constructor.
  - rewrite reverse_cons. apply StronglySorted_app. split; [|split; [done|]].
    + intros x1 x2 Hx1 ->%list_elem_of_singleton.
      rewrite elem_of_reverse in Hx1.
      rewrite Forall_forall in Hx. by apply Hx.
    + repeat constructor.
Qed.

Lemma size_t_small (z : Z) : (0 ≤ z < SIZE_MAX1)%Z → size_t z = z.
Proof. intros Hz. unfold size_t. by apply Z.mod_small. Qed.

(** Popping first until not-found hands out the keys front to back, and
    lowers the count once per key. *)
Lemma drain_first_holds l :
  ∀ sl m n,
    holds cmp (sl, m) l → in_range sl → length l < n →
    ∃ sl' m', drain skiplist_pop_first n sl m = Some (e_k <$> l, sl', m') ∧
              count sl' = size_t (count sl - Z.of_nat (length l)).
Proof.
  induction l as [|f l IH]; intros sl m n (hde & Hhd & Hs & Hsorted) Hr Hn;
    (destruct n as [|n]; [simpl in Hn; lia|]); cbn [fst snd drain] in *.
  - rewrite (pop_first_empty_spec sl m hde _ _ Hhd Hs). obind.
    eexists sl, m. split; [done|]. simpl. rewrite Z.sub_0_r.
    by rewrite size_t_small.
  - destruct (pop_first_spec sl m hde f l (Some NULL) None Hhd Hs)
      as (m' & -> & Hs' & _).
    obind. cbn [store_out default].
    destruct (IH (mk_skiplist (size_t (count sl - 1)) (head sl)) m' n)
      as (sl' & m'' & -> & Hz).
    + exists hde. split; [done|]. split; [done|].
      by apply StronglySorted_inv in Hsorted as [? _].
    + apply size_t_range.
    + simpl in Hn. lia.
    + obind. eexists sl', m''. split; [done|]. rewrite Hz. cbn [count].
      unfold size_t. rewrite Zminus_mod_idemp_l. f_equal.
      cbn [length]. lia.
Qed.

(** Popping last until not-found hands out the keys back to front. *)
Lemma drain_last_holds l :
  ∀ sl m n,
    holds cmp (sl, m) l → count sl = Z.of_nat (length l) → in_range sl →
    length l < n →
    ∃ sl' m',
      drain skiplist_pop_last n sl m = Some (reverse (e_k <$> l), sl', m') ∧
      count sl' = 0%Z.
Proof.
  induction l as [|z l IH] using rev_ind;
    intros sl m n (hde & Hhd & Hs & Hsorted) Hc Hr Hn;
    (destruct n as [|n]; [lia|]); cbn [fst snd drain] in *.
  - rewrite (pop_last_zero_spec sl m hde [] _ _ Hhd Hs) by done.
    obind. eauto.
  - rewrite length_app in Hc, Hn. cbn [length] in Hc, Hn.
    destruct (pop_last_spec sl m hde l z (Some NULL) None Hhd Hs)
      as (m' & -> & Hs' & _); [lia|].
    obind. cbn [store_out default].
    assert (Hc' : size_t (count sl - 1) = Z.of_nat (length l)).
    { unfold in_range in Hr. rewrite size_t_small; lia. }
    destruct (IH (mk_skiplist (size_t (count sl - 1)) (head sl)) m' n)
      as (sl' & m'' & -> & Hz).
    + exists hde. split; [done|]. split; [done|].
      by apply sorted_app_inv in Hsorted as [? _].
    + done.
    + apply size_t_range.
    + lia.
    + obind. rewrite fmap_snoc, reverse_snoc. eauto.
Qed.

(** C6: popping first until not-found hands out the keys in non-decreasing
    order and lowers the count by the number of entries; when the count is
    the number of entries, popping last until not-found hands out the keys
    in non-increasing order, and both leave the count at zero.  On a
    container without entries [pop_last] returns false and changes nothing
    when the count is zero, and has no defined result when it is not (it
    walks to the sentinel, which the code asserts against and then
    releases). *)
Theorem pops_drain_in_order s es n :
  reachable cmp MAX s →
  entries s.1 s.2 = Some es →
  length es < n →
  (∃ sl' m',
     drain skiplist_pop_first n s.1 s.2 = Some (fst <$> es, sl', m') ∧
     keys_sorted cmp (fst <$> es) ∧
     count sl' = size_t (count s.1 - Z.of_nat (length es)) ∧
     (count s.1 = Z.of_nat (length es) → count sl' = 0%Z)) ∧
  (count s.1 = Z.of_nat (length es) →
   ∃ sl' m',
     drain skiplist_pop_last n s.1 s.2 =
       Some (reverse (fst <$> es), sl', m') ∧
     StronglySorted (λ a b, (cmp b a ≤ 0)%Z) (reverse (fst <$> es)) ∧
     count sl' = 0%Z) ∧
  (es = [] →
   ∀ key value,
     skiplist_pop_last s.1 s.2 key value =
       if decide (count s.1 = 0%Z) then Some (false, s.1, s.2, key, value)
       else None).
Proof.
  intros Hreach Hes Hn. destruct s as [sl m]. cbn [fst snd] in *.
  destruct (reachable_holds cmp MAX (sl, m) cmp_ok MAX_pos Hreach)
    as (l & Hl & Hr & Hes').
  cbn [fst snd] in *. rewrite Hes in Hes'. injection Hes' as ->.
  rewrite length_fmap in *.
  assert (Hkeys : fst <$> (pair_of <$> l) = e_k <$> l).
  { by rewrite <- list_fmap_compose. }
  rewrite Hkeys.
  assert (Hks : keys_sorted cmp (e_k <$> l)).
  { destruct Hl as (_ & _ & _ & Hsorted). by apply keys_sorted_of. }
  split; [|split].
  - destruct (drain_first_holds l sl m n Hl Hr Hn)
      as (sl' & m' & Hd & Hz).
    exists sl', m'. split; [done|]. split; [done|]. split; [done|].
    intros Hcount. rewrite Hz, Hcount, Z.sub_diag. done.
  - intros Hcount.
    destruct (drain_last_holds l sl m n Hl Hcount Hr Hn)
      as (sl' & m' & Hd & Hz).
    exists sl', m'. split; [done|]. split; [|done].
    by apply keys_sorted_reverse.
  - intros Hnil%fmap_nil_inv key value. subst l.
    destruct Hl as (hde & Hhd & Hs & _). cbn [fst snd] in *.
    case_decide as Hc.
    + by apply (pop_last_zero_spec sl m hde []).
    + by apply (pop_last_stale sl m hde).
Qed.

End RoundTrip.



Lemma insert_goes_before_equal_keys_witness :
  ∃ b sl' m' hn es1 es2,
    skiplist_add cmp_int 8 (run_from_fresh two_equal_keys).1
      (run_from_fresh two_equal_keys).2 (Obj 13) (Obj 7) 1
      (Some 5) (Some 105) = Some (b, sl', m') ∧
    deref (run_from_fresh two_equal_keys).2
          (head (run_from_fresh two_equal_keys).1) = Some hn ∧
    (b = false ↔
       Some 5 = None ∨
       (Some 105 = None ∧ node_h hn < SKIPLIST_GEN_HEIGHT 8 1)) ∧
    [(Obj 10, Obj 2); (Obj 10, Obj 1); (Obj 30, Obj 3)] = es1 ++ es2 ∧
    Forall (λ kv, (cmp_int kv.1 (Obj 13) < 0)%Z) es1 ∧
    Forall (λ kv, (0 ≤ cmp_int kv.1 (Obj 13))%Z) es2 ∧
    (b = true →
     entries sl' m' = Some (es1 ++ (Obj 13, Obj 7) :: es2) ∧
     (es1 = [] →
      ∀ k v,
        skiplist_first sl' m' k v =
          Some (true, store_out k (Obj 13), store_out v (Obj 7)) ∧
        ∃ sl'' m'',
          skiplist_pop_first sl' m' k v =
            Some (true, sl'', m'', store_out k (Obj 13),
                  store_out v (Obj 7)))).
Proof.
  apply (insert_goes_before_equal_keys cmp_int 8 cmp_int_three_way).
  - lia.
  - apply run_from_fresh_reachable. vm_compute. eauto.
  - vm_compute. repeat split; (done || (right; discriminate)).
  - vm_compute. reflexivity.
Defined.

(** A container emptied by [skiplist_clear] after three inserts. *)
Definition cleared_after_adds : list op := two_equal_keys ++ [op_clear false].

Lemma pops_drain_in_order_witness :
  ((∃ sl' m',
      drain skiplist_pop_first 4 (run_from_fresh two_equal_keys).1
        (run_from_fresh two_equal_keys).2 =
        Some (fst <$> [(Obj 10, Obj 2); (Obj 10, Obj 1); (Obj 30, Obj 3)],
              sl', m') ∧
      keys_sorted cmp_int
        (fst <$> [(Obj 10, Obj 2); (Obj 10, Obj 1); (Obj 30, Obj 3)]) ∧
      count sl' =
        size_t (count (run_from_fresh two_equal_keys).1 - Z.of_nat 3) ∧
      (count (run_from_fresh two_equal_keys).1 = Z.of_nat 3 →
       count sl' = 0%Z)) ∧
   (count (run_from_fresh two_equal_keys).1 = Z.of_nat 3 →
    ∃ sl' m',
      drain skiplist_pop_last 4 (run_from_fresh two_equal_keys).1
        (run_from_fresh two_equal_keys).2 =
        Some (reverse
                (fst <$> [(Obj 10, Obj 2); (Obj 10, Obj 1); (Obj 30, Obj 3)]),
              sl', m') ∧
      StronglySorted (λ a b, (cmp_int b a ≤ 0)%Z)
        (reverse
           (fst <$> [(Obj 10, Obj 2); (Obj 10, Obj 1); (Obj 30, Obj 3)])) ∧
      count sl' = 0%Z) ∧
   ([(Obj 10, Obj 2); (Obj 10, Obj 1); (Obj 30, Obj 3)] = [] →
    ∀ key value,
      skiplist_pop_last (run_from_fresh two_equal_keys).1
        (run_from_fresh two_equal_keys).2 key value =
        if decide (count (run_from_fresh two_equal_keys).1 = 0%Z)
        then Some (false, (run_from_fresh two_equal_keys).1,
                   (run_from_fresh two_equal_keys).2, key, value)
        else None)) ∧
  count (run_from_fresh two_equal_keys).1 = 3%Z ∧
  entries (run_from_fresh cleared_after_adds).1
          (run_from_fresh cleared_after_adds).2 = Some [] ∧
  count (run_from_fresh cleared_after_adds).1 = 3%Z ∧
  (∃ sl' m',
     drain skiplist_pop_first 1 (run_from_fresh cleared_after_adds).1
       (run_from_fresh cleared_after_adds).2 = Some ([], sl', m') ∧
     count sl' = 3%Z) ∧
  (∀ key value,
     skiplist_pop_last (run_from_fresh cleared_after_adds).1
       (run_from_fresh cleared_after_adds).2 key value = None).
Proof.
  split; [|split; [|split; [|split; [|split]]]].
  - apply (pops_drain_in_order cmp_int 8 cmp_int_three_way ltac:(lia)
             (run_from_fresh two_equal_keys)
             [(Obj 10, Obj 2); (Obj 10, Obj 1); (Obj 30, Obj 3)] 4).
    + apply run_from_fresh_reachable. vm_compute. eauto.
    + vm_compute. reflexivity.
    + simpl. lia.
  - vm_compute. reflexivity.
  - vm_compute. reflexivity.
  - vm_compute. reflexivity.
  - vm_compute. eauto.
  - intros key value.
    destruct (pops_drain_in_order cmp_int 8 cmp_int_three_way
                ltac:(lia) (run_from_fresh cleared_after_adds) [] 1)
      as (_ & _ & H).
    + apply run_from_fresh_reachable. vm_compute. eauto.
    + vm_compute. reflexivity.
    + simpl. lia.
    + rewrite (H eq_refl key value). vm_compute. reflexivity.
Defined.


(** * Further properties of the operations *)

(** ** Lookups and removal of one entry *)

Section Queries.

Context (cmp : voidp → voidp → Z) (MAX : nat).
Hypothesis cmp_ok : three_way cmp.

Implicit Types (l r pre : list entry) (e d z : entry) (L j : nat) (m : heap).

(** In a sorted list the first entry equal to [key] is the one the lookup
    lands on, right after the entries below [key]. *)
Lemma find_entry key l :
  sorted cmp l →
  list_find (λ e, cmp (e_k e) key = 0%Z) l =
  (λ e, (length (below cmp key l), e)) <$> lookup_entry cmp key l.
Proof.
  intros Hsorted.
  destruct (lookup_entry cmp key l) as [e|] eqn:Hlk; cbn [fmap option_fmap option_map].
  - apply lookup_entry_Some in Hlk as (l2 & Hfrom & Heq).
    pose proof (below_from cmp key l) as Hsplit. rewrite Hfrom in Hsplit.
    apply list_find_Some. split; [|split; [done|]].
    + transitivity ((below cmp key l ++ e :: l2) !! length (below cmp key l));
        [by rewrite Hsplit | by apply list_lookup_middle].
    + intros j y Hj Hlt Hy.
      assert (Hj' : (below cmp key l ++ e :: l2) !! j = Some y)
        by (by rewrite Hsplit).
      rewrite lookup_app_l in Hj' by done. clear Hj. rename Hj' into Hj.
      pose proof (below_lt cmp key l) as Hb.
      eapply Forall_lookup_1 in Hb; [|exact Hj].
      unfold key_lt in Hb. lia.
  - apply list_find_None. apply Forall_forall. intros e He Heq.
    destruct (lookup_entry_present cmp cmp_ok key l e
                Hsorted He Heq) as (x & l2 & Hfrom & Hx).
    unfold lookup_entry in Hlk. rewrite Hfrom in Hlk.
    by rewrite decide_True in Hlk.
Qed.

Lemma find_pair key l :
  sorted cmp l →
  list_find (λ kv, cmp kv.1 key = 0%Z) (pair_of <$> l) =
  (λ e, (length (below cmp key l), pair_of e)) <$> lookup_entry cmp key l.
Proof.
  intros Hsorted. rewrite list_find_fmap.
  change (list_find _ l)
    with (list_find (λ e, cmp (e_k e) key = 0%Z) l).
  rewrite (find_entry key l Hsorted).
  by destruct (lookup_entry cmp key l).
Qed.

Hypothesis MAX_pos : 1 ≤ MAX.

(** X1: a lookup returns true with the value of the first entry, in
    iteration order, whose key compares equal to the key asked for; when no
    stored key compares equal it returns false and leaves the value cell as
    it was. *)
Theorem lookup_finds_first_match s key c es :
  reachable cmp MAX s → entries s.1 s.2 = Some es →
  skiplist_get cmp s.1 s.2 key c =
    Some (match list_find (λ kv, cmp kv.1 key = 0%Z) es with
          | Some (_, kv) => (true, store_out c kv.2)
          | None => (false, c)
          end).
Proof.
  intros Hreach Hes. destruct s as [sl m]. cbn [fst snd] in *.
  destruct (reachable_holds cmp MAX (sl, m) cmp_ok MAX_pos Hreach)
    as (l & Hl & Hr & Hes').
  cbn [fst snd] in *. rewrite Hes in Hes'. injection Hes' as ->.
  rewrite (skiplist_get_holds cmp cmp_ok sl m l key c Hl).
  destruct Hl as (_ & _ & _ & Hsorted).
  rewrite (find_pair key l Hsorted).
  by destruct (lookup_entry cmp key l).
Qed.

(** X2: the membership test answers true exactly when some stored key
    compares equal to the key asked for. *)
Theorem member_iff_equal_key_stored s key es :
  reachable cmp MAX s → entries s.1 s.2 = Some es →
  skiplist_member cmp s.1 s.2 key =
    Some (bool_decide (Exists (λ kv, cmp kv.1 key = 0%Z) es)).
Proof.
  intros Hreach Hes. destruct s as [sl m]. cbn [fst snd] in *.
  destruct (reachable_holds cmp MAX (sl, m) cmp_ok MAX_pos Hreach)
    as (l & Hl & Hr & Hes').
  cbn [fst snd] in *. rewrite Hes in Hes'. injection Hes' as ->.
  unfold skiplist_member.
  rewrite (skiplist_get_holds cmp cmp_ok sl m l key None Hl).
  destruct Hl as (_ & _ & _ & Hsorted).
  pose proof (find_pair key l Hsorted) as Hfind.
  destruct (lookup_entry cmp key l) as [e|];
    cbn [fmap option_fmap option_map fst] in *; f_equal; symmetry.
  - apply bool_decide_eq_true. apply Exists_exists.
    apply list_find_Some in Hfind as (Hi & Heq & _).
    eexists. split; [by eapply list_elem_of_lookup_2|done].
  - apply bool_decide_eq_false. intros Hex%Exists_exists.
    apply list_find_None in Hfind. rewrite Forall_forall in Hfind.
    destruct Hex as (kv & Hkv & Heq). by apply (Hfind kv).
Qed.

(** X3: a remove of a key that no stored key equals returns false and
    changes nothing, the value cell included; otherwise it returns true,
    hands out the value of the first entry equal to the key, takes exactly
    that entry out of the iteration order, lowers the count by one and
    leaves every level in order. *)
Theorem remove_takes_first_match s key old es :
  reachable cmp MAX s → entries s.1 s.2 = Some es →
  ∃ b sl' m' old',
    skiplist_delete cmp s.1 s.2 key old = Some (b, sl', m', old') ∧
    match list_find (λ kv, cmp kv.1 key = 0%Z) es with
    | None => b = false ∧ sl' = s.1 ∧ m' = s.2 ∧ old' = old
    | Some (i, kv) =>
        b = true ∧ old' = store_out old kv.2 ∧
        count sl' = size_t (count s.1 - 1) ∧ head sl' = head s.1 ∧
        entries sl' m' = Some (delete i es) ∧
        levels_ok cmp (sl', m')
    end.
Proof.
  intros Hreach Hes. destruct s as [sl m]. cbn [fst snd] in *.
  destruct (reachable_holds cmp MAX (sl, m) cmp_ok MAX_pos Hreach)
    as (l & Hl & Hr & Hes').
  cbn [fst snd] in *. rewrite Hes in Hes'. injection Hes' as ->.
  pose proof Hl as (hde & Hhd & Hs & Hsorted). cbn [fst snd] in *.
  rewrite (find_pair key l Hsorted). unfold skiplist_delete.
  destruct (lookup_entry cmp key l) as [e|] eqn:Hlk;
    cbn [fmap option_fmap option_map].
  - apply lookup_entry_Some in Hlk as (l2 & Hfrom & Heq).
    destruct (delete_one_spec cmp sl m hde l key () old e l2
                Hhd Hs Hsorted cmp_ok Hfrom Heq) as (m' & -> & Hs' & _).
    obind. eexists true, _, m', _. split; [done|].
    assert (Hl' : holds cmp
              (mk_skiplist (size_t (count sl - 1)) (head sl), m')
              (below cmp key l ++ l2)).
    { exists hde. split; [done|]. split; [done|].
      apply (sorted_remove_one cmp _ e). by rewrite <- Hfrom, below_from. }
    split; [done|]. split; [done|]. split; [done|]. split; [done|]. split.
    + pose proof (holds_entries cmp _ _ Hl') as He'. cbn [fst snd] in He'.
      rewrite He'. f_equal.
      rewrite <- list_fmap_delete. f_equal.
      rewrite <- (delete_middle (below cmp key l) l2 e).
      by rewrite <- Hfrom, below_from.
    + by eapply holds_levels_ok.
  - rewrite (delete_absent_spec cmp sl m hde l key None () old
               Hhd Hs Hsorted cmp_ok Hlk).
    obind. by eexists false, sl, m, old.
Qed.

(** X4: [first] hands out the pair that iteration visits first, and no
    stored key is below its key; on a container without entries it returns
    false and leaves both cells as they were. *)
Theorem first_is_least s key value es :
  reachable cmp MAX s → entries s.1 s.2 = Some es →
  skiplist_first s.1 s.2 key value =
    Some (match es with
          | [] => (false, key, value)
          | (k, v) :: _ => (true, store_out key k, store_out value v)
          end) ∧
  ∀ k v rest, es = (k, v) :: rest → Forall (λ kv, (cmp k kv.1 ≤ 0)%Z) rest.
Proof.
  intros Hreach Hes. destruct s as [sl m]. cbn [fst snd] in *.
  destruct (reachable_holds cmp MAX (sl, m) cmp_ok MAX_pos Hreach)
    as (l & Hl & Hr & Hes').
  cbn [fst snd] in *. rewrite Hes in Hes'. injection Hes' as ->.
  destruct Hl as (hde & Hhd & Hs & Hsorted). cbn [fst snd] in *. split.
  - rewrite (skiplist_first_spec sl m hde l key value Hhd Hs).
    by destruct l.
  - intros k v rest Heq. destruct l as [|e l]; [done|].
    rewrite fmap_cons in Heq. injection Heq as <- <- <-.
    apply StronglySorted_inv in Hsorted as [_ Hle].
    apply Forall_fmap. eapply Forall_impl; [exact Hle|]. done.
Qed.

(** X5: [pop_first] does not consult the count: on a container without
    entries it returns false and changes nothing; otherwise it hands out the
    pair that iteration visits first, removes that entry and no other,
    lowers the count by one and leaves every level in order. *)
Theorem pop_first_takes_the_first s key value es :
  reachable cmp MAX s → entries s.1 s.2 = Some es →
  match es with
  | [] =>
      skiplist_pop_first s.1 s.2 key value =
        Some (false, s.1, s.2, key, value)
  | (k, v) :: rest =>
      ∃ m',
        skiplist_pop_first s.1 s.2 key value =
          Some (true, mk_skiplist (size_t (count s.1 - 1)) (head s.1), m',
                store_out key k, store_out value v) ∧
        entries (mk_skiplist (size_t (count s.1 - 1)) (head s.1)) m' =
          Some rest ∧
        levels_ok cmp
          (mk_skiplist (size_t (count s.1 - 1)) (head s.1), m')
  end.
Proof.
  intros Hreach Hes. destruct s as [sl m]. cbn [fst snd] in *.
  destruct (reachable_holds cmp MAX (sl, m) cmp_ok MAX_pos Hreach)
    as (l & Hl & Hr & Hes').
  cbn [fst snd] in *. rewrite Hes in Hes'. injection Hes' as ->.
  destruct Hl as (hde & Hhd & Hs & Hsorted). cbn [fst snd] in *.
  destruct l as [|f l]; cbn [fmap list_fmap pair_of].
  - by apply (pop_first_empty_spec sl m hde).
  - destruct (pop_first_spec sl m hde f l key value Hhd Hs)
      as (m' & Hpop & Hs' & _).
    exists m'. split; [done|].
    assert (Hl' : holds cmp
              (mk_skiplist (size_t (count sl - 1)) (head sl), m') l).
    { exists hde. split; [done|]. split; [done|].
      by apply StronglySorted_inv in Hsorted as [? _]. }
    split; [apply (holds_entries cmp _ _ Hl') | by eapply holds_levels_ok].
Qed.

(** X6: [pop_last] looks at the count first: with a count of zero it returns
    false and changes nothing; with another count, on a container that has
    entries, it hands out the pair that iteration visits last, removes that
    entry and no other, lowers the count by one and leaves every level in
    order. *)
Theorem pop_last_takes_the_last s key value es :
  reachable cmp MAX s → entries s.1 s.2 = Some es →
  (count s.1 = 0%Z →
   skiplist_pop_last s.1 s.2 key value =
     Some (false, s.1, s.2, key, value)) ∧
  (count s.1 ≠ 0%Z →
   ∀ es1 k v, es = es1 ++ [(k, v)] →
     ∃ m',
       skiplist_pop_last s.1 s.2 key value =
         Some (true, mk_skiplist (size_t (count s.1 - 1)) (head s.1), m',
               store_out key k, store_out value v) ∧
       entries (mk_skiplist (size_t (count s.1 - 1)) (head s.1)) m' =
         Some es1 ∧
       levels_ok cmp
         (mk_skiplist (size_t (count s.1 - 1)) (head s.1), m')).
Proof.
  intros Hreach Hes. destruct s as [sl m]. cbn [fst snd] in *.
  destruct (reachable_holds cmp MAX (sl, m) cmp_ok MAX_pos Hreach)
    as (l & Hl & Hr & Hes').
  cbn [fst snd] in *. rewrite Hes in Hes'. injection Hes' as ->.
  destruct Hl as (hde & Hhd & Hs & Hsorted). cbn [fst snd] in *. split.
  - intros Hc. by apply (pop_last_zero_spec sl m hde l).
  - intros Hc es1 k v Heq.
    destruct l as [|z l1 _] using rev_ind.
    { by destruct es1. }
    rewrite fmap_snoc in Heq. apply app_inj_tail in Heq as [<- Hz].
    injection Hz as <- <-.
    destruct (pop_last_spec sl m hde l1 z key value Hhd Hs Hc)
      as (m' & Hpop & Hs' & _).
    exists m'. split; [done|].
    assert (Hl' : holds cmp
              (mk_skiplist (size_t (count sl - 1)) (head sl), m') l1).
    { exists hde. split; [done|]. split; [done|].
      by apply sorted_app_inv in Hsorted as [? _]. }
    split; [apply (holds_entries cmp _ _ Hl') | by eapply holds_levels_ok].
Qed.

End Queries.

Lemma lookup_finds_first_match_witness :
  skiplist_get cmp_int (run_from_fresh two_equal_keys).1
    (run_from_fresh two_equal_keys).2 (Obj 15) (Some NULL) =
    Some (match list_find (λ kv, cmp_int kv.1 (Obj 15) = 0%Z)
                  [(Obj 10, Obj 2); (Obj 10, Obj 1); (Obj 30, Obj 3)] with
          | Some (_, kv) => (true, store_out (Some NULL) kv.2)
          | None => (false, Some NULL)
          end).
Proof.
  apply (lookup_finds_first_match cmp_int 8 cmp_int_three_way).
  - lia.
  - apply run_from_fresh_reachable. vm_compute. eauto.
  - vm_compute. reflexivity.
Defined.

Lemma member_iff_equal_key_stored_witness :
  skiplist_member cmp_int (run_from_fresh two_equal_keys).1
    (run_from_fresh two_equal_keys).2 (Obj 31) =
    Some (bool_decide
            (Exists (λ kv, cmp_int kv.1 (Obj 31) = 0%Z)
               [(Obj 10, Obj 2); (Obj 10, Obj 1); (Obj 30, Obj 3)])).
Proof.
  apply (member_iff_equal_key_stored cmp_int 8 cmp_int_three_way).
  - lia.
  - apply run_from_fresh_reachable. vm_compute. eauto.
  - vm_compute. reflexivity.
Defined.

Lemma remove_takes_first_match_witness :
  ∃ b sl' m' old',
    skiplist_delete cmp_int (run_from_fresh two_equal_keys).1
      (run_from_fresh two_equal_keys).2 (Obj 15) (Some NULL) =
      Some (b, sl', m', old') ∧
    match list_find (λ kv, cmp_int kv.1 (Obj 15) = 0%Z)
            [(Obj 10, Obj 2); (Obj 10, Obj 1); (Obj 30, Obj 3)] with
    | None =>
        b = false ∧ sl' = (run_from_fresh two_equal_keys).1 ∧
        m' = (run_from_fresh two_equal_keys).2 ∧ old' = Some NULL
    | Some (i, kv) =>
        b = true ∧ old' = store_out (Some NULL) kv.2 ∧
        count sl' = size_t (count (run_from_fresh two_equal_keys).1 - 1) ∧
        head sl' = head (run_from_fresh two_equal_keys).1 ∧
        entries sl' m' =
          Some (delete i [(Obj 10, Obj 2); (Obj 10, Obj 1); (Obj 30, Obj 3)])
        ∧ levels_ok cmp_int (sl', m')
    end.
Proof.
  apply (remove_takes_first_match cmp_int 8 cmp_int_three_way).
  - lia.
  - apply run_from_fresh_reachable. vm_compute. eauto.
  - vm_compute. reflexivity.
Defined.

Lemma first_is_least_witness :
  skiplist_first (run_from_fresh two_equal_keys).1
    (run_from_fresh two_equal_keys).2 (Some NULL) None =
    Some (true, Some (Obj 10), None) ∧
  ∀ k v rest,
    [(Obj 10, Obj 2); (Obj 10, Obj 1); (Obj 30, Obj 3)] = (k, v) :: rest →
    Forall (λ kv, (cmp_int k kv.1 ≤ 0)%Z) rest.
Proof.
  apply (first_is_least cmp_int 8 cmp_int_three_way ltac:(lia)
           (run_from_fresh two_equal_keys) (Some NULL) None
           [(Obj 10, Obj 2); (Obj 10, Obj 1); (Obj 30, Obj 3)]).
  - apply run_from_fresh_reachable. vm_compute. eauto.
  - vm_compute. reflexivity.
Defined.

Lemma pop_first_takes_the_first_witness :
  ∃ m',
    skiplist_pop_first (run_from_fresh two_equal_keys).1
      (run_from_fresh two_equal_keys).2 (Some NULL) (Some NULL) =
      Some (true,
            mk_skiplist
              (size_t (count (run_from_fresh two_equal_keys).1 - 1))
              (head (run_from_fresh two_equal_keys).1),
            m', Some (Obj 10), Some (Obj 2)) ∧
    entries
      (mk_skiplist (size_t (count (run_from_fresh two_equal_keys).1 - 1))
         (head (run_from_fresh two_equal_keys).1)) m' =
      Some [(Obj 10, Obj 1); (Obj 30, Obj 3)] ∧
    levels_ok cmp_int
      (mk_skiplist (size_t (count (run_from_fresh two_equal_keys).1 - 1))
         (head (run_from_fresh two_equal_keys).1), m').
Proof.
  apply (pop_first_takes_the_first cmp_int 8 cmp_int_three_way ltac:(lia)
           (run_from_fresh two_equal_keys) (Some NULL) (Some NULL)
           [(Obj 10, Obj 2); (Obj 10, Obj 1); (Obj 30, Obj 3)]).
  - apply run_from_fresh_reachable. vm_compute. eauto.
  - vm_compute. reflexivity.
Defined.

Lemma pop_last_takes_the_last_witness :
  (count (run_from_fresh two_equal_keys).1 = 0%Z →
   skiplist_pop_last (run_from_fresh two_equal_keys).1
     (run_from_fresh two_equal_keys).2 (Some NULL) (Some NULL) =
     Some (false, (run_from_fresh two_equal_keys).1,
           (run_from_fresh two_equal_keys).2, Some NULL, Some NULL)) ∧
  (count (run_from_fresh two_equal_keys).1 ≠ 0%Z →
   ∀ es1 k v,
     [(Obj 10, Obj 2); (Obj 10, Obj 1); (Obj 30, Obj 3)] =
       es1 ++ [(k, v)] →
     ∃ m',
       skiplist_pop_last (run_from_fresh two_equal_keys).1
         (run_from_fresh two_equal_keys).2 (Some NULL) (Some NULL) =
         Some (true,
               mk_skiplist
                 (size_t (count (run_from_fresh two_equal_keys).1 - 1))
                 (head (run_from_fresh two_equal_keys).1),
               m', store_out (Some NULL) k, store_out (Some NULL) v) ∧
       entries
         (mk_skiplist
            (size_t (count (run_from_fresh two_equal_keys).1 - 1))
            (head (run_from_fresh two_equal_keys).1)) m' = Some es1 ∧
       levels_ok cmp_int
         (mk_skiplist
            (size_t (count (run_from_fresh two_equal_keys).1 - 1))
            (head (run_from_fresh two_equal_keys).1), m')).
Proof.
  apply (pop_last_takes_the_last cmp_int 8 cmp_int_three_way).
  - lia.
  - apply run_from_fresh_reachable. vm_compute. eauto.
  - vm_compute. reflexivity.
Defined.


(** ** The last entry *)

Section Last.

Implicit Types (l r pre : list entry) (e c d z : entry) (L j : nat) (m : heap).

Lemma last_at_0 c pb :
  Forall (λ e, 1 ≤ e_h e) pb →
  last_at 0 (e_ptr c) pb = e_ptr (default c (last pb)).
Proof.
  revert c. induction pb as [|e pb IH]; intros c Hpos; [done|].
  apply Forall_cons in Hpos as [He Hpos].
  cbn [last_at]. rewrite decide_True by lia. rewrite (IH e Hpos).
  rewrite last_cons. by destruct (last pb).
Qed.

(** The loop of [skiplist_last], started at a cell [c] of level [lvl] with
    [pb] the cells after it: it ends on the last cell. *)
Lemma skiplist_last_loop_spec m hde l :
  skl m hde l →
  ∀ fuel pa c pb lvl,
    hde :: l = pa ++ c :: pb → lvl < e_h c → length pb + lvl < fuel →
    skiplist_last_loop fuel m (e_ptr c) lvl = Some (last_at 0 (e_ptr c) pb).
Proof.
  intros Hs.
  induction fuel as [|fuel IH]; intros pa c pb lvl Hsplit Hc Hfuel; [lia|].
  cbn [skiplist_last_loop].
  rewrite (get_next_at m hde l pa c pb lvl Hs Hsplit Hc). obind.
  destruct (first_at_cases lvl pb)
    as [[Hlow ->]|(pb1 & e & pb2 & -> & Hlow & He & ->)];
    cbn [IS_SENTINEL e_ptr].
  - destruct lvl as [|lvl'].
    + by rewrite last_at_low.
    + apply (IH pa c pb lvl'); [done | lia | lia].
  - change (Ptr (e_addr e)) with (e_ptr e).
    rewrite (IH (pa ++ c :: pb1) e pb2 lvl).
    + rewrite last_at_app. cbn [last_at]. by rewrite decide_True by lia.
    + rewrite Hsplit. list_assoc.
    + done.
    + rewrite length_app in Hfuel. simpl in Hfuel. lia.
Qed.

Lemma at_level_nil_low L l : at_level L l = [] → low L l.
Proof.
  unfold at_level, low. induction l as [|e l IH]; [constructor|].
  rewrite filter_cons. case_decide; [done|].
  intros Hnil. constructor; [lia | by apply IH].
Qed.

Lemma skiplist_last_spec sl m hde l key value :
  head sl = e_ptr hde → skl m hde l →
  skiplist_last sl m key value =
  Some (match at_level (e_h hde - 1) l, last l with
        | _ :: _, Some z =>
            (true, store_out key (e_k z), store_out value (e_v z))
        | _, _ => (false, key, value)
        end).
Proof.
  intros Hhd Hs. unfold skiplist_last. rewrite Hhd.
  rewrite (deref_at m hde l [] hde l Hs eq_refl). obind.
  destruct (e_h hde) as [|lvl] eqn:Hh; [destruct Hs; lia|].
  rewrite (get_next_at m hde l [] hde l lvl Hs eq_refl) by lia. obind.
  replace (S lvl - 1) with lvl by lia.
  destruct (first_at_cases lvl l)
    as [[Hlow ->]|(l1 & e & l2 & -> & Hlow & He & ->)];
    cbn [IS_SENTINEL e_ptr].
  - unfold at_level. rewrite filter_none; [done|].
    eapply Forall_impl; [exact Hlow|]. simpl. intros; lia.
  - change (Ptr (e_addr e)) with (e_ptr e).
    rewrite (skiplist_last_loop_spec m hde _ Hs (size m + S lvl)
               (hde :: l1) e l2 lvl eq_refl He).
    2:{ pose proof (skl_size _ _ _ Hs) as Hsz.
        rewrite length_app in Hsz. simpl in Hsz. lia. }
    obind.
    pose proof (skl_pos _ _ _ Hs) as Hpos.
    apply Forall_app in Hpos as [_ Hpos].
    apply Forall_cons in Hpos as [_ Hpos].
    rewrite (last_at_0 e l2 Hpos).
    assert (Hlast : last (l1 ++ e :: l2) = Some (default e (last l2))).
    { rewrite last_app, last_cons. by destruct (last l2). }
    rewrite Hlast.
    destruct (skl_deref_in m hde (l1 ++ e :: l2) (default e (last l2)) Hs)
      as [rest ->].
    { apply last_Some_elem_of. done. }
    obind. unfold at_level. rewrite filter_app, filter_cons_True by done.
    by destruct (filter _ l1).
Qed.

End Last.

Section LastOfReachable.

Context (cmp : voidp → voidp → Z) (MAX : nat).
Hypothesis cmp_ok : three_way cmp.
Hypothesis MAX_pos : 1 ≤ MAX.

(** X7: [last] starts from the head's forward pointer at the head's top
    level. When that level has no cell it returns false and leaves both
    cells as they were, whether or not the container has entries; otherwise
    it hands out the pair that iteration visits last. *)
Theorem last_starts_at_the_top_level s key value es :
  reachable cmp MAX s → entries s.1 s.2 = Some es →
  ∃ hn top,
    deref s.2 (head s.1) = Some hn ∧
    level_list s.1 s.2 (node_h hn - 1) = Some top ∧
    skiplist_last s.1 s.2 key value =
      Some (match top, last es with
            | _ :: _, Some (k, v) =>
                (true, store_out key k, store_out value v)
            | _, _ => (false, key, value)
            end).
Proof.
  intros Hreach Hes. destruct s as [sl m]. cbn [fst snd] in *.
  destruct (reachable_holds cmp MAX (sl, m) cmp_ok MAX_pos Hreach)
    as (l & Hl & Hr & Hes').
  cbn [fst snd] in *. rewrite Hes in Hes'. injection Hes' as ->.
  destruct Hl as (hde & Hhd & Hs & Hsorted). cbn [fst snd] in *.
  exists (node_of hde l), (e_ptr <$> at_level (e_h hde - 1) l).
  split; [rewrite Hhd; by apply (deref_at m hde l [] hde l)|].
  cbn [node_of node_h]. split.
  - apply (level_list_spec sl m hde l); [done | done |]. destruct Hs; lia.
  - rewrite (skiplist_last_spec sl m hde l key value Hhd Hs).
    rewrite fmap_last.
    destruct (at_level (e_h hde - 1) l); [done|].
    by destruct (last l).
Qed.

End LastOfReachable.

(** A tall entry, a short one after it, then the tall one removed: the head
    keeps three levels, of which the upper two are empty. *)
Definition tall_entry_removed : list op :=
  [op_add (Obj 10) (Obj 1) 3 (Some 1) (Some 101);
   op_add (Obj 30) (Obj 3) 0 (Some 2) (Some 102);
   op_delete (Obj 10) None].

Lemma last_starts_at_the_top_level_witness :
  (∃ hn top,
     deref (run_from_fresh tall_entry_removed).2
           (head (run_from_fresh tall_entry_removed).1) = Some hn ∧
     level_list (run_from_fresh tall_entry_removed).1
                (run_from_fresh tall_entry_removed).2 (node_h hn - 1) =
       Some top ∧
     skiplist_last (run_from_fresh tall_entry_removed).1
                   (run_from_fresh tall_entry_removed).2
                   (Some NULL) (Some NULL) =
       Some (match top, last [(Obj 30, Obj 3)] with
             | _ :: _, Some (k, v) =>
                 (true, store_out (Some NULL) k, store_out (Some NULL) v)
             | _, _ => (false, Some NULL, Some NULL)
             end)) ∧
  skiplist_last (run_from_fresh tall_entry_removed).1
                (run_from_fresh tall_entry_removed).2
                (Some NULL) (Some NULL) =
    Some (false, Some NULL, Some NULL) ∧
  skiplist_last (run_from_fresh two_equal_keys).1
                (run_from_fresh two_equal_keys).2
                (Some NULL) (Some NULL) =
    Some (true, Some (Obj 30), Some (Obj 3)).
Proof.
  split; [|split; vm_compute; reflexivity].
  apply (last_starts_at_the_top_level cmp_int 8 cmp_int_three_way).
  - lia.
  - apply run_from_fresh_reachable. vm_compute. eauto.
  - vm_compute. reflexivity.
Defined.


(** ** Iteration with any callback *)

(** What a visit callback accumulates over a list of pairs: it is called on
    each pair in turn, until it answers halt. *)
Fixpoint visit {U : Type} (cb : skiplist_iter_cb U)
    (es : list (voidp * voidp)) (udata : U) : U :=
  match es with
  | [] => udata
  | (k, v) :: rest =>
      let '(res, udata') := cb k v udata in
      match res with
      | SKIPLIST_ITER_CONTINUE => visit cb rest udata'
      | SKIPLIST_ITER_HALT => udata'
      end
  end.

(** The pair stored in the cell at [p]. *)
Definition cell_pair (m : heap) (p : node_ptr) : option (voidp * voidp) :=
  n ← deref m p; Some (node_k n, node_v n).

Section Iteration.

Context (cmp : voidp → voidp → Z) (MAX : nat) {U : Type}.

Implicit Types (l r pre : list entry) (e d z : entry) (L j : nat) (m : heap).

Lemma walk_visit m hde l r (cb : skiplist_iter_cb U) :
  skl m hde l →
  ∀ pre fuel udata, hde :: l = pre ++ r → pre ≠ [] → length r < fuel →
    walk_and_apply fuel m (first_at 0 r) cb udata =
    Some (visit cb (pair_of <$> r) udata).
Proof.
  intros Hs. induction r as [|e r IH]; intros pre fuel udata Heq Hpre Hfuel;
    (destruct fuel as [|fuel]; [simpl in Hfuel; lia|]).
  - done.
  - assert (He : 1 ≤ e_h e).
    { apply skl_pos in Hs. destruct pre as [|y pre]; [done|].
      inversion Heq; subst. apply Forall_app in Hs as [_ Hs].
      by apply Forall_cons in Hs as [? _]. }
    cbn [first_at]. rewrite decide_True by lia.
    cbn [walk_and_apply IS_SENTINEL e_ptr].
    change (Ptr (e_addr e)) with (e_ptr e).
    rewrite (deref_at m hde l pre e r Hs Heq). obind.
    rewrite fmap_cons. cbn [visit pair_of].
    destruct (cb (e_k e) (e_v e) udata) as [[] udata']; [|done].
    rewrite nexts_of_lookup by lia. obind.
    apply (IH (pre ++ [e]) fuel).
    + rewrite Heq. list_assoc.
    + by destruct pre.
    + simpl in Hfuel. lia.
Qed.

Hypothesis cmp_ok : three_way cmp.
Hypothesis MAX_pos : 1 ≤ MAX.

Lemma mapM_cell_pair m hde l r :
  skl m hde l → (∀ e, e ∈ r → e ∈ l) →
  mapM (cell_pair m) (e_ptr <$> r) = Some (pair_of <$> r).
Proof.
  intros Hs. induction r as [|e r IH]; intros Hin; [done|].
  rewrite !fmap_cons. cbn [mapM].
  assert (He : cell_pair m (e_ptr e) = Some (pair_of e)).
  { unfold cell_pair.
    destruct (skl_deref_in m hde l e Hs) as [rest ->]; [apply Hin; left|].
    done. }
  rewrite He. obind. rewrite IH; [done|].
  intros e' He'. apply Hin. by right.
Qed.

(** X8: iteration calls the callback on the pairs stored in the cells of
    level 0, in the order of that level, threading the callback state, and
    stops after the first call that answers halt. *)
Theorem iteration_stops_at_halt s (cb : skiplist_iter_cb U) udata ns :
  reachable cmp MAX s → level_list s.1 s.2 0 = Some ns →
  ∃ es, mapM (cell_pair s.2) ns = Some es ∧
        skiplist_iter s.1 s.2 cb udata = Some (visit cb es udata).
Proof.
  intros Hreach Hns. destruct s as [sl m]. cbn [fst snd] in *.
  destruct (reachable_holds cmp MAX (sl, m) cmp_ok MAX_pos Hreach)
    as (l & Hl & _).
  destruct Hl as (hde & Hhd & Hs & Hsorted). cbn [fst snd] in *.
  rewrite (level_list_spec sl m hde l 0 Hhd Hs) in Hns
    by (destruct Hs; lia).
  assert (Hall : at_level 0 l = l).
  { unfold at_level. apply filter_all.
    eapply Forall_impl; [exact (skl_pos _ _ _ Hs)|]. simpl. intros; lia. }
  rewrite Hall in Hns. injection Hns as <-.
  exists (pair_of <$> l). split; [by apply (mapM_cell_pair m hde l)|].
  unfold skiplist_iter. rewrite Hhd.
  rewrite (get_next_at m hde l [] hde l 0 Hs eq_refl) by (destruct Hs; lia).
  obind.
  apply (walk_visit m hde l l cb Hs [hde]); [done | done |].
  pose proof (skl_size _ _ _ Hs). lia.
Qed.

(** X9: iteration from a key starts at the first entry whose key compares
    equal to it and goes on to the end (or to the first halt); when no
    stored key compares equal the callback is not called at all, even if
    larger keys are stored. *)
Theorem iteration_from_needs_an_equal_key s key (cb : skiplist_iter_cb U)
    udata es :
  reachable cmp MAX s → entries s.1 s.2 = Some es →
  skiplist_iter_from cmp s.1 s.2 key cb udata =
    Some (match list_find (λ kv, cmp kv.1 key = 0%Z) es with
          | Some (i, _) => visit cb (drop i es) udata
          | None => udata
          end).
Proof.
  intros Hreach Hes. destruct s as [sl m]. cbn [fst snd] in *.
  destruct (reachable_holds cmp MAX (sl, m) cmp_ok MAX_pos Hreach)
    as (l & Hl & Hr & Hes').
  cbn [fst snd] in *. rewrite Hes in Hes'. injection Hes' as ->.
  destruct Hl as (hde & Hhd & Hs & Hsorted). cbn [fst snd] in *.
  unfold skiplist_iter_from.
  rewrite (get_first_eq_node_spec cmp sl m hde l key Hhd Hs Hsorted cmp_ok).
  obind. rewrite (find_pair cmp cmp_ok key l Hsorted).
  destruct (lookup_entry cmp key l) as [e|] eqn:Hlk;
    cbn [fmap option_fmap option_map]; [|done].
  apply lookup_entry_Some in Hlk as (l2 & Hfrom & Heq).
  pose proof (below_from cmp key l) as Hsplit. rewrite Hfrom in Hsplit.
  assert (He : 1 ≤ e_h e).
  { apply skl_pos in Hs. rewrite <- Hsplit in Hs.
    apply Forall_app in Hs as [_ Hs]. by apply Forall_cons in Hs as [? _]. }
  assert (Hdrop : drop (length (below cmp key l)) (pair_of <$> l) =
                  pair_of <$> e :: l2).
  { rewrite <- fmap_drop. f_equal. rewrite <- Hsplit at 2.
    by rewrite drop_app_length. }
  rewrite Hdrop.
  pose proof (walk_visit m hde l (e :: l2) cb Hs (hde :: below cmp key l)
                (S (size m)) udata) as Hwalk.
  cbn [first_at] in Hwalk. rewrite decide_True in Hwalk by lia.
  apply Hwalk.
  - by rewrite <- Hsplit at 1.
  - done.
  - pose proof (skl_size _ _ _ Hs) as Hsz. rewrite <- Hsplit in Hsz.
    rewrite length_app in Hsz. simpl in *. lia.
Qed.

End Iteration.

(** A visit callback that records what it is shown and halts on the first
    key equal to [stop]. *)
Definition record_until (stop : voidp)
  : skiplist_iter_cb (list (voidp * voidp)) :=
  λ key value acc,
    (if decide (cmp_int key stop = 0%Z) then SKIPLIST_ITER_HALT
     else SKIPLIST_ITER_CONTINUE,
     acc ++ [(key, value)]).

Lemma iteration_stops_at_halt_witness :
  (∃ es,
     mapM (cell_pair (run_from_fresh distinct_references).2)
       [Ptr 4; Ptr 2; Ptr 1; Ptr 3] = Some es ∧
     skiplist_iter (run_from_fresh distinct_references).1
       (run_from_fresh distinct_references).2 (record_until (Obj 15)) [] =
       Some (visit (record_until (Obj 15)) es [])) ∧
  mapM (cell_pair (run_from_fresh distinct_references).2)
    [Ptr 4; Ptr 2; Ptr 1; Ptr 3] =
    Some [(Obj 5, Obj 4); (Obj 12, Obj 2); (Obj 11, Obj 1); (Obj 30, Obj 3)] ∧
  skiplist_iter (run_from_fresh distinct_references).1
    (run_from_fresh distinct_references).2 (record_until (Obj 15)) [] =
    Some [(Obj 5, Obj 4); (Obj 12, Obj 2)].
Proof.
  split; [|split; vm_compute; reflexivity].
  apply (iteration_stops_at_halt cmp_int 8 cmp_int_three_way).
  - lia.
  - apply run_from_fresh_reachable. vm_compute. eauto.
  - vm_compute. reflexivity.
Defined.

Lemma iteration_from_needs_an_equal_key_witness :
  skiplist_iter_from cmp_int (run_from_fresh distinct_references).1
    (run_from_fresh distinct_references).2 (Obj 20) collect_cb [] =
    Some (match list_find (λ kv, cmp_int kv.1 (Obj 20) = 0%Z)
                  [(Obj 5, Obj 4); (Obj 12, Obj 2); (Obj 11, Obj 1);
                   (Obj 30, Obj 3)] with
          | Some (i, _) =>
              visit collect_cb
                (drop i [(Obj 5, Obj 4); (Obj 12, Obj 2); (Obj 11, Obj 1);
                         (Obj 30, Obj 3)]) []
          | None => []
          end) ∧
  skiplist_iter_from cmp_int (run_from_fresh distinct_references).1
    (run_from_fresh distinct_references).2 (Obj 20) collect_cb [] = Some [] ∧
  skiplist_iter_from cmp_int (run_from_fresh distinct_references).1
    (run_from_fresh distinct_references).2 (Obj 10) collect_cb [] =
    Some [(Obj 12, Obj 2); (Obj 11, Obj 1); (Obj 30, Obj 3)].
Proof.
  split; [|split; vm_compute; reflexivity].
  apply (iteration_from_needs_an_equal_key cmp_int 8 cmp_int_three_way).
  - lia.
  - apply run_from_fresh_reachable. vm_compute. eauto.
  - vm_compute. reflexivity.
Defined.


(** ** Clearing and freeing *)

Section Disposal.

Context {U : Type}.

Implicit Types (l r pre : list entry) (e c d z : entry) (L j : nat) (m : heap).

(** [skiplist_clear], with what becomes of the blocks of the entries. *)
Lemma skiplist_clear_released sl m hde l cb (udata : U) :
  head sl = e_ptr hde → skl m hde l →
  ∃ m', skiplist_clear sl m cb udata =
          Some (size_t (Z.of_nat (length l)), sl, m', dispose cb l udata) ∧
        skl m' hde [] ∧
        (∀ a, a ∉ e_addr <$> hde :: l → m' !! a = m !! a) ∧
        (∀ e, e ∈ l → m' !! e_addr e = None).
Proof.
  intros Hhd Hs. unfold skiplist_clear. rewrite Hhd.
  rewrite (get_next_at m hde l [] hde l 0 Hs eq_refl) by (destruct Hs; lia).
  cbn -[clear_loop size_t].
  pose proof (skl_size _ _ _ Hs) as Hsz.
  destruct Hs as [Hnodes Hnd Hheights Hhh].
  apply nodes_ok_cons in Hnodes as [Hh Hnodes]. rewrite app_nil_r in Hh.
  rewrite fmap_cons in Hnd. apply NoDup_cons in Hnd as [Hni Hnd].
  change 0%Z with (size_t 0).
  rewrite (clear_loop_spec cb l m udata 0 (S (size m))); [|done| |done|lia].
  2:{ eapply Forall_impl; [exact Hheights|]. simpl. intros; lia. }
  simpl.
  assert (Hh' : release l m !! e_addr hde = Some (node_of hde l)).
  { by rewrite release_lookup_ne. }
  rewrite (deref_entry _ _ _ Hh'). simpl.
  destruct (relink_loop hde [] l [] (e_h hde) (release l m) (e_h hde)
              (λ i m0, set_next m0 (e_ptr hde) i SENTINEL))
    as (m1 & -> & Hmix & Hfr).
  - rewrite fmap_cons. apply NoDup_cons. split; [apply not_elem_of_nil|].
    apply NoDup_nil_2.
  - done.
  - done.
  - apply prefix_mix_start; [intros; lia | constructor |].
    apply nodes_ok_cons. split; [done | apply nodes_ok_nil].
  - done.
  - simpl. exists m1. split; [done|].
    assert (Hone : ∀ a, a ≠ e_addr hde → a ∉ e_addr <$> [hde]).
    { intros a Hne. rewrite fmap_cons. apply not_elem_of_cons.
      split; [done | apply not_elem_of_nil]. }
    split; [|split].
    + split.
      * apply (prefix_mix_done hde [] l [] (e_h hde) (e_h hde));
          [intros; lia | constructor | done].
      * rewrite fmap_cons. apply NoDup_cons.
        split; [apply not_elem_of_nil | apply NoDup_nil_2].
      * constructor.
      * done.
    + intros a Ha. change (a ∉ e_addr hde :: (e_addr <$> l)) in Ha.
      apply not_elem_of_cons in Ha as [Hne Ha].
      rewrite Hfr by (by apply Hone). by apply release_lookup_ne.
    + intros e He.
      assert (Hin : e_addr e ∈ e_addr <$> l) by (by apply list_elem_of_fmap_2).
      rewrite Hfr; [by apply release_lookup_in|].
      apply Hone. intros Heq. apply Hni. by rewrite <- Heq.
Qed.

End Disposal.

Section ClearAndFree.

Context (cmp : voidp → voidp → Z) (MAX : nat) {U : Type}.
Hypothesis cmp_ok : three_way cmp.
Hypothesis MAX_pos : 1 ≤ MAX.

Implicit Types (l r pre : list entry) (e c d z : entry) (L j : nat) (m : heap).

Lemma level_zero_cells sl m hde l :
  head sl = e_ptr hde → skl m hde l →
  level_list sl m 0 = Some (e_ptr <$> l).
Proof.
  intros Hhd Hs.
  rewrite (level_list_spec sl m hde l 0 Hhd Hs) by (destruct Hs; lia).
  unfold at_level. rewrite filter_all; [done|].
  eapply Forall_impl; [exact (skl_pos _ _ _ Hs)|]. simpl. intros; lia.
Qed.

Lemma dispose_pairs (cb : option (skiplist_free_cb U)) l (udata : U) :
  dispose cb l udata =
  fold_left (λ u kv, match cb with
                     | Some f => f kv.1 kv.2 u
                     | None => u
                     end) (pair_of <$> l) udata.
Proof. by rewrite fold_left_pairs. Qed.

(** X10: [clear] calls the disposal callback, when one is given, once per
    entry in iteration order with the stored key and value, returns the
    number of entries, releases the block of every entry and no other
    block, and leaves a container without entries whose levels are in
    order. *)
Theorem clear_disposes_in_order s (cb : option (skiplist_free_cb U)) udata
    es ns :
  reachable cmp MAX s → entries s.1 s.2 = Some es →
  level_list s.1 s.2 0 = Some ns →
  ∃ m',
    skiplist_clear s.1 s.2 cb udata =
      Some (size_t (Z.of_nat (length es)), s.1, m',
            fold_left (λ u kv, match cb with
                               | Some f => f kv.1 kv.2 u
                               | None => u
                               end) es udata) ∧
    Forall (λ p, deref m' p = None) ns ∧
    (∀ a, Ptr a ∉ ns → is_Some (m' !! a) ↔ is_Some (s.2 !! a)) ∧
    entries s.1 m' = Some [] ∧
    levels_ok cmp (s.1, m').
Proof.
  intros Hreach Hes Hns. destruct s as [sl m]. cbn [fst snd] in *.
  destruct (reachable_holds cmp MAX (sl, m) cmp_ok MAX_pos Hreach)
    as (l & Hl & Hr & Hes').
  cbn [fst snd] in *. rewrite Hes in Hes'. injection Hes' as ->.
  destruct Hl as (hde & Hhd & Hs & Hsorted). cbn [fst snd] in *.
  rewrite (level_zero_cells sl m hde l Hhd Hs) in Hns. injection Hns as <-.
  destruct (skiplist_clear_released sl m hde l cb udata Hhd Hs)
    as (m' & Hclear & Hs' & Hfr & Hrel).
  exists m'. rewrite length_fmap, <- dispose_pairs. split; [done|].
  assert (Hl' : holds cmp (sl, m') []).
  { exists hde. split; [done|]. split; [done | constructor]. }
  split; [|split; [|split]].
  - apply Forall_fmap, Forall_forall. intros e He. by apply Hrel.
  - intros a Ha.
    destruct (decide (a = e_addr hde)) as [->|Hne].
    + rewrite (skl_at m' hde [] [] hde [] Hs' eq_refl).
      rewrite (skl_at m hde l [] hde l Hs eq_refl). split; eauto.
    + rewrite Hfr; [done|].
      rewrite fmap_cons. apply not_elem_of_cons. split; [done|].
      intros (e & -> & He)%list_elem_of_fmap. apply Ha.
      by apply (list_elem_of_fmap_2 e_ptr).
  - apply (holds_entries cmp _ _ Hl').
  - by eapply holds_levels_ok.
Qed.

(** X11: [free] disposes of the entries as [clear] does and returns their
    number, then releases the head: afterwards the head block and the block
    of every entry are gone, and every other block is untouched. *)
Theorem free_releases_every_block s (cb : option (skiplist_free_cb U)) udata
    es ns :
  reachable cmp MAX s → entries s.1 s.2 = Some es →
  level_list s.1 s.2 0 = Some ns →
  ∃ m',
    skiplist_free s.1 s.2 cb udata =
      Some (size_t (Z.of_nat (length es)), m',
            fold_left (λ u kv, match cb with
                               | Some f => f kv.1 kv.2 u
                               | None => u
                               end) es udata) ∧
    Forall (λ p, deref m' p = None) (head s.1 :: ns) ∧
    (∀ a, Ptr a ∉ head s.1 :: ns → m' !! a = s.2 !! a).
Proof.
  intros Hreach Hes Hns. destruct s as [sl m]. cbn [fst snd] in *.
  destruct (reachable_holds cmp MAX (sl, m) cmp_ok MAX_pos Hreach)
    as (l & Hl & Hr & Hes').
  cbn [fst snd] in *. rewrite Hes in Hes'. injection Hes' as ->.
  destruct Hl as (hde & Hhd & Hs & Hsorted). cbn [fst snd] in *.
  rewrite (level_zero_cells sl m hde l Hhd Hs) in Hns. injection Hns as <-.
  destruct (skiplist_clear_released sl m hde l cb udata Hhd Hs)
    as (m' & Hclear & Hs' & Hfr & Hrel).
  unfold skiplist_free. rewrite Hclear. obind. rewrite Hhd.
  rewrite (node_free_at m' hde _ (skl_at m' hde [] [] hde [] Hs' eq_refl)).
  obind. eexists. rewrite length_fmap, <- dispose_pairs. split; [done|].
  split.
  - constructor.
    + unfold deref, e_ptr. apply lookup_delete_eq.
    + apply Forall_fmap, Forall_forall. intros e He.
      unfold deref, e_ptr. cbn [compose].
      destruct (decide (e_addr e = e_addr hde)) as [->|Hne].
      * apply lookup_delete_eq.
      * rewrite lookup_delete_ne by done. by apply Hrel.
  - intros a Ha. apply not_elem_of_cons in Ha as [Hne Ha].
    assert (a ≠ e_addr hde) by (intros ->; by apply Hne).
    rewrite lookup_delete_ne by done. apply Hfr.
    rewrite fmap_cons. apply not_elem_of_cons. split; [done|].
    intros (e & -> & He)%list_elem_of_fmap. apply Ha.
    by apply (list_elem_of_fmap_2 e_ptr).
Qed.

End ClearAndFree.

Lemma clear_disposes_in_order_witness :
  ∃ m',
    skiplist_clear (run_from_fresh distinct_references).1
      (run_from_fresh distinct_references).2 (Some log_cb) [] =
      Some (size_t (Z.of_nat 4), (run_from_fresh distinct_references).1, m',
            fold_left (λ u kv, log_cb kv.1 kv.2 u)
              [(Obj 5, Obj 4); (Obj 12, Obj 2); (Obj 11, Obj 1);
               (Obj 30, Obj 3)] []) ∧
    Forall (λ p, deref m' p = None) [Ptr 4; Ptr 2; Ptr 1; Ptr 3] ∧
    (∀ a, Ptr a ∉ [Ptr 4; Ptr 2; Ptr 1; Ptr 3] →
          is_Some (m' !! a) ↔
          is_Some ((run_from_fresh distinct_references).2 !! a)) ∧
    entries (run_from_fresh distinct_references).1 m' = Some [] ∧
    levels_ok cmp_int ((run_from_fresh distinct_references).1, m').
Proof.
  apply (clear_disposes_in_order cmp_int 8 cmp_int_three_way ltac:(lia)
           (run_from_fresh distinct_references) (Some log_cb) []
           [(Obj 5, Obj 4); (Obj 12, Obj 2); (Obj 11, Obj 1);
            (Obj 30, Obj 3)]).
  - apply run_from_fresh_reachable. vm_compute. eauto.
  - vm_compute. reflexivity.
  - vm_compute. reflexivity.
Defined.

Lemma free_releases_every_block_witness :
  ∃ m',
    skiplist_free (run_from_fresh distinct_references).1
      (run_from_fresh distinct_references).2 (Some log_cb) [] =
      Some (size_t (Z.of_nat 4), m',
            fold_left (λ u kv, log_cb kv.1 kv.2 u)
              [(Obj 5, Obj 4); (Obj 12, Obj 2); (Obj 11, Obj 1);
               (Obj 30, Obj 3)] []) ∧
    Forall (λ p, deref m' p = None)
      (head (run_from_fresh distinct_references).1 ::
       [Ptr 4; Ptr 2; Ptr 1; Ptr 3]) ∧
    (∀ a, Ptr a ∉ head (run_from_fresh distinct_references).1 ::
                   [Ptr 4; Ptr 2; Ptr 1; Ptr 3] →
          m' !! a = (run_from_fresh distinct_references).2 !! a).
Proof.
  apply (free_releases_every_block cmp_int 8 cmp_int_three_way ltac:(lia)
           (run_from_fresh distinct_references) (Some log_cb) []
           [(Obj 5, Obj 4); (Obj 12, Obj 2); (Obj 11, Obj 1);
            (Obj 30, Obj 3)]).
  - apply run_from_fresh_reachable. vm_compute. eauto.
  - vm_compute. reflexivity.
  - vm_compute. reflexivity.
Defined.


(** ** The height generator *)

Section Height.

(** The scan counts the one bits of the draw from [b] upwards, up to the
    first zero bit. *)
Lemma gen_height_loop_ones n (r b : Z) h k :
  k ≤ n →
  (∀ i, i < k → Z.testbit r (b + Z.of_nat i) = true) →
  (k < n → Z.testbit r (b + Z.of_nat k) = false) →
  gen_height_loop n r b h = h + k.
Proof.
  revert b h k. induction n as [|n IH]; intros b h k Hk Hones Hzero.
  - assert (k = 0) as -> by lia. simpl. lia.
  - cbn [gen_height_loop]. destruct k as [|k].
    + rewrite Z.add_0_r in Hzero. rewrite Hzero by lia. lia.
    + pose proof (Hones 0 ltac:(lia)) as H0. rewrite Z.add_0_r in H0.
      rewrite H0. rewrite (IH (b + 1)%Z (S h) k); [lia | lia | |].
      * intros i Hi. replace (b + 1 + Z.of_nat i)%Z
          with (b + Z.of_nat (S i))%Z by lia. apply Hones. lia.
      * intros Hlt. replace (b + 1 + Z.of_nat k)%Z
          with (b + Z.of_nat (S k))%Z by lia. apply Hzero. lia.
Qed.

(** X12: a generated height always lies between 1 and the configured
    maximum, whatever the draw; and for a draw whose binary form ends in
    exactly k one bits (k at most 30) it is k + 1, capped at the maximum. *)
Theorem gen_height_counts_trailing_ones MAX (r : Z) :
  1 ≤ MAX →
  1 ≤ SKIPLIST_GEN_HEIGHT MAX r ≤ MAX ∧
  ∀ k, k < 31 →
    (r mod 2 ^ (Z.of_nat k + 1) = 2 ^ Z.of_nat k - 1)%Z →
    SKIPLIST_GEN_HEIGHT MAX r = S k `min` MAX.
Proof.
  intros HM. split; [by apply gen_height_bounds|]. intros k Hk Hr.
  assert (Hbit : ∀ i, i ≤ k →
            Z.testbit r (Z.of_nat i) =
            Z.testbit (Z.ones (Z.of_nat k)) (Z.of_nat i)).
  { intros i Hi. rewrite Z.ones_equiv, <- Z.sub_1_r, <- Hr.
    symmetry. apply Z.mod_pow2_bits_low. lia. }
  unfold SKIPLIST_GEN_HEIGHT.
  rewrite (gen_height_loop_ones 32 r 0 1 k).
  - case_decide; lia.
  - lia.
  - intros i Hi. rewrite Z.add_0_l, Hbit by lia.
    apply Z.ones_spec_low. lia.
  - intros _. rewrite Z.add_0_l, Hbit by lia.
    apply Z.ones_spec_high. lia.
Qed.

End Height.

Lemma gen_height_counts_trailing_ones_witness :
  (1 ≤ SKIPLIST_GEN_HEIGHT 8 11 ≤ 8 ∧
   ∀ k, k < 31 →
     (11 mod 2 ^ (Z.of_nat k + 1) = 2 ^ Z.of_nat k - 1)%Z →
     SKIPLIST_GEN_HEIGHT 8 11 = S k `min` 8) ∧
  SKIPLIST_GEN_HEIGHT 8 11 = 3 ∧
  1 ≤ SKIPLIST_GEN_HEIGHT 8 (2 ^ 31 - 1) ≤ 8.
Proof.
  split; [|split].
  - apply (gen_height_counts_trailing_ones 8 11). lia.
  - apply (proj2 (gen_height_counts_trailing_ones 8 11 ltac:(lia)) 2);
      [lia | reflexivity].
  - apply (gen_height_counts_trailing_ones 8 (2 ^ 31 - 1)). lia.
Defined.

(** ** A new container *)

Section Fresh.

Context (cmp : voidp → voidp → Z).

(** X13: [skiplist_new] gives no container exactly when the comparator is
    NULL or one of its two allocations fails; the container it gives has a
    count of zero, one block (the head), nothing to iterate over, and every
    query, pop and removal on it returns false and changes nothing. *)
Theorem new_container_is_empty (cmp_null sl_res : bool) head_res :
  (skiplist_new cmp_null sl_res head_res = None ↔
     cmp_null = true ∨ sl_res = false ∨ head_res = None) ∧
  ∀ s, skiplist_new cmp_null sl_res head_res = Some s →
    skiplist_count s.1 = 0%Z ∧ skiplist_empty s.1 = true ∧
    size s.2 = 1 ∧ entries s.1 s.2 = Some [] ∧
    (∀ k v, skiplist_first s.1 s.2 k v = Some (false, k, v)) ∧
    (∀ k v, skiplist_last s.1 s.2 k v = Some (false, k, v)) ∧
    (∀ k v, skiplist_pop_first s.1 s.2 k v = Some (false, s.1, s.2, k, v)) ∧
    (∀ k v, skiplist_pop_last s.1 s.2 k v = Some (false, s.1, s.2, k, v)) ∧
    (∀ key c, skiplist_get cmp s.1 s.2 key c = Some (false, c)) ∧
    (∀ key old,
       skiplist_delete cmp s.1 s.2 key old = Some (false, s.1, s.2, old)).
Proof.
  split.
  { unfold skiplist_new. destruct cmp_null, sl_res, head_res as [a|];
      cbn [node_alloc]; (split; [|by intros [?|[?|?]]]); intros Hn;
      first [done | by left | by right; left | by right; right]. }
  intros s Hnew.
  assert (cmp_null = false ∧ sl_res = true) as [-> ->].
  { unfold skiplist_new in Hnew. by destruct cmp_null, sl_res. }
  pose proof (holds_new cmp head_res s Hnew) as (hde & Hhd & Hs & _).
  unfold skiplist_new in Hnew. destruct head_res as [a|]; [|done].
  cbn [node_alloc] in Hnew. injection Hnew as <-. cbn [fst snd] in *.
  injection Hhd as Ha.
  set (m := <[a := mk_node 1 SENTINEL_REF SENTINEL_REF [SENTINEL]]>
              (∅ : heap)) in *.
  set (sl := mk_skiplist 0 (Ptr a)).
  assert (Hhd : head sl = e_ptr hde) by (unfold e_ptr; by rewrite <- Ha).
  assert (Hsz : size m = 1).
  { unfold m. rewrite map_size_insert_None by apply lookup_empty.
    by rewrite map_size_empty. }
  assert (Hm : m !! a = Some (mk_node 1 SENTINEL_REF SENTINEL_REF [SENTINEL]))
    by apply lookup_insert_eq.
  split; [done|]. split; [done|]. split; [done|]. split.
  { by apply (entries_spec sl m hde []). }
  split. { intros k v. by rewrite (skiplist_first_spec sl m hde [] k v). }
  split. { intros k v. by rewrite (skiplist_last_spec sl m hde [] k v). }
  split. { intros k v. by apply (pop_first_empty_spec sl m hde). }
  split. { intros k v. by apply (pop_last_zero_spec sl m hde []). }
  assert (Hh : e_h hde = 1).
  { pose proof (skl_at m hde [] [] hde [] Hs eq_refl) as Hm'.
    rewrite <- Ha, Hm in Hm'. by injection Hm' as <- _ _ _. }
  pose proof (deref_at m hde [] [] hde [] Hs eq_refl) as Hdh.
  unfold node_of in Hdh. rewrite Hh in Hdh.
  pose proof (get_next_at m hde [] [] hde [] 0 Hs eq_refl) as Hnx.
  cbn [first_at] in Hnx. rewrite Hh in Hnx. specialize (Hnx ltac:(lia)).
  split.
  - intros key c. unfold skiplist_get, get_first_eq_node.
    rewrite Hhd, Hdh. obind. rewrite Hsz.
    cbn [Nat.add get_first_eq_node_loop]. rewrite Hnx. obind.
    cbn [cmp_next IS_SENTINEL]. obind. done.
  - intros key old. unfold skiplist_delete, delete_one_or_all.
    rewrite Hhd, Hdh. obind. unfold init_prevs. rewrite Hsz.
    cbn [Nat.add init_prevs_loop]. rewrite Hnx. obind.
    cbn [cmp_next IS_SENTINEL]. obind.
    rewrite decide_False by lia. cbn [replicate]. obind.
    cbn [lookup list_lookup insert list_insert]. obind.
    rewrite Hnx. obind. cbn [cmp_next IS_SENTINEL]. obind. done.
Qed.

End Fresh.

Lemma new_container_is_empty_witness :
  (skiplist_new false true (Some 100) = None ↔
     false = true ∨ true = false ∨ Some 100 = None) ∧
  ∀ s, skiplist_new false true (Some 100) = Some s →
    skiplist_count s.1 = 0%Z ∧ skiplist_empty s.1 = true ∧
    size s.2 = 1 ∧ entries s.1 s.2 = Some [] ∧
    (∀ k v, skiplist_first s.1 s.2 k v = Some (false, k, v)) ∧
    (∀ k v, skiplist_last s.1 s.2 k v = Some (false, k, v)) ∧
    (∀ k v, skiplist_pop_first s.1 s.2 k v = Some (false, s.1, s.2, k, v)) ∧
    (∀ k v, skiplist_pop_last s.1 s.2 k v = Some (false, s.1, s.2, k, v)) ∧
    (∀ key c, skiplist_get cmp_int s.1 s.2 key c = Some (false, c)) ∧
    (∀ key old,
       skiplist_delete cmp_int s.1 s.2 key old =
         Some (false, s.1, s.2, old)).
Proof. apply (new_container_is_empty cmp_int false true (Some 100)). Defined.

(** ** Insertion through the replace variant, and a failed head growth *)

Section Inserting.

Context (cmp : voidp → voidp → Z) (MAX : nat).
Hypothesis cmp_ok : three_way cmp.
Hypothesis MAX_pos : 1 ≤ MAX.

Implicit Types (l r pre : list entry) (e d z : entry) (L j : nat) (m : heap).

(** X14: when no stored key compares equal to the key, the replace variant
    behaves as a plain insert: it fails only when an allocation fails, and
    then the container is as before; otherwise the count goes up by one and
    the new pair sits after the stored keys below it and before those above
    it, with every level in order. *)
Theorem upsert_of_absent_key_inserts s key value old (rnd : Z) nn_res hd_res
    es :
  reachable cmp MAX s → allocs_ok s.2 nn_res hd_res →
  entries s.1 s.2 = Some es →
  Forall (λ kv, cmp kv.1 key ≠ 0%Z) es →
  ∃ b sl' m' old' hn,
    skiplist_set cmp MAX s.1 s.2 key value old rnd nn_res hd_res =
      Some (b, sl', m', old') ∧
    deref s.2 (head s.1) = Some hn ∧
    (b = false ↔
       nn_res = None ∨
       (hd_res = None ∧ node_h hn < SKIPLIST_GEN_HEIGHT MAX rnd)) ∧
    (b = false → sl' = s.1 ∧ entries sl' m' = Some es) ∧
    (b = true →
       count sl' = size_t (count s.1 + 1) ∧
       ∃ es1 es2,
         es = es1 ++ es2 ∧
         Forall (λ kv, (cmp kv.1 key < 0)%Z) es1 ∧
         Forall (λ kv, (0 < cmp kv.1 key)%Z) es2 ∧
         entries sl' m' = Some (es1 ++ (key, value) :: es2) ∧
         levels_ok cmp (sl', m')).
Proof.
  intros Hreach Hal Hes Hne. destruct s as [sl m]. cbn [fst snd] in *.
  destruct (reachable_holds cmp MAX (sl, m) cmp_ok MAX_pos Hreach)
    as (l & Hl & Hr & Hes').
  cbn [fst snd] in *. rewrite Hes in Hes'. injection Hes' as ->.
  apply Forall_pairs in Hne.
  pose proof Hl as (hde & Hhd & Hs & Hsorted). cbn [fst snd] in *.
  set (hx := SKIPLIST_GEN_HEIGHT MAX rnd).
  pose proof (lookup_entry_absent cmp key l Hne) as Hlk.
  assert (Hnr : true = true → lookup_entry cmp key l = None) by done.
  pose proof (add_or_set_insert cmp MAX sl m hde l true key value old rnd
                nn_res hd_res Hhd Hs Hsorted cmp_ok MAX_pos Hal Hnr) as Hadd.
  cbn zeta in Hadd. fold hx in Hadd. unfold skiplist_set.
  assert (Hdh : deref m (head sl) = Some (node_of hde l)).
  { rewrite Hhd. by apply (deref_at m hde l [] hde l). }
  assert (Hok : ∀ sl' m' a,
    holds cmp (sl', m')
      (below cmp key l ++ mk_entry a hx key value :: from cmp key l) →
    ∃ es1 es2,
      pair_of <$> l = es1 ++ es2 ∧
      Forall (λ kv, (cmp kv.1 key < 0)%Z) es1 ∧
      Forall (λ kv, (0 < cmp kv.1 key)%Z) es2 ∧
      entries sl' m' = Some (es1 ++ (key, value) :: es2) ∧
      levels_ok cmp (sl', m')).
  { intros sl' m' a Hl'.
    exists (pair_of <$> below cmp key l), (pair_of <$> from cmp key l).
    split; [by rewrite <- fmap_app, below_from|].
    split; [apply Forall_fmap, below_lt|]. split.
    - apply Forall_fmap, Forall_forall. intros e He. cbn.
      assert (Hin : e ∈ l).
      { rewrite <- (below_from cmp key l). apply elem_of_app. by right. }
      pose proof (from_ge cmp cmp_ok key l Hsorted) as Hge.
      rewrite Forall_forall in Hge, Hne.
      specialize (Hge e He). specialize (Hne e Hin).
      unfold key_lt in Hge. cbn in Hne. lia.
    - split; [|by eapply holds_levels_ok].
      pose proof (holds_entries cmp _ _ Hl') as He'. cbn [fst snd] in He'.
      by rewrite He', fmap_app. }
  destruct nn_res as [a|].
  - destruct (decide (e_h hde < hx)) as [Hg|Hg].
    + destruct hd_res as [b|].
      * destruct Hadd as (m' & -> & Hs').
        eexists true, _, m', _, _. split; [done|]. split; [exact Hdh|].
        split. { split; [done|]. intros [?|[? _]]; done. }
        split; [done|]. intros _. split; [done|].
        apply (Hok _ _ a).
        exists (mk_entry b hx SENTINEL_REF SENTINEL_REF).
        split; [done|]. split; [done|]. by apply sorted_insert.
      * rewrite Hadd. eexists false, sl, _, _, _. split; [done|].
        split; [exact Hdh|].
        split; [split; [intros _; by right | done]|].
        split; [|done]. intros _. split; [done|].
        destruct Hal as [Hfa _]. simpl in Hfa.
        apply (entries_spec sl _ hde l Hhd). by apply skl_alloc.
    + destruct Hadd as (m' & -> & Hs').
      eexists true, _, m', _, _. split; [done|]. split; [exact Hdh|].
      split. { split; [done|]. intros [?|[_ ?]]; [done|]. cbn in *. lia. }
      split; [done|]. intros _. split; [done|].
      apply (Hok _ _ a).
      exists hde. split; [done|]. split; [done|]. by apply sorted_insert.
  - rewrite Hadd. eexists false, sl, m, _, _. split; [done|].
    split; [exact Hdh|].
    split; [split; [intros _; by left | done]|].
    split; [|done]. intros _. split; [done|].
    by apply (entries_spec sl m hde l).
Qed.

(** X15: when the new node is taller than the head and the allocation of
    the taller head fails, the insert returns false with the container
    fields untouched, but the block just allocated for the node stays
    allocated: it is neither linked in nor released. *)
Theorem failed_head_growth_keeps_node_block s key value (rnd : Z) a hn :
  reachable cmp MAX s → s.2 !! a = None →
  deref s.2 (head s.1) = Some hn →
  node_h hn < SKIPLIST_GEN_HEIGHT MAX rnd →
  skiplist_add cmp MAX s.1 s.2 key value rnd (Some a) None =
    Some (false, s.1,
          <[a := mk_node (SKIPLIST_GEN_HEIGHT MAX rnd) key value
                   (replicate (SKIPLIST_GEN_HEIGHT MAX rnd) SENTINEL)]> s.2).
Proof.
  intros Hreach Ha Hdh Hlt. destruct s as [sl m]. cbn [fst snd] in *.
  destruct (reachable_holds cmp MAX (sl, m) cmp_ok MAX_pos Hreach)
    as (l & Hl & Hr & _).
  destruct Hl as (hde & Hhd & Hs & Hsorted). cbn [fst snd] in *.
  rewrite Hhd, (deref_at m hde l [] hde l Hs eq_refl) in Hdh.
  injection Hdh as <-. cbn [node_of node_h] in Hlt.
  assert (Hal : allocs_ok m (Some a) None).
  { split; [done|]. split; [done|]. by right. }
  assert (Hnr : false = true → lookup_entry cmp key l = None) by done.
  pose proof (add_or_set_insert cmp MAX sl m hde l false key value None rnd
                (Some a) None Hhd Hs Hsorted cmp_ok MAX_pos Hal Hnr) as Hadd.
  cbn beta iota zeta in Hadd. rewrite decide_True in Hadd by done.
  unfold skiplist_add. by rewrite Hadd.
Qed.

End Inserting.

Lemma upsert_of_absent_key_inserts_witness :
  ∃ b sl' m' old' hn,
    skiplist_set cmp_int 8 (run_from_fresh two_equal_keys).1
      (run_from_fresh two_equal_keys).2 (Obj 20) (Obj 7) (Some (Obj 9)) 1
      (Some 5) (Some 105) = Some (b, sl', m', old') ∧
    deref (run_from_fresh two_equal_keys).2
          (head (run_from_fresh two_equal_keys).1) = Some hn ∧
    (b = false ↔
       Some 5 = None ∨
       (Some 105 = None ∧ node_h hn < SKIPLIST_GEN_HEIGHT 8 1)) ∧
    (b = false →
       sl' = (run_from_fresh two_equal_keys).1 ∧
       entries sl' m' =
         Some [(Obj 10, Obj 2); (Obj 10, Obj 1); (Obj 30, Obj 3)]) ∧
    (b = true →
       count sl' = size_t (count (run_from_fresh two_equal_keys).1 + 1) ∧
       ∃ es1 es2,
         [(Obj 10, Obj 2); (Obj 10, Obj 1); (Obj 30, Obj 3)] = es1 ++ es2 ∧
         Forall (λ kv, (cmp_int kv.1 (Obj 20) < 0)%Z) es1 ∧
         Forall (λ kv, (0 < cmp_int kv.1 (Obj 20))%Z) es2 ∧
         entries sl' m' = Some (es1 ++ (Obj 20, Obj 7) :: es2) ∧
         levels_ok cmp_int (sl', m')).
Proof.
  apply (upsert_of_absent_key_inserts cmp_int 8 cmp_int_three_way).
  - lia.
  - apply run_from_fresh_reachable. vm_compute. eauto.
  - vm_compute. repeat split; (done || (right; discriminate)).
  - vm_compute. reflexivity.
  - repeat constructor; vm_compute; discriminate.
Defined.

Lemma failed_head_growth_keeps_node_block_witness :
  skiplist_add cmp_int 8 (run_from_fresh two_equal_keys).1
    (run_from_fresh two_equal_keys).2 (Obj 20) (Obj 7) 7 (Some 5) None =
    Some (false, (run_from_fresh two_equal_keys).1,
          <[5 := mk_node (SKIPLIST_GEN_HEIGHT 8 7) (Obj 20) (Obj 7)
                   (replicate (SKIPLIST_GEN_HEIGHT 8 7) SENTINEL)]>
            (run_from_fresh two_equal_keys).2).
Proof.
  apply (failed_head_growth_keeps_node_block cmp_int 8 cmp_int_three_way
           ltac:(lia) (run_from_fresh two_equal_keys) (Obj 20) (Obj 7) 7 5
           (mk_node 2 SENTINEL_REF SENTINEL_REF [Ptr 2; Ptr 2])).
  - apply run_from_fresh_reachable. vm_compute. eauto.
  - vm_compute. reflexivity.
  - vm_compute. reflexivity.
  - vm_compute. lia.
Defined.


(** ** What one operation does to the stored list *)

Definition is_clear (o : op) : bool :=
  match o with op_clear _ => true | _ => false end.

Definition is_add (o : op) : bool :=
  match o with op_add _ _ _ _ _ => true | _ => false end.

Section Steps.

Context (cmp : voidp → voidp → Z) (MAX : nat).
Hypothesis cmp_ok : three_way cmp.
Hypothesis MAX_pos : 1 ≤ MAX.

Implicit Types (l r pre mid : list entry) (e d x z : entry) (m : heap).

(** The ways in which a public operation that returns changes the stored
    list [l] and the count [c]: not at all; by one entry put in at its place
    in the order (whose key was absent unless the operation is a plain
    insert); by a new value in one entry; by a run of entries taken out, the
    count lowered once per entry; or, for [clear] alone, by all entries
    taken out with the count left as it was. *)
Inductive change (o : op) (l : list entry) (c : Z)
  : list entry → Z → Prop :=
| change_none : change o l c l c
| change_insert l1 l2 x :
    l = l1 ++ l2 →
    Forall (key_lt cmp (e_k x)) l1 →
    Forall (λ e, ¬ key_lt cmp (e_k x) e) l2 →
    (is_add o = false → lookup_entry cmp (e_k x) l = None) →
    change o l c (l1 ++ x :: l2) (size_t (c + 1))
| change_value l1 e value l2 :
    l = l1 ++ e :: l2 →
    change o l c (l1 ++ with_value e value :: l2) c
| change_remove l1 mid l2 :
    l = l1 ++ mid ++ l2 →
    change o l c (l1 ++ l2) (decrements c mid)
| change_clear :
    is_clear o = true → change o l c [] c.

Lemma change_insert_at o l c key x :
  sorted cmp l → e_k x = key →
  (is_add o = false → lookup_entry cmp key l = None) →
  change o l c (below cmp key l ++ x :: from cmp key l) (size_t (c + 1)).
Proof.
  intros Hsorted <- Hlk. apply change_insert.
  - by rewrite below_from.
  - apply below_lt.
  - by apply from_ge.
  - done.
Qed.

Lemma change_remove_eq o l c l1 mid l2 l' c' :
  l = l1 ++ mid ++ l2 → l' = l1 ++ l2 → c' = decrements c mid →
  change o l c l' c'.
Proof. intros -> -> ->. by apply change_remove. Qed.

(** Every public operation that returns leaves a container that holds a
    sorted list, changed in one of the ways above. *)
Lemma exec_op_step o s s' l :
  holds cmp s l → exec_op cmp MAX o s = Some s' →
  ∃ l', holds cmp s' l' ∧ change o l (count s.1) l' (count s'.1).
Proof.
  intros (hde & Hhd & Hs & Hsorted). destruct s as [sl m].
  cbn [fst snd] in *.
  assert (Hsame : ∃ l', holds cmp (sl, m) l' ∧
                        change o l (count sl) l' (count (sl, m).1)).
  { exists l. split; [by exists hde | apply change_none]. }
  destruct o; cbn [exec_op].
  - (* add *)
    case_decide as Hal; [|done]. unfold skiplist_add.
    assert (Hnr : false = true → lookup_entry cmp key l = None) by done.
    pose proof (add_or_set_insert cmp MAX sl m hde l false key value None r
                  nn_res hd_res Hhd Hs Hsorted cmp_ok MAX_pos Hal Hnr)
      as Hadd.
    cbn zeta in Hadd.
    destruct nn_res as [a|].
    + destruct (decide (e_h hde < SKIPLIST_GEN_HEIGHT MAX r)).
      * destruct hd_res as [b|].
        -- destruct Hadd as (m' & -> & Hs'). obind. intros [= <-].
           eexists. split.
           ++ eexists (mk_entry b _ SENTINEL_REF SENTINEL_REF).
              split; [done|]. split; [exact Hs'|]. by apply sorted_insert.
           ++ by apply change_insert_at.
        -- rewrite Hadd. obind. intros [= <-]. exists l. split.
           ++ exists hde. split; [done|]. split; [|done].
              apply skl_alloc; [done|]. by destruct Hal as [? _].
           ++ apply change_none.
      * destruct Hadd as (m' & -> & Hs'). obind. intros [= <-].
        eexists. split.
        -- exists hde. split; [done|]. split; [exact Hs'|].
           by apply sorted_insert.
        -- by apply change_insert_at.
    + rewrite Hadd. obind. by intros [= <-].
  - (* set *)
    case_decide as Hal; [|done]. unfold skiplist_set.
    destruct (lookup_entry cmp key l) as [e|] eqn:Hlk.
    + apply lookup_entry_Some in Hlk as (l2 & Hfrom & Heq).
      destruct (add_or_set_replace cmp MAX sl m hde l key value old r
                  nn_res hd_res e l2 Hhd Hs Hsorted cmp_ok Hfrom Heq)
        as [-> Hs'].
      obind. intros [= <-]. eexists. split.
      * exists hde. split; [done|]. split; [exact Hs'|].
        apply sorted_with_value. by rewrite <- Hfrom, below_from.
      * apply change_value. by rewrite <- Hfrom, below_from.
    + assert (Hnr : true = true → lookup_entry cmp key l = None) by done.
      pose proof (add_or_set_insert cmp MAX sl m hde l true key value old r
                    nn_res hd_res Hhd Hs Hsorted cmp_ok MAX_pos Hal Hnr)
        as Hadd.
      cbn zeta in Hadd.
      destruct nn_res as [a|].
      * destruct (decide (e_h hde < SKIPLIST_GEN_HEIGHT MAX r)).
        -- destruct hd_res as [b|].
           ++ destruct Hadd as (m' & -> & Hs'). obind. intros [= <-].
              eexists. split.
              ** eexists (mk_entry b _ SENTINEL_REF SENTINEL_REF).
                 split; [done|]. split; [exact Hs'|].
                 by apply sorted_insert.
              ** by apply change_insert_at.
           ++ rewrite Hadd. obind. intros [= <-]. exists l. split.
              ** exists hde. split; [done|]. split; [|done].
                 apply skl_alloc; [done|]. by destruct Hal as [? _].
              ** apply change_none.
        -- destruct Hadd as (m' & -> & Hs'). obind. intros [= <-].
           eexists. split.
           ++ exists hde. split; [done|]. split; [exact Hs'|].
              by apply sorted_insert.
           ++ by apply change_insert_at.
      * rewrite Hadd. obind. by intros [= <-].
  - (* delete *)
    unfold skiplist_delete.
    destruct (lookup_entry cmp key l) as [e|] eqn:Hlk.
    + apply lookup_entry_Some in Hlk as (l2 & Hfrom & Heq).
      destruct (delete_one_spec cmp sl m hde l key () value e l2
                  Hhd Hs Hsorted cmp_ok Hfrom Heq) as (m' & -> & Hs' & _).
      obind. intros [= <-]. eexists. split.
      * exists hde. split; [done|]. split; [exact Hs'|].
        apply (sorted_remove_one cmp _ e). by rewrite <- Hfrom, below_from.
      * apply (change_remove_eq _ _ _ (below cmp key l) [e] l2);
          [|done|done].
        cbn [app]. by rewrite <- Hfrom, below_from.
    + rewrite (delete_absent_spec cmp sl m hde l key None () value
                 Hhd Hs Hsorted cmp_ok Hlk).
      obind. by intros [= <-].
  - (* delete_all *)
    unfold skiplist_delete_all.
    destruct (eq_run cmp key (from cmp key l)) as [|d r] eqn:Hrun.
    + assert (Hlk : lookup_entry cmp key l = None).
      { unfold lookup_entry. destruct (from cmp key l) as [|x l2]; [done|].
        cbn [eq_run] in Hrun. by case_decide. }
      rewrite (delete_absent_spec cmp sl m hde l key (Some log_cb) [] None
                 Hhd Hs Hsorted cmp_ok Hlk).
      obind. by intros [= <-].
    + destruct (delete_all_spec cmp sl m hde l key log_cb [] None d r
                  Hhd Hs Hsorted cmp_ok Hrun) as (m' & -> & Hs' & _).
      obind. intros [= <-]. eexists. split.
      * exists hde. split; [done|]. split; [exact Hs'|].
        apply (sorted_remove cmp _ (eq_run cmp key (from cmp key l))).
        by rewrite eq_run_after, below_from.
      * apply (change_remove_eq _ _ _ (below cmp key l) (d :: r)
                 (after_run cmp key (from cmp key l))); [|done|done].
        by rewrite <- Hrun, eq_run_after, below_from.
  - (* get *) by intros (? & _ & [= <-])%bind_Some.
  - (* member *) by intros (? & _ & [= <-])%bind_Some.
  - (* first *) by intros (? & _ & [= <-])%bind_Some.
  - (* last *) by intros (? & _ & [= <-])%bind_Some.
  - (* pop_first *)
    destruct l as [|f l].
    + rewrite (pop_first_empty_spec sl m hde key value Hhd Hs).
      obind. by intros [= <-].
    + destruct (pop_first_spec sl m hde f l key value Hhd Hs)
        as (m' & -> & Hs' & _).
      obind. intros [= <-]. exists l. split.
      * exists hde. split; [done|]. split; [exact Hs'|].
        by apply StronglySorted_inv in Hsorted as [? _].
      * by apply (change_remove_eq _ _ _ [] [f] l).
  - (* pop_last *)
    destruct (decide (count sl = 0%Z)) as [Hc|Hc].
    + rewrite (pop_last_zero_spec sl m hde l key value Hhd Hs Hc).
      obind. by intros [= <-].
    + destruct l as [|z l1 _] using rev_ind.
      * by rewrite (pop_last_stale sl m hde key value Hhd Hs Hc).
      * destruct (pop_last_spec sl m hde l1 z key value Hhd Hs Hc)
          as (m' & -> & Hs' & _).
        obind. intros [= <-]. exists l1. split.
        -- exists hde. split; [done|]. split; [exact Hs'|].
           by apply sorted_app_inv in Hsorted as [? _].
        -- apply (change_remove_eq _ _ _ l1 [z] []); [done| |done].
           by rewrite app_nil_r.
  - (* count *) by intros [= <-].
  - (* empty *) by intros [= <-].
  - (* iter *) by intros (? & _ & [= <-])%bind_Some.
  - (* iter_from *) by intros (? & _ & [= <-])%bind_Some.
  - (* clear *)
    destruct (skiplist_clear_spec sl m hde l
                (if with_cb then Some log_cb else None) [] Hhd Hs)
      as (m' & -> & Hs' & _).
    obind. intros [= <-]. exists []. split.
    + exists hde. split; [done|]. split; [exact Hs' | constructor].
    + by apply change_clear.
Qed.

(** A property of the list and the count that the changes of the operations
    in [Q] keep holds after every run of such operations. *)
Lemma run_keeps (Q : op → Prop) (I : list entry → Z → Prop) :
  (∀ o l c l' c', Q o → sorted cmp l → change o l c l' c' → I l c → I l' c') →
  ∀ ops s s' l,
    Forall Q ops → holds cmp s l → I l (count s.1) →
    run cmp MAX ops s = Some s' →
    ∃ l', holds cmp s' l' ∧ I l' (count s'.1).
Proof.
  intros Hkeep. induction ops as [|o ops IH]; intros s s' l HQ Hl HI;
    cbn [run].
  - intros [= <-]. eauto.
  - apply Forall_cons in HQ as [Ho HQ].
    intros (s1 & Hop & Hrun)%bind_Some.
    destruct (exec_op_step o s s1 l Hl Hop) as (l1 & Hl1 & Hch).
    apply (IH s1 s' l1 HQ Hl1); [|done].
    apply (Hkeep o l (count s.1)); [done | | done | done].
    by destruct Hl as (_ & _ & _ & ?).
Qed.

(** *** The count *)

Lemma decrements_mod (c : Z) r :
  decrements (size_t c) r = size_t (c - Z.of_nat (length r)).
Proof.
  revert c. induction r as [|e r IH]; intros c.
  - cbn. by rewrite Z.sub_0_r.
  - change (decrements (size_t c) (e :: r))
      with (decrements (size_t (size_t c - 1)) r).
    assert (size_t (size_t c - 1) = size_t (c - 1)) as ->.
    { unfold size_t. by rewrite Zminus_mod_idemp_l. }
    rewrite IH. f_equal. cbn [length]. lia.
Qed.

Lemma change_keeps_count o l c l' c' :
  is_clear o = false → change o l c l' c' →
  c = size_t (Z.of_nat (length l)) → c' = size_t (Z.of_nat (length l')).
Proof.
  intros Ho Hch ->. destruct Hch as [|l1 l2 x -> _ _ _|l1 e v l2 ->
                                     |l1 mid l2 ->|Hcl].
  - done.
  - rewrite size_t_succ. f_equal. rewrite !length_app. cbn [length]. lia.
  - f_equal. rewrite !length_app. by cbn [length].
  - rewrite decrements_mod. f_equal. rewrite !length_app. lia.
  - congruence.
Qed.

(** X16: in a container made by [skiplist_new] and any sequence of public
    operations other than [clear], the count is the number of entries that
    iteration visits (as a [size_t]). *)
Theorem count_tracks_entries_without_clear head_res ops s0 s es :
  skiplist_new false true head_res = Some s0 →
  run cmp MAX ops s0 = Some s →
  Forall (λ o, is_clear o = false) ops →
  entries s.1 s.2 = Some es →
  skiplist_count s.1 = size_t (Z.of_nat (length es)).
Proof.
  intros Hnew Hrun Hops Hes.
  destruct (run_keeps (λ o, is_clear o = false)
              (λ l c, c = size_t (Z.of_nat (length l)))
              (λ o l c l' c' Ho _ Hch HI,
                 change_keeps_count o l c l' c' Ho Hch HI)
              ops s0 s [] Hops (holds_new cmp head_res s0 Hnew))
    as (l & Hl & Hc); [|done|].
  - unfold skiplist_new in Hnew. destruct head_res; [|done].
    cbn [node_alloc] in Hnew. by injection Hnew as <-.
  - rewrite (holds_entries cmp s l Hl) in Hes. injection Hes as <-.
    by rewrite length_fmap.
Qed.

(** *** Distinct keys *)

Definition strict (l : list entry) : Prop :=
  StronglySorted (λ a b, (cmp (e_k a) (e_k b) < 0)%Z) l.

Lemma lookup_entry_None_ne key l :
  sorted cmp l → lookup_entry cmp key l = None →
  Forall (λ e, cmp (e_k e) key ≠ 0%Z) l.
Proof.
  intros Hsorted Hlk.
  pose proof (find_entry cmp cmp_ok key l Hsorted) as Hfind.
  rewrite Hlk in Hfind. by apply list_find_None in Hfind.
Qed.

Lemma change_keeps_strict o l c l' c' :
  is_add o = false → sorted cmp l → change o l c l' c' →
  strict l → strict l'.
Proof.
  intros Ho Hsorted Hch Hst. unfold strict in *.
  destruct Hch as [|l1 l2 x -> Hlt Hge Hlk|l1 e v l2 ->
                   |l1 mid l2 ->|Hcl].
  - done.
  - specialize (Hlk Ho).
    pose proof (lookup_entry_None_ne _ _ Hsorted Hlk) as Hne.
    apply Forall_app in Hne as [_ Hne2].
    apply StronglySorted_app in Hst as (H12 & H1 & H2).
    apply StronglySorted_app. split; [|split; [done|]].
    + intros x1 x2 Hx1 [->|Hx2]%elem_of_cons; [|by apply H12].
      rewrite Forall_forall in Hlt. by apply Hlt.
    + apply StronglySorted_cons. split; [|done].
      apply Forall_forall. intros y Hy.
      rewrite Forall_forall in Hge, Hne2.
      specialize (Hge y Hy). specialize (Hne2 y Hy). unfold key_lt in Hge.
      pose proof (cmp_flip cmp cmp_ok (e_k y) (e_k x)). lia.
  - apply StronglySorted_app in Hst as (H12 & H1 & H2).
    apply StronglySorted_cons in H2 as [He H2].
    apply StronglySorted_app. split; [|split; [done|]].
    + intros x1 x2 Hx1 [->|Hx2]%elem_of_cons.
      * apply (H12 x1 e Hx1). left.
      * apply H12; [done|]. by right.
    + by apply StronglySorted_cons.
  - apply StronglySorted_app in Hst as (H12 & H1 & H2).
    apply StronglySorted_app in H2 as (_ & _ & H2).
    apply StronglySorted_app. split; [|done].
    intros x1 x2 Hx1 Hx2. apply H12; [done|]. apply elem_of_app. by right.
  - constructor.
Qed.

(** X17: in a container made by [skiplist_new] and any sequence of public
    operations in which entries are put in by the replace variant only
    (no plain insert), no two stored keys compare equal: the keys along
    every level strictly increase. *)
Theorem upsert_only_keeps_keys_distinct head_res ops s0 s :
  skiplist_new false true head_res = Some s0 →
  run cmp MAX ops s0 = Some s →
  Forall (λ o, is_add o = false) ops →
  ∃ hn, deref s.2 (head s.1) = Some hn ∧
    ∀ L, L < node_h hn →
      ∃ ks, level_keys s.1 s.2 L = Some ks ∧ keys_increasing cmp ks.
Proof.
  intros Hnew Hrun Hops.
  destruct (run_keeps (λ o, is_add o = false) (λ l _, strict l)
              (λ o l c l' c' Ho Hsorted Hch HI,
                 change_keeps_strict o l c l' c' Ho Hsorted Hch HI)
              ops s0 s [] Hops (holds_new cmp head_res s0 Hnew))
    as (l & Hl & Hst); [constructor | done |].
  destruct s as [sl m]. destruct Hl as (hde & Hhd & Hs & Hsorted).
  cbn [fst snd] in *. exists (node_of hde l). split.
  { rewrite Hhd. by apply (deref_at m hde l [] hde l). }
  cbn [node_of node_h]. intros L HL. exists (e_k <$> at_level L l).
  split; [by apply (level_keys_spec sl m hde l)|].
  unfold keys_increasing.
  apply (StronglySorted_fmap e_k
           (λ a b, (cmp (e_k a) (e_k b) < 0)%Z)); [done|].
  unfold at_level. clear -Hst. unfold strict in Hst.
  induction Hst as [|e l Hl IH He]; [constructor|].
  rewrite filter_cons. case_decide; [|done].
  constructor; [done|].
  apply Forall_forall. intros x [_ Hx]%list_elem_of_filter.
  by eapply Forall_forall in He.
Qed.

End Steps.

(** Calls of several kinds, without [clear]. *)
Definition mixed_calls : list op :=
  [op_add (Obj 10) (Obj 1) 0 (Some 1) (Some 101);
   op_set (Obj 20) (Obj 2) None 3 (Some 2) (Some 102);
   op_add (Obj 15) (Obj 3) 1 (Some 3) (Some 103);
   op_set (Obj 21) (Obj 4) (Some NULL) 0 (Some 4) (Some 104);
   op_add (Obj 30) (Obj 5) 0 (Some 5) None;
   op_delete (Obj 40) None;
   op_pop_last None None;
   op_delete_all (Obj 12)].

(** Entries put in by the replace variant only. *)
Definition upserts_only : list op :=
  [op_set (Obj 10) (Obj 1) None 0 (Some 1) (Some 101);
   op_set (Obj 30) (Obj 3) None 1 (Some 3) (Some 103);
   op_set (Obj 15) (Obj 2) (Some NULL) 0 (Some 2) (Some 102);
   op_set (Obj 20) (Obj 4) None 3 (Some 4) (Some 104);
   op_delete (Obj 31) None].

Lemma count_tracks_entries_without_clear_witness :
  skiplist_count (run_from_fresh mixed_calls).1 =
    size_t (Z.of_nat (length [(Obj 20, Obj 4)])).
Proof.
  apply (count_tracks_entries_without_clear cmp_int 8 cmp_int_three_way
           ltac:(lia) (Some 100) mixed_calls fresh_container).
  - reflexivity.
  - vm_compute. reflexivity.
  - repeat constructor.
  - vm_compute. reflexivity.
Defined.

Lemma upsert_only_keeps_keys_distinct_witness :
  (∃ hn,
     deref (run_from_fresh upserts_only).2
           (head (run_from_fresh upserts_only).1) = Some hn ∧
     ∀ L, L < node_h hn →
       ∃ ks, level_keys (run_from_fresh upserts_only).1
                        (run_from_fresh upserts_only).2 L = Some ks ∧
             keys_increasing cmp_int ks) ∧
  entries (run_from_fresh upserts_only).1 (run_from_fresh upserts_only).2 =
    Some [(Obj 10, Obj 2); (Obj 20, Obj 4)].
Proof.
  split; [|vm_compute; reflexivity].
  apply (upsert_only_keeps_keys_distinct cmp_int 8 cmp_int_three_way
           ltac:(lia) (Some 100) upserts_only fresh_container).
  - reflexivity.
  - vm_compute. reflexivity.
  - repeat constructor.
Defined.


(** ** Every call has a result *)

(** What a call needs from its environment: the allocator hands out blocks
    that are not live; and [pop_last] needs a count of zero or a container
    that has entries. *)
Definition ready (o : op) (s : skiplist * heap) : Prop :=
  match o with
  | op_add _ _ _ nn_res hd_res
  | op_set _ _ _ _ nn_res hd_res => allocs_ok s.2 nn_res hd_res
  | op_pop_last _ _ => count s.1 = 0%Z ∨ entries s.1 s.2 ≠ Some []
  | _ => True
  end.

Section Defined.

Context (cmp : voidp → voidp → Z) (MAX : nat).

Lemma run_snoc ops o s s1 s2 :
  run cmp MAX ops s = Some s1 → exec_op cmp MAX o s1 = Some s2 →
  run cmp MAX (ops ++ [o]) s = Some s2.
Proof.
  revert s. induction ops as [|o' ops IH]; intros s; cbn [run app].
  - intros [= ->] ->. done.
  - intros (s' & -> & Hrun)%bind_Some Hop. obind. by apply IH.
Qed.

Hypothesis cmp_ok : three_way cmp.
Hypothesis MAX_pos : 1 ≤ MAX.

Implicit Types (l r pre : list entry) (e d z : entry) (m : heap).

Lemma skiplist_iter_from_holds {U} sl m l key (cb : skiplist_iter_cb U)
    udata :
  holds cmp (sl, m) l →
  is_Some (skiplist_iter_from cmp sl m key cb udata).
Proof.
  intros (hde & Hhd & Hs & Hsorted). cbn [fst snd] in *.
  unfold skiplist_iter_from.
  rewrite (get_first_eq_node_spec cmp sl m hde l key Hhd Hs Hsorted cmp_ok).
  obind.
  destruct (lookup_entry cmp key l) as [e|] eqn:Hlk;
    cbn [fmap option_fmap option_map]; [|by eexists].
  apply lookup_entry_Some in Hlk as (l2 & Hfrom & Heq).
  pose proof (below_from cmp key l) as Hsplit. rewrite Hfrom in Hsplit.
  assert (He : 1 ≤ e_h e).
  { apply skl_pos in Hs. rewrite <- Hsplit in Hs.
    apply Forall_app in Hs as [_ Hs]. by apply Forall_cons in Hs as [? _]. }
  pose proof (walk_visit m hde l (e :: l2) cb Hs (hde :: below cmp key l)
                (S (size m)) udata) as Hwalk.
  cbn [first_at] in Hwalk. rewrite decide_True in Hwalk by lia.
  rewrite Hwalk; [by eexists | by rewrite <- Hsplit at 1 | done |].
  pose proof (skl_size _ _ _ Hs) as Hsz. rewrite <- Hsplit in Hsz.
  rewrite length_app in Hsz. simpl in *. lia.
Qed.

Lemma exec_op_defined o s l :
  holds cmp s l → ready o s → is_Some (exec_op cmp MAX o s).
Proof.
  intros Hl Hready. destruct s as [sl m].
  pose proof Hl as (hde & Hhd & Hs & Hsorted). cbn [fst snd] in *.
  destruct o; cbn [exec_op ready fst snd] in *.
  - (* add *)
    rewrite decide_True by done.
    destruct (skiplist_add_spec cmp MAX cmp_ok MAX_pos sl m l key value r
                nn_res hd_res Hl Hready)
      as (_ & _ & _ & b & sl' & m' & -> & _).
    obind. by eexists.
  - (* set *)
    rewrite decide_True by done. unfold skiplist_set.
    destruct (lookup_entry cmp key l) as [e|] eqn:Hlk.
    + apply lookup_entry_Some in Hlk as (l2 & Hfrom & Heq).
      destruct (add_or_set_replace cmp MAX sl m hde l key value old r
                  nn_res hd_res e l2 Hhd Hs Hsorted cmp_ok Hfrom Heq)
        as [-> _].
      obind. by eexists.
    + destruct (skiplist_set_absent cmp MAX cmp_ok MAX_pos sl m l key value
                  old r nn_res hd_res Hl Hready Hlk)
        as (b & sl' & m' & Hset).
      unfold skiplist_set in Hset. rewrite Hset. obind. by eexists.
  - (* delete *)
    unfold skiplist_delete.
    destruct (lookup_entry cmp key l) as [e|] eqn:Hlk.
    + apply lookup_entry_Some in Hlk as (l2 & Hfrom & Heq).
      destruct (delete_one_spec cmp sl m hde l key () value e l2
                  Hhd Hs Hsorted cmp_ok Hfrom Heq) as (m' & -> & _).
      obind. by eexists.
    + rewrite (delete_absent_spec cmp sl m hde l key None () value
                 Hhd Hs Hsorted cmp_ok Hlk).
      obind. by eexists.
  - (* delete_all *)
    destruct (skiplist_delete_all_holds cmp MAX cmp_ok MAX_pos sl m l key
                log_cb [] Hl) as (m' & -> & _).
    obind. by eexists.
  - (* get *)
    rewrite (skiplist_get_holds cmp cmp_ok sl m l key value Hl).
    obind. by eexists.
  - (* member *)
    unfold skiplist_member.
    rewrite (skiplist_get_holds cmp cmp_ok sl m l key None Hl).
    cbn [fmap option_fmap option_map]. obind. by eexists.
  - (* first *)
    rewrite (skiplist_first_spec sl m hde l key value Hhd Hs).
    obind. by eexists.
  - (* last *)
    rewrite (skiplist_last_spec sl m hde l key value Hhd Hs).
    obind. by eexists.
  - (* pop_first *)
    destruct l as [|f l].
    + rewrite (pop_first_empty_spec sl m hde key value Hhd Hs).
      obind. by eexists.
    + destruct (pop_first_spec sl m hde f l key value Hhd Hs)
        as (m' & -> & _).
      obind. by eexists.
  - (* pop_last *)
    destruct (decide (count sl = 0%Z)) as [Hc|Hc].
    + rewrite (pop_last_zero_spec sl m hde l key value Hhd Hs Hc).
      obind. by eexists.
    + destruct Hready as [?|Hne]; [done|].
      rewrite (entries_spec sl m hde l Hhd Hs) in Hne.
      destruct l as [|z l1 _] using rev_ind; [done|].
      destruct (pop_last_spec sl m hde l1 z key value Hhd Hs Hc)
        as (m' & -> & _).
      obind. by eexists.
  - (* count *) by eexists.
  - (* empty *) by eexists.
  - (* iter *)
    pose proof (entries_spec sl m hde l Hhd Hs) as He.
    unfold entries in He. rewrite He. obind. by eexists.
  - (* iter_from *)
    destruct (skiplist_iter_from_holds sl m l key collect_cb [] Hl)
      as [u ->].
    obind. by eexists.
  - (* clear *)
    destruct (skiplist_clear_spec sl m hde l
                (if with_cb then Some log_cb else None) [] Hhd Hs)
      as (m' & -> & _).
    obind. by eexists.
Qed.

(** X18: on a container that public calls can produce, every public call
    has a defined result and leaves such a container again, provided the
    allocator hands out blocks that are not live and, for [pop_last], the
    count is zero or the container has entries: no call reads a released
    block, writes outside a node's forward pointers or walks without end. *)
Theorem public_calls_are_defined o s :
  reachable cmp MAX s → ready o s →
  ∃ s', exec_op cmp MAX o s = Some s' ∧ reachable cmp MAX s'.
Proof.
  intros Hreach Hready.
  destruct (reachable_holds cmp MAX s cmp_ok MAX_pos Hreach)
    as (l & Hl & _).
  destruct (exec_op_defined o s l Hl Hready) as [s' Hop].
  exists s'. split; [done|].
  destruct Hreach as (head_res & ops & s0 & Hnew & Hrun).
  exists head_res, (ops ++ [o]), s0. split; [done|].
  by apply (run_snoc ops o s0 s s').
Qed.

End Defined.

Lemma public_calls_are_defined_witness :
  ∃ s',
    exec_op cmp_int 8 (op_pop_last (Some NULL) (Some NULL))
      (run_from_fresh tall_entry_removed) = Some s' ∧
    reachable cmp_int 8 s'.
Proof.
  apply (public_calls_are_defined cmp_int 8 cmp_int_three_way).
  - lia.
  - apply run_from_fresh_reachable. vm_compute. eauto.
  - right. vm_compute. discriminate.
Defined.


(** ** The blocks a container owns *)

(** A call that may grow the head gets a block for the new head when it asks
    for one. *)
Definition head_alloc_succeeds (o : op) : bool :=
  match o with
  | op_add _ _ _ _ hd_res | op_set _ _ _ _ _ hd_res =>
      match hd_res with Some _ => true | None => false end
  | _ => true
  end.

Section Footprint.

Implicit Types (l r pre : list entry) (e d x z : entry) (m : heap) (a b : nat).

Definition live (m : heap) (a : nat) : Prop := is_Some (m !! a).

Lemma set_next_live m p i q m' :
  set_next m p i q = Some m' → ∀ a, live m' a ↔ live m a.
Proof.
  unfold set_next, live. destruct p as [|a0]; [done|].
  destruct (m !! a0) as [n|] eqn:Hn; [|done]. obind.
  case_decide; [|done]. intros [= <-] a.
  destruct (decide (a = a0)) as [->|Hne].
  - rewrite lookup_insert_eq, Hn. split; eauto.
  - by rewrite lookup_insert_ne.
Qed.

Lemma set_v_live m p v m' :
  set_v m p v = Some m' → ∀ a, live m' a ↔ live m a.
Proof.
  unfold set_v, live. destruct p as [|a0]; [done|].
  destruct (m !! a0) as [n|] eqn:Hn; [|done]. obind.
  intros [= <-] a.
  destruct (decide (a = a0)) as [->|Hne].
  - rewrite lookup_insert_eq, Hn. split; eauto.
  - by rewrite lookup_insert_ne.
Qed.

Lemma DO_from_live (body : nat → heap → option heap) :
  (∀ i m m', body i m = Some m' → ∀ a, live m' a ↔ live m a) →
  ∀ n i m m', DO_from i n body m = Some m' → ∀ a, live m' a ↔ live m a.
Proof.
  intros Hb. induction n as [|n IH]; intros i m m'; cbn [DO_from].
  - by intros [= <-].
  - intros (m1 & H1 & H2)%bind_Some a.
    rewrite (IH _ _ _ H2 a). by apply (Hb i).
Qed.

(** [grow_head] either fails and changes nothing, or trades the block of the
    old head for the block of the new one. *)
Lemma grow_head_live hd_res sl m nn (ok : bool) sl' m' :
  grow_head hd_res sl m nn = Some (ok, sl', m') →
  (ok = false ∧ sl' = sl ∧ m' = m) ∨
  (ok = true ∧ ∃ b a0,
     hd_res = Some b ∧ head sl = Ptr a0 ∧ head sl' = Ptr b ∧
     ∀ a, live m' a ↔ a ≠ a0 ∧ (a = b ∨ live m a)).
Proof.
  unfold grow_head. cbn zeta.
  intros (oh & Hoh & H)%bind_Some.
  apply bind_Some in H as (nnode & Hnn & H).
  destruct hd_res as [b|]; cbn [node_alloc] in H.
  2:{ injection H as <- <- <-. by left. }
  apply bind_Some in H as (m1 & H1 & H).
  apply bind_Some in H as (nh & Hnh & H).
  apply bind_Some in H as (m2 & H2 & H).
  apply bind_Some in H as (m3 & H3 & H).
  injection H as <- <- <-. right. split; [done|].
  destruct (head sl) as [|a0] eqn:Hhd; [done|].
  exists b, a0. split; [done|]. split; [done|]. split; [done|].
  unfold node_free in H3. apply bind_Some in H3 as (n0 & _ & [= <-]).
  intros a. unfold live at 1. rewrite lookup_delete_is_Some.
  fold (live m2 a).
  rewrite (DO_from_live _ (λ i m0 m0' Hs, set_next_live _ _ _ _ _ Hs)
             _ _ _ _ H2 a).
  unfold DO in H1.
  assert (Hcopy : ∀ i m0 m0',
            (x ← get_next m0 (Ptr a0) i; set_next m0 (Ptr b) i x) =
              Some m0' →
            ∀ a', live m0' a' ↔ live m0 a').
  { intros i m0 m0' (x & _ & Hsn)%bind_Some. by eapply set_next_live. }
  rewrite (DO_from_live _ Hcopy _ _ _ _ H1 a).
  unfold live. rewrite lookup_insert_is_Some.
  split.
  - intros [Hne [->|[_ ?]]]; eauto.
  - intros [Hne [->|?]]; [eauto|].
    split; [done|]. destruct (decide (b = a)); eauto.
Qed.

Context (cmp : voidp → voidp → Z) (MAX : nat).

(** The blocks that are live after [add_or_set]: blocks that were live
    (the old head only if it is still the head), the block of the new node,
    and the block of a new head. *)
Lemma add_or_set_live sl m (try_replace : bool) key value old (rnd : Z)
    nn_res hd_res (ok : bool) sl' m' old' :
  add_or_set cmp MAX sl m try_replace key value old rnd nn_res hd_res =
    Some (ok, sl', m', old') →
  ∀ a, live m' a →
    (live m a ∧ (head sl' = head sl ∨ Ptr a ≠ head sl)) ∨
    nn_res = Some a ∨
    (hd_res = Some a ∧ head sl' = Ptr a).
Proof.
  unfold add_or_set. cbn zeta. intros H.
  apply bind_Some in H as (hn & Hdh & H).
  apply bind_Some in H as (prevs & Hip & H).
  apply bind_Some in H as ([[replaced m1] old1] & Hrep & H).
  assert (Hm1 : ∀ a, live m1 a ↔ live m a).
  { destruct try_replace; [|by injection Hrep as _ <- _].
    apply bind_Some in Hrep as (p0 & _ & Hrep).
    apply bind_Some in Hrep as (nxt & _ & Hrep).
    destruct (IS_SENTINEL nxt); [by injection Hrep as _ <- _|].
    apply bind_Some in Hrep as (n & _ & Hrep).
    destruct (decide (cmp (node_k n) key = 0%Z)).
    - apply bind_Some in Hrep as (m'' & Hsv & [= _ <- _]).
      by eapply set_v_live.
    - by injection Hrep as _ <- _. }
  destruct replaced.
  { injection H as <- <- <- <-. intros a Ha. left.
    split; [by apply Hm1 | by left]. }
  destruct nn_res as [an|]; cbn [node_alloc] in H.
  2:{ injection H as <- <- <- <-. intros a Ha. left.
      split; [by apply Hm1 | by left]. }
  apply bind_Some in H as ([[[ok2 sl2] m2] prevs2] & Hg & H).
  set (mA := <[an := _]> m1) in *.
  assert (HmA : ∀ a, live mA a ↔ a = an ∨ live m a).
  { intros a. unfold live at 1, mA. rewrite lookup_insert_is_Some.
    rewrite <- (Hm1 a). unfold live. split.
    - intros [->|[_ ?]]; eauto.
    - intros [->|?]; [eauto|]. destruct (decide (an = a)); eauto. }
  assert (HG : ∀ a, live m2 a →
            (live m a ∧ (head sl2 = head sl ∨ Ptr a ≠ head sl)) ∨
            Some an = Some a ∨ (hd_res = Some a ∧ head sl2 = Ptr a)).
  { assert (Hstay : sl2 = sl → m2 = mA → ∀ a, live m2 a →
              (live m a ∧ (head sl2 = head sl ∨ Ptr a ≠ head sl)) ∨
              Some an = Some a ∨ (hd_res = Some a ∧ head sl2 = Ptr a)).
    { intros -> -> a [->|Ha]%HmA; [by right; left|].
      left. split; [done | by left]. }
    case_decide; [|injection Hg as _ <- <- _; by apply Hstay].
    apply bind_Some in Hg as ([[okg slg] mg] & Hgrow & Hg).
    assert (sl2 = slg ∧ m2 = mg) as [-> ->].
    { destruct okg.
      - apply bind_Some in Hg as (ps & _ & [= _ <- <- _]). done.
      - by injection Hg as _ <- <- _. }
    destruct (grow_head_live _ _ _ _ _ _ _ Hgrow)
      as [(_ & -> & ->)|(_ & b & a0 & -> & Hh0 & Hhb & Hlive)];
      [by apply Hstay|].
    intros a [Hne [->|[->|Ha]%HmA]]%Hlive.
    - right; right. done.
    - right; left. done.
    - left. split; [done|]. right. rewrite Hh0. congruence. }
  destruct ok2.
  - apply bind_Some in H as (nnode & _ & H).
    apply bind_Some in H as (m3 & H3 & [= <- <- <- <-]).
    intros a Ha. cbn [head]. apply HG.
    unfold DO in H3.
    refine (proj1 (DO_from_live _ _ _ _ _ _ H3 a) Ha).
    intros i m0 m0' (p & _ & Hb)%bind_Some.
    apply bind_Some in Hb as (x0 & _ & Hb).
    apply bind_Some in Hb as (m4 & Hs1 & Hs2). intros a'.
    rewrite (set_next_live _ _ _ _ _ Hs2 a').
    by apply (set_next_live _ _ _ _ _ Hs1).
  - injection H as <- <- <- <-. exact HG.
Qed.

(** Every live block is the head's or an entry's. *)
Definition tight (m : heap) (hde : entry) (l : list entry) : Prop :=
  ∀ a, live m a → a ∈ e_addr <$> hde :: l.

(** The container owns the whole heap. *)
Definition owns (s : skiplist * heap) (l : list entry) : Prop :=
  ∃ hde, head s.1 = e_ptr hde ∧ skl s.2 hde l ∧ sorted cmp l ∧
         tight s.2 hde l.

Lemma tight_after_removal m m' hde l l' :
  tight m hde l →
  (∀ a, a ∉ e_addr <$> hde :: l → m' !! a = m !! a) →
  (∀ e, e ∈ l → e ∈ l' ∨ m' !! e_addr e = None) →
  tight m' hde l'.
Proof.
  intros Ht Hfr Hgone a Ha.
  destruct (decide (a ∈ e_addr <$> hde :: l)) as [Hin|Hnin].
  - rewrite fmap_cons in Hin. rewrite fmap_cons.
    apply elem_of_cons in Hin as [->|Hin]; [left|].
    apply list_elem_of_fmap in Hin as (e & -> & He).
    destruct (Hgone e He) as [?|Hnone].
    + right. by apply list_elem_of_fmap_2.
    + unfold live in Ha. rewrite Hnone in Ha. by destruct Ha.
  - exfalso. apply Hnin, Ht. unfold live. by rewrite <- Hfr.
Qed.

Lemma tight_after_insert sl m sl' m' hde hde' l1 l2 x
    (try_replace : bool) key value old (rnd : Z) nn_res hd_res (ok : bool)
    old' :
  add_or_set cmp MAX sl m try_replace key value old rnd nn_res hd_res =
    Some (ok, sl', m', old') →
  head sl = e_ptr hde → head sl' = e_ptr hde' →
  tight m hde (l1 ++ l2) → nn_res = Some (e_addr x) →
  tight m' hde' (l1 ++ x :: l2).
Proof.
  intros Hrun Hhd Hhd' Ht Hnn a Ha. rewrite fmap_cons.
  destruct (add_or_set_live _ _ _ _ _ _ _ _ _ _ _ _ _ Hrun a Ha)
    as [[Hl Hhead]|[Heq|[_ Heq]]].
  - specialize (Ht a Hl). rewrite fmap_cons in Ht.
    apply elem_of_cons in Ht as [->|Hin].
    + destruct Hhead as [Hsame|Hne]; [|by rewrite Hhd in Hne].
      rewrite Hhd, Hhd' in Hsame. injection Hsame as <-. left.
    + right. rewrite fmap_app in Hin. rewrite fmap_app, fmap_cons.
      apply elem_of_app in Hin as [?|?]; apply elem_of_app; [by left|].
      right. by right.
  - rewrite Hnn in Heq. injection Heq as <-. right.
    apply list_elem_of_fmap_2, elem_of_app. right. left.
  - rewrite Hhd' in Heq. injection Heq as <-. left.
Qed.

Hypothesis cmp_ok : three_way cmp.
Hypothesis MAX_pos : 1 ≤ MAX.

(** Insertion into a container that owns its heap, when a head block is
    there for the asking. *)
Lemma insert_owns sl m hde l (try_replace : bool) key value old (rnd : Z)
    nn_res b ok sl' m' old' :
  head sl = e_ptr hde → skl m hde l → sorted cmp l → tight m hde l →
  allocs_ok m nn_res (Some b) →
  (try_replace = true → lookup_entry cmp key l = None) →
  add_or_set cmp MAX sl m try_replace key value old rnd nn_res (Some b) =
    Some (ok, sl', m', old') →
  ∃ l', owns (sl', m') l'.
Proof.
  intros Hhd Hs Hsorted Ht Hal Hnr Hrun.
  pose proof (add_or_set_insert cmp MAX sl m hde l try_replace key value old
                rnd nn_res (Some b) Hhd Hs Hsorted cmp_ok MAX_pos Hal Hnr)
    as Hadd.
  cbn zeta in Hadd.
  assert (Hsplit : tight m hde (below cmp key l ++ from cmp key l))
    by (by rewrite below_from).
  destruct nn_res as [a|].
  - set (x := mk_entry a (SKIPLIST_GEN_HEIGHT MAX rnd) key value) in *.
    destruct (decide (e_h hde < SKIPLIST_GEN_HEIGHT MAX rnd)).
    + destruct Hadd as (m1 & Hrun1 & Hs').
      rewrite Hrun1 in Hrun. injection Hrun as <- <- <- <-.
      eexists. eexists. split; [|split; [exact Hs'|split]].
      * done.
      * by apply sorted_insert.
      * by apply (tight_after_insert _ _ _ _ _ _ _ _ x _ _ _ _ _ _ _ _ _
                    Hrun1 Hhd).
    + destruct Hadd as (m1 & Hrun1 & Hs').
      rewrite Hrun1 in Hrun. injection Hrun as <- <- <- <-.
      eexists. exists hde. split; [|split; [exact Hs'|split]].
      * done.
      * by apply sorted_insert.
      * by apply (tight_after_insert _ _ _ _ _ _ _ _ x _ _ _ _ _ _ _ _ _
                    Hrun1 Hhd).
  - rewrite Hadd in Hrun. injection Hrun as <- <- <- <-.
    exists l, hde. done.
Qed.

(** Every public operation that returns, and that gets a head block when it
    asks for one, leaves a container that owns its heap. *)
Lemma exec_op_owns o s s' l :
  owns s l → head_alloc_succeeds o = true →
  exec_op cmp MAX o s = Some s' → ∃ l', owns s' l'.
Proof.
  intros (hde & Hhd & Hs & Hsorted & Ht) Ho. destruct s as [sl m].
  cbn [fst snd] in *.
  assert (Hsame : ∃ l', owns (sl, m) l') by (by exists l, hde).
  destruct o; cbn [exec_op head_alloc_succeeds] in *.
  - (* add *)
    destruct hd_res as [b|]; [|done].
    case_decide as Hal; [|done]. unfold skiplist_add.
    intros ([[ok sl1] m1] & Hadd & [= <-])%bind_Some.
    apply bind_Some in Hadd as ([[[ok' sl2] m2] old1] & Hrun & [= _ <- <-]).
    by apply (insert_owns sl m hde l false key value None r nn_res b
                ok' sl2 m2 old1).
  - (* set *)
    destruct hd_res as [b|]; [|done].
    case_decide as Hal; [|done]. unfold skiplist_set.
    intros ([[[ok sl1] m1] old1] & Hrun & [= <-])%bind_Some.
    destruct (lookup_entry cmp key l) as [e|] eqn:Hlk.
    + apply lookup_entry_Some in Hlk as (l2 & Hfrom & Heq).
      destruct (add_or_set_replace cmp MAX sl m hde l key value old r
                  nn_res (Some b) e l2 Hhd Hs Hsorted cmp_ok Hfrom Heq)
        as [Hrun1 Hs'].
      rewrite Hrun1 in Hrun. injection Hrun as <- <- <- <-.
      eexists. exists hde. split; [done|]. split; [exact Hs'|]. split.
      * apply sorted_with_value. by rewrite <- Hfrom, below_from.
      * cbn [fst snd]. intros a Ha. unfold live in Ha.
        rewrite lookup_insert_is_Some in Ha.
        assert (Hl : e_addr <$> hde :: below cmp key l ++
                       with_value e value :: l2 =
                     e_addr <$> hde :: l).
        { rewrite <- (below_from cmp key l) at 2. rewrite Hfrom.
          by rewrite !fmap_cons, !fmap_app, !fmap_cons. }
        rewrite Hl. destruct Ha as [<-|[_ Ha]]; [|by apply Ht].
        rewrite fmap_cons. right. apply list_elem_of_fmap_2.
        rewrite <- (below_from cmp key l), Hfrom.
        apply elem_of_app. right. left.
    + by apply (insert_owns sl m hde l true key value old r nn_res b
                  ok sl1 m1 old1).
  - (* delete *)
    unfold skiplist_delete.
    destruct (lookup_entry cmp key l) as [e|] eqn:Hlk.
    + apply lookup_entry_Some in Hlk as (l2 & Hfrom & Heq).
      destruct (delete_one_spec cmp sl m hde l key () value e l2
                  Hhd Hs Hsorted cmp_ok Hfrom Heq)
        as (m' & -> & Hs' & Hfr & Hfree).
      obind. intros [= <-]. eexists. exists hde. split; [done|].
      split; [exact Hs'|]. split.
      * apply (sorted_remove_one cmp _ e). by rewrite <- Hfrom, below_from.
      * apply (tight_after_removal m m' hde l); [done | done |].
        intros y Hy. rewrite <- (below_from cmp key l), Hfrom in Hy.
        apply elem_of_app in Hy as [Hy|Hy];
          [|apply elem_of_cons in Hy as [->|Hy]].
        -- left. apply elem_of_app. by left.
        -- by right.
        -- left. apply elem_of_app. by right.
    + rewrite (delete_absent_spec cmp sl m hde l key None () value
                 Hhd Hs Hsorted cmp_ok Hlk).
      obind. by intros [= <-].
  - (* delete_all *)
    unfold skiplist_delete_all.
    destruct (eq_run cmp key (from cmp key l)) as [|d r] eqn:Hrun.
    + assert (Hlk : lookup_entry cmp key l = None).
      { unfold lookup_entry. destruct (from cmp key l) as [|x l2]; [done|].
        cbn [eq_run] in Hrun. by case_decide. }
      rewrite (delete_absent_spec cmp sl m hde l key (Some log_cb) [] None
                 Hhd Hs Hsorted cmp_ok Hlk).
      obind. by intros [= <-].
    + destruct (delete_all_spec cmp sl m hde l key log_cb [] None d r
                  Hhd Hs Hsorted cmp_ok Hrun)
        as (m' & -> & Hs' & Hfr & Hfree).
      obind. intros [= <-]. eexists. exists hde. split; [done|].
      split; [exact Hs'|]. split.
      * apply (sorted_remove cmp _ (eq_run cmp key (from cmp key l))).
        by rewrite eq_run_after, below_from.
      * apply (tight_after_removal m m' hde l); [done | done |].
        intros y Hy.
        rewrite <- (below_from cmp key l),
          <- (eq_run_after cmp key (from cmp key l)), Hrun in Hy.
        apply elem_of_app in Hy as [Hy|Hy];
          [|apply elem_of_app in Hy as [Hy|Hy]].
        -- left. apply elem_of_app. by left.
        -- right. by apply Hfree.
        -- left. apply elem_of_app. by right.
  - (* get *) by intros (? & _ & [= <-])%bind_Some.
  - (* member *) by intros (? & _ & [= <-])%bind_Some.
  - (* first *) by intros (? & _ & [= <-])%bind_Some.
  - (* last *) by intros (? & _ & [= <-])%bind_Some.
  - (* pop_first *)
    destruct l as [|f l].
    + rewrite (pop_first_empty_spec sl m hde key value Hhd Hs).
      obind. by intros [= <-].
    + destruct (pop_first_spec sl m hde f l key value Hhd Hs)
        as (m' & -> & Hs' & Hfr & Hfree).
      obind. intros [= <-]. exists l, hde. split; [done|].
      split; [exact Hs'|]. split.
      * by apply StronglySorted_inv in Hsorted as [? _].
      * apply (tight_after_removal m m' hde (f :: l)); [done | done |].
        intros y Hy. apply elem_of_cons in Hy as [->|Hy];
          [by right | by left].
  - (* pop_last *)
    destruct (decide (count sl = 0%Z)) as [Hc|Hc].
    + rewrite (pop_last_zero_spec sl m hde l key value Hhd Hs Hc).
      obind. by intros [= <-].
    + destruct l as [|z l1 _] using rev_ind.
      * by rewrite (pop_last_stale sl m hde key value Hhd Hs Hc).
      * destruct (pop_last_spec sl m hde l1 z key value Hhd Hs Hc)
          as (m' & -> & Hs' & Hfr & Hfree).
        obind. intros [= <-]. exists l1, hde. split; [done|].
        split; [exact Hs'|]. split.
        -- by apply sorted_app_inv in Hsorted as [? _].
        -- apply (tight_after_removal m m' hde (l1 ++ [z])); [done | done |].
           intros y Hy. apply elem_of_app in Hy as [Hy|Hy]; [by left|].
           apply list_elem_of_singleton in Hy as ->. by right.
  - (* count *) by intros [= <-].
  - (* empty *) by intros [= <-].
  - (* iter *) by intros (? & _ & [= <-])%bind_Some.
  - (* iter_from *) by intros (? & _ & [= <-])%bind_Some.
  - (* clear *)
    destruct (skiplist_clear_released sl m hde l
                (if with_cb then Some log_cb else None) [] Hhd Hs)
      as (m' & -> & Hs' & Hfr & Hfree).
    obind. intros [= <-]. exists [], hde. split; [done|].
    split; [exact Hs'|]. split; [constructor|].
    apply (tight_after_removal m m' hde l); [done | done |].
    intros y Hy. right. by apply Hfree.
Qed.

Lemma run_owns ops s s' l :
  Forall (λ o, head_alloc_succeeds o = true) ops →
  owns s l → run cmp MAX ops s = Some s' → ∃ l', owns s' l'.
Proof.
  revert s l. induction ops as [|o ops IH]; intros s l Hops Hl; cbn [run].
  - intros [= <-]. eauto.
  - apply Forall_cons in Hops as [Ho Hops].
    intros (s1 & Hop & Hrun)%bind_Some.
    destruct (exec_op_owns o s s1 l Hl Ho Hop) as (l1 & Hl1).
    by apply (IH s1 l1).
Qed.

Lemma owns_new head_res s :
  skiplist_new false true head_res = Some s → owns s [].
Proof.
  intros Hnew.
  destruct (holds_new cmp head_res s Hnew) as (hde & Hhd & Hs & Hsorted).
  exists hde. split; [done|]. split; [done|]. split; [done|].
  unfold skiplist_new in Hnew. destruct head_res as [a0|]; [|done].
  cbn [node_alloc] in Hnew. injection Hnew as <-. cbn [fst snd] in *.
  injection Hhd as ->. intros a Ha. unfold live in Ha.
  rewrite lookup_insert_is_Some in Ha.
  destruct Ha as [<-|[_ Ha]]; [rewrite fmap_cons; left|].
  rewrite lookup_empty in Ha. by destruct Ha.
Qed.

Lemma owns_size s l : owns s l → size s.2 = S (length l).
Proof.
  intros (hde & Hhd & Hs & _ & Ht).
  change (S (length l)) with (length (hde :: l)).
  rewrite <- (length_fmap e_addr), <- size_dom.
  rewrite <- (size_list_to_set (C := gset nat)) by (by destruct Hs).
  f_equal. apply set_eq. intros a.
  rewrite elem_of_dom, elem_of_list_to_set. split; [apply Ht|].
  intros (e & -> & He)%list_elem_of_fmap.
  apply list_elem_of_split in He as (pre & r & Heq).
  rewrite (skl_at s.2 hde l pre e r Hs Heq). eauto.
Qed.

Lemma free_owned {U} s l (cb : option (skiplist_free_cb U)) udata :
  owns s l →
  skiplist_free s.1 s.2 cb udata =
    Some (size_t (Z.of_nat (length l)), ∅, dispose cb l udata).
Proof.
  intros (hde & Hhd & Hs & _ & Ht). destruct s as [sl m].
  cbn [fst snd] in *.
  destruct (skiplist_clear_released sl m hde l cb udata Hhd Hs)
    as (m' & Hclear & Hs' & Hfr & Hrel).
  unfold skiplist_free. rewrite Hclear. obind. rewrite Hhd.
  rewrite (node_free_at m' hde _ (skl_at m' hde [] [] hde [] Hs' eq_refl)).
  obind. do 3 f_equal. apply map_eq. intros a. rewrite lookup_empty.
  destruct (decide (a = e_addr hde)) as [->|Hne];
    [apply lookup_delete_eq|].
  rewrite lookup_delete_ne by done.
  destruct (decide (a ∈ e_addr <$> l)) as [Hin|Hnin].
  - apply list_elem_of_fmap in Hin as (e & -> & He). by apply Hrel.
  - assert (Hout : a ∉ e_addr <$> hde :: l).
    { rewrite fmap_cons. by apply not_elem_of_cons. }
    rewrite (Hfr a Hout). apply eq_None_not_Some. intros Hlive.
    by apply Hout, Ht.
Qed.

(** X19: in a container made by [skiplist_new] and any sequence of public
    operations in which no request for a head block is refused, the heap
    holds the head and one block per entry and nothing else, and [free]
    hands every block back: the heap is empty afterwards. *)
Theorem no_block_is_lost {U} head_res ops s0 s es
    (cb : option (skiplist_free_cb U)) udata :
  skiplist_new false true head_res = Some s0 →
  run cmp MAX ops s0 = Some s →
  Forall (λ o, head_alloc_succeeds o = true) ops →
  entries s.1 s.2 = Some es →
  size s.2 = S (length es) ∧
  ∃ u', skiplist_free s.1 s.2 cb udata =
          Some (size_t (Z.of_nat (length es)), ∅, u').
Proof.
  intros Hnew Hrun Hops Hes.
  destruct (run_owns ops s0 s [] Hops (owns_new head_res s0 Hnew) Hrun)
    as (l & Hl).
  assert (Hh : holds cmp s l).
  { destruct Hl as (hde & ? & ? & ? & _). by exists hde. }
  rewrite (holds_entries cmp s l Hh) in Hes. injection Hes as <-.
  rewrite length_fmap. split; [by apply owns_size|].
  eexists. by apply free_owned.
Qed.

End Footprint.

(** Calls of several kinds; the one refused allocation is that of a node,
    not of a head. *)
Definition served_calls : list op :=
  [op_add (Obj 10) (Obj 1) 3 (Some 1) (Some 101);
   op_set (Obj 20) (Obj 2) None 0 (Some 2) (Some 102);
   op_add (Obj 15) (Obj 3) 7 (Some 3) (Some 103);
   op_add (Obj 40) (Obj 4) 0 None (Some 104);
   op_delete (Obj 20) None;
   op_pop_first None None;
   op_clear true;
   op_add (Obj 50) (Obj 5) 1 (Some 5) (Some 105);
   op_add (Obj 60) (Obj 6) 0 (Some 6) (Some 106)].

Lemma no_block_is_lost_witness :
  size (run_from_fresh served_calls).2 =
    S (length [(Obj 50, Obj 5); (Obj 60, Obj 6)]) ∧
  ∃ u', skiplist_free (run_from_fresh served_calls).1
          (run_from_fresh served_calls).2 (Some log_cb) [] =
          Some (size_t (Z.of_nat (length [(Obj 50, Obj 5); (Obj 60, Obj 6)])),
                ∅, u').
Proof.
  apply (no_block_is_lost cmp_int 8 cmp_int_three_way ltac:(lia)
           (Some 100) served_calls fresh_container).
  - reflexivity.
  - vm_compute. reflexivity.
  - repeat constructor.
  - vm_compute. reflexivity.
Defined.


(** ** What the debug traversal asserts *)

Section DebugChecks.

Context (cmp : voidp → voidp → Z) (MAX : nat).
Hypothesis cmp_ok : three_way cmp.
Hypothesis MAX_pos : 1 ≤ MAX.

Implicit Types (l r pre : list entry) (e d z : entry) (L j : nat) (m : heap).

Lemma at_level_length_mono L L' l :
  L' ≤ L → length (at_level L l) ≤ length (at_level L' l).
Proof.
  intros HL. unfold at_level. induction l as [|e l IH]; [done|].
  rewrite !filter_cons. repeat case_decide; cbn [length]; lia.
Qed.

(** X20: the two assertions of the level-by-level traversal of
    [skiplist_debug] hold in every container that public calls can produce:
    no cell met at a level is taller than the head, and a level never has
    more cells than a level below it. *)
Theorem debug_assertions_hold s :
  reachable cmp MAX s →
  ∃ hn, deref s.2 (head s.1) = Some hn ∧
    ∀ L, L < node_h hn →
      ∃ ns, level_list s.1 s.2 L = Some ns ∧
        Forall (λ p, ∃ n, deref s.2 p = Some n ∧ node_h n ≤ node_h hn) ns ∧
        ∀ L', L' ≤ L →
          ∃ ns', level_list s.1 s.2 L' = Some ns' ∧ length ns ≤ length ns'.
Proof.
  intros Hreach. destruct s as [sl m]. cbn [fst snd] in *.
  destruct (reachable_holds cmp MAX (sl, m) cmp_ok MAX_pos Hreach)
    as (l & (hde & Hhd & Hs & _) & _).
  cbn [fst snd] in *. exists (node_of hde l). split.
  { rewrite Hhd. by apply (deref_at m hde l [] hde l). }
  cbn [node_of node_h]. intros L HL.
  exists (e_ptr <$> at_level L l).
  split; [by apply (level_list_spec sl m hde l)|]. split.
  - apply Forall_fmap, Forall_forall. intros e He. cbn [compose].
    unfold at_level in He. apply list_elem_of_filter in He as [_ He].
    destruct (skl_deref_in m hde l e Hs He) as [r ->].
    eexists. split; [done|]. cbn [node_of node_h].
    destruct Hs as [_ _ Hh _]. rewrite Forall_forall in Hh.
    by destruct (Hh e He).
  - intros L' HL'. exists (e_ptr <$> at_level L' l).
    split; [apply (level_list_spec sl m hde l); [done | done | lia]|].
    rewrite !length_fmap. by apply at_level_length_mono.
Qed.

End DebugChecks.

Lemma debug_assertions_hold_witness :
  ∃ hn,
    deref (run_from_fresh distinct_references).2
          (head (run_from_fresh distinct_references).1) = Some hn ∧
    ∀ L, L < node_h hn →
      ∃ ns,
        level_list (run_from_fresh distinct_references).1
                   (run_from_fresh distinct_references).2 L = Some ns ∧
        Forall (λ p, ∃ n,
                  deref (run_from_fresh distinct_references).2 p = Some n ∧
                  node_h n ≤ node_h hn) ns ∧
        ∀ L', L' ≤ L →
          ∃ ns',
            level_list (run_from_fresh distinct_references).1
                       (run_from_fresh distinct_references).2 L' = Some ns' ∧
            length ns ≤ length ns'.
Proof.
  apply (debug_assertions_hold cmp_int 8 cmp_int_three_way).
  - lia.
  - apply run_from_fresh_reachable. vm_compute. eauto.
Defined.
